(** * ACX audiobook processor: the transform-decision pipeline

    A shallow embedding of the batch scripts [acx-fix-v1.py],
    [acx-fix-v1b.py] and [acx.py]: duplicate detection by content digest,
    channel policy, loudness gain, time-bounded segmentation and export
    naming, together with the properties the design document states about
    them.

    Python integers are [Z], Python floats are IEEE binary64 values
    ([PrimFloat.float]), strings are [string], the insertion-ordered
    [defaultdict(list)] is an association list, the [set] of digests is a
    [gset string], and the disk the scripts write to is a [gmap] of files
    and a [gset] of directories, each named by its path components. *)

From Stdlib Require Import ZArith Lia Ascii.
From Stdlib Require Import Floats.PrimFloat.
From stdpp Require Import base option list strings pretty gmap.

Local Open Scope Z_scope.

(** ** Python built-ins used by the scripts *)

Module Py.

(** [math.ceil(a / b)].  The scripts divide two [int]s with true division
    and round the quotient up.  For operands below [2^53] (a duration of
    about 285 000 years in milliseconds) the binary64 quotient rounds up to
    the exact integer ceiling, which is what this definition computes. *)
Definition ceil_div (a b : Z) : Z := - ((- a) / b).

(** [range(start, stop, step)] for a positive [step], unrolled as the loop
    it stands for: produce [i] while [i < stop].  The fuel bounds the number
    of iterations; [range3_closed] below shows that it never runs out. *)
Fixpoint range_loop (fuel : nat) (i stop step : Z) : list Z :=
  match fuel with
  | O => []
  | S fuel' =>
      if i <? stop then i :: range_loop fuel' (i + step) stop step else []
  end.

Definition range3 (start stop step : Z) : list Z :=
  range_loop (Z.to_nat (stop - start)) start stop step.

(** [range(n)] *)
Definition range (n : Z) : list Z := range3 0 n 1.

(** [enumerate(xs, start)] *)
Definition enumerate {A} (xs : list A) (start : nat) : list (nat * A) :=
  imap (λ i x, ((start + i)%nat, x)) xs.

(** [min(a, b)] on integers *)
Definition min (a b : Z) : Z := if b <? a then b else a.

End Py.

(** ** Segmentation on durations

    Both splitters read one thing from the buffer, [len(audio)], and slice it
    with [audio[start:end]].  pydub's [AudioSegment.__getitem__] clamps both
    ends of a slice to [len(self)]; a slice is represented by its clamped
    bounds in milliseconds. *)

Definition slice_bounds (total start stop : Z) : Z * Z :=
  (Py.min start total, Py.min stop total).

(** [split_into_chunks] of [acx-fix-v1.py] (with [MAX_DURATION_MS]) and of
    [acx-fix-v1b.py] (with [CHUNK_SIZE_MS]); [chunk] is that constant. *)
Definition split_bounds (chunk total : Z) : list (Z * Z) :=
  let parts := Py.ceil_div total chunk in
  map (λ i, let start := i * chunk in
            let stop := Py.min ((i + 1) * chunk) total in
            slice_bounds total start stop)
      (Py.range parts).

(** The splitting branch of [process_file] in [acx.py] and
    [batch_acx_fix.py]: the whole buffer unless it is longer than the limit,
    else strides of [chunk] milliseconds. *)
Definition stride_bounds (chunk total : Z) : list (Z * Z) :=
  if total >? chunk
  then map (λ i, slice_bounds total i (i + chunk)) (Py.range3 0 total chunk)
  else [(0, total)].

(** Configuration constants of the scripts. *)
Definition TARGET_RMS_DBFS : float := (-20.0)%float.
Definition MAX_DURATION_MS : Z := 120 * 60 * 1000.
Definition MARGIN_MS : Z := 2 * 1000.
Definition CHUNK_SIZE_MS : Z := MAX_DURATION_MS - MARGIN_MS.
Definition SUPPORTED_EXTS : list string := [".mp3"; ".wav"].

(** Properties of a list of segments. *)
Definition contiguous (l : list (Z * Z)) : Prop :=
  ∀ (i : nat) a b, l !! i = Some a → l !! S i = Some b → a.2 = b.1.

Definition non_overlapping (l : list (Z * Z)) : Prop :=
  ∀ (i j : nat) a b,
    (i < j)%nat → l !! i = Some a → l !! j = Some b → a.2 ≤ b.1.

Definition covers (total : Z) (l : list (Z * Z)) : Prop :=
  ∀ t, 0 ≤ t < total ↔ ∃ seg, seg ∈ l ∧ seg.1 ≤ t < seg.2.

Definition bounded_by (chunk : Z) (l : list (Z * Z)) : Prop :=
  Forall (λ seg, 0 < seg.2 - seg.1 ≤ chunk) l.

(** ** Strings and paths

    The [str] methods and the [os.path] functions (POSIX flavour) the scripts
    call, on ASCII strings. *)

Module Str.

(** [s.lower()] *)
Definition lower_char (c : ascii) : ascii :=
  let n := nat_of_ascii c in
  if ((65 <=? n) && (n <=? 90))%nat then ascii_of_nat (n + 32) else c.

Fixpoint lower (s : string) : string :=
  match s with
  | EmptyString => EmptyString
  | String c s' => String (lower_char c) (lower s')
  end.

(** [s.startswith(prefix)] and [s.endswith(suffix)] *)
Definition startswith (s prefix : string) : bool := String.prefix prefix s.

Definition endswith (s suffix : string) : bool :=
  let n := String.length s in
  let m := String.length suffix in
  if (m <=? n)%nat then String.eqb (String.substring (n - m) m s) suffix
  else false.

(** [s.endswith((suffix1, suffix2, ...))] *)
Definition endswith_any (s : string) (suffixes : list string) : bool :=
  existsb (endswith s) suffixes.

(** [s.rfind(c)]: the highest index of [c] in [s], or [-1]; [i] is the index
    of the first character of [s]. *)
Fixpoint rfind_from (c : ascii) (s : string) (i : Z) : Z :=
  match s with
  | EmptyString => -1
  | String a s' =>
      let r := rfind_from c s' (i + 1) in
      if 0 <=? r then r else if Ascii.eqb a c then i else -1
  end.

Definition rfind (s : string) (c : ascii) : Z := rfind_from c s 0.

(** [s.split(sep)]; [cur] is the component being read, reversed. *)
Fixpoint split_go (sep : ascii) (cur : string) (s : string) : list string :=
  match s with
  | EmptyString => [String.rev cur]
  | String a s' =>
      if Ascii.eqb a sep then String.rev cur :: split_go sep EmptyString s'
      else split_go sep (String a cur) s'
  end.

Definition split (s : string) (sep : ascii) : list string :=
  split_go sep EmptyString s.

(** [s[:n]] and [s[n:]] for [0 <= n] *)
Definition take (n : Z) (s : string) : string :=
  String.substring 0 (Z.to_nat n) s.

Definition drop (n : Z) (s : string) : string :=
  String.substring (Z.to_nat n) (String.length s - Z.to_nat n) s.

(** [s.rstrip(c)] for a single character [c] *)
Fixpoint rstrip (s : string) (c : ascii) : string :=
  match s with
  | EmptyString => EmptyString
  | String a s' =>
      let r := rstrip s' c in
      if String.eqb r "" && Ascii.eqb a c then EmptyString else String a r
  end.

(** [s == c * len(s)] *)
Fixpoint all_char (c : ascii) (s : string) : bool :=
  match s with
  | EmptyString => true
  | String a s' => Ascii.eqb a c && all_char c s'
  end.

(** [c in s] *)
Fixpoint contains (c : ascii) (s : string) : bool :=
  match s with
  | EmptyString => false
  | String a s' => Ascii.eqb a c || contains c s'
  end.

End Str.

Module OsPath.

(** [os.path.join(a, b)] *)
Definition join (a b : string) : string :=
  if Str.startswith b "/" then b
  else if String.eqb a "" || Str.endswith a "/" then a +:+ b
  else a +:+ "/" +:+ b.

(** The loop of [genericpath._splitext] that skips the leading dots of the
    file name: [true] when a character other than a dot stands between
    [filenameIndex] and [dotIndex]. *)
Fixpoint splitext_scan (fuel : nat) (p : string) (filenameIndex dotIndex : Z)
  : bool :=
  match fuel with
  | O => false
  | S fuel' =>
      if filenameIndex <? dotIndex then
        match String.get (Z.to_nat filenameIndex) p with
        | Some c =>
            if negb (Ascii.eqb c ".") then true
            else splitext_scan fuel' p (filenameIndex + 1) dotIndex
        | None => false
        end
      else false
  end.

(** [os.path.splitext(p)] *)
Definition splitext (p : string) : string * string :=
  let sepIndex := Str.rfind p "/" in
  let dotIndex := Str.rfind p "." in
  if (sepIndex <? dotIndex)
     && splitext_scan (String.length p) p (sepIndex + 1) dotIndex
  then (Str.take dotIndex p, Str.drop dotIndex p)
  else (p, "").

(** The components of [os.path.abspath(p)]: [p] is joined to the working
    directory unless it is absolute, and [normpath] drops empty and ["."]
    components and lets [".."] remove the component before it. *)
Definition normpath_step (new_comps : list string) (comp : string)
  : list string :=
  if String.eqb comp "" || String.eqb comp "." then new_comps
  else if String.eqb comp ".." then removelast new_comps
  else new_comps ++ [comp].

Definition abspath_components (cwd p : string) : list string :=
  let full := if Str.startswith p "/" then p else join cwd p in
  foldl normpath_step [] (Str.split full "/").

Fixpoint commonprefix (l1 l2 : list string) : list string :=
  match l1, l2 with
  | x :: l1', y :: l2' =>
      if String.eqb x y then x :: commonprefix l1' l2' else []
  | _, _ => []
  end.

(** [os.path.relpath(path, start)] in working directory [cwd]; [None] is
    the [ValueError] raised for an empty [path]. *)
Definition relpath (cwd path start : string) : option string :=
  if String.eqb path "" then None
  else
    let start_list := abspath_components cwd start in
    let path_list := abspath_components cwd path in
    let i := length (commonprefix start_list path_list) in
    let rel_list :=
      replicate (length start_list - i) ".." ++ list.drop i path_list in
    match rel_list with
    | [] => Some "."
    | comp :: comps => Some (foldl join comp comps)
    end.

(** [os.path.dirname(p)] *)
Definition dirname (p : string) : string :=
  let i := Str.rfind p "/" + 1 in
  let head := Str.take i p in
  if negb (String.eqb head "") && negb (Str.all_char "/" head)
  then Str.rstrip head "/" else head.

(** The components the system goes through to reach [p] from the root, in
    working directory [cwd] (an absolute path). *)
Definition components (cwd p : string) : list string :=
  Str.split (if Str.startswith p "/" then p else join cwd p) "/".

(** A component that names an entry of a directory. *)
Definition is_name (comp : string) : bool :=
  negb (String.eqb comp "" || String.eqb comp "." || String.eqb comp "..").

End OsPath.

(** ** Files and directories on the disk

    A file or directory is named by the list of its components from the
    root.  [resolve] gives the name [os.path.abspath] computes for a path:
    the working directory is put before a relative path, empty and ["."]
    components are dropped and [".."] removes the component before it.  For
    a path without [".."] this is the entry the system reaches on a disk
    without symbolic links. *)
Definition resolve (cwd p : string) : list string :=
  OsPath.abspath_components cwd p.

(** An output path of the ordinary form: it has a directory part, no
    [".."] component, and it ends in a name. *)
Definition plain_path (cwd p : string) : bool :=
  negb (String.eqb (OsPath.dirname p) "")
  && negb (bool_decide (".." ∈ OsPath.components cwd p))
  && OsPath.is_name (List.last (OsPath.components cwd p) "").

(** ** The audio library

    [pydub.AudioSegment] and [hashlib.md5] are external to the scripts.  The
    pipeline is written against this interface: what the scripts read from a
    buffer ([len], [channels], [dBFS], [raw_data]), the two transformations
    they call, and the digest.  [set_channels] returns [None] where pydub
    raises (a layout change it does not support).  Both transformations keep
    the duration of the buffer. *)

Class AudioLib := {
  AudioSegment : Type;
  len : AudioSegment → Z;
  channels : AudioSegment → Z;
  dBFS : AudioSegment → float;
  raw_data : AudioSegment → string;
  set_channels : AudioSegment → Z → option AudioSegment;
  apply_gain : AudioSegment → float → AudioSegment;
  md5_hexdigest : string → string;
  len_nonneg : ∀ a, 0 ≤ len a;
  len_set_channels : ∀ a n a', set_channels a n = Some a' → len a' = len a;
  len_apply_gain : ∀ a g, len (apply_gain a g) = len a
}.

(** One entry of [meta]: the dict built by [analyze_directory]. *)
Record AudioInfo := {
  info_path : string;
  info_duration : Z;
  info_channels : Z;
  info_dBFS : float;
  info_md5 : string
}.

(** ** Duplicate detection and channel policy (pure, on [meta]) *)

(** [dups[k].append(v)] on a [defaultdict(list)]; the dict keeps its keys in
    insertion order. *)
Fixpoint dd_append (dups : list (string * list string)) (k v : string)
  : list (string * list string) :=
  match dups with
  | [] => [(k, [v])]
  | (k', vs) :: dups' =>
      if String.eqb k' k then (k', vs ++ [v]) :: dups'
      else (k', vs) :: dd_append dups' k v
  end.

(** The dict [dups] at the end of the loop of [report_duplicates]. *)
Definition group_by_md5 (meta : list AudioInfo) : list (string * list string) :=
  foldl (λ dups m, dd_append dups (info_md5 m) (info_path m)) [] meta.

(** [report_duplicates]: the groups of two or more paths (the printed report
    lists the same groups). *)
Definition report_duplicates (meta : list AudioInfo) : list (list string) :=
  filter (λ grp, (1 < length grp)%nat) (map snd (group_by_md5 meta)).

(** [next(m["md5"] for m in meta if m["path"] == dup_path)]; [None] is
    [StopIteration]. *)
Definition md5_of_path (meta : list AudioInfo) (dup_path : string)
  : option string :=
  info_md5 <$> List.find (λ m, String.eqb (info_path m) dup_path) meta.

(** The inner loop [for dup_path in grp[1:]] of the main block. *)
Definition skip_group (meta : list AudioInfo) (skip_md5 : option (gset string))
    (grp : list string) : option (gset string) :=
  foldl (λ acc dup_path,
           skip ← acc; h ← md5_of_path meta dup_path; Some ({[ h ]} ∪ skip))
        skip_md5 (tail grp).

(** The set [skip_md5] built by the main block. *)
Definition build_skip_md5 (meta : list AudioInfo) (dup_groups : list (list string))
  : option (gset string) :=
  foldl (skip_group meta) (Some ∅) dup_groups.

(** [decide_target_channels] *)
Definition decide_target_channels (meta : list AudioInfo) : Z :=
  if existsb (λ m, 1 <? info_channels m) meta then 2 else 1.

(** The test at the top of [process_file]. *)
Definition is_skipped (skip_md5 : gset string) (info : AudioInfo) : bool :=
  bool_decide (info_md5 info ∈ skip_md5).

(** The records [process_file] does not skip. *)
Definition survivors (skip_md5 : gset string) (meta : list AudioInfo)
  : list AudioInfo :=
  List.filter (λ info, negb (is_skipped skip_md5 info)) meta.


(** The digests in first-seen order, and the paths carrying a digest in scan
    order: the vocabulary in which the grouping is specified. *)
Fixpoint first_seen (seen : list string) (keys : list string) : list string :=
  match keys with
  | [] => []
  | k :: keys' =>
      if bool_decide (k ∈ seen) then first_seen seen keys'
      else k :: first_seen (k :: seen) keys'
  end.

Definition paths_with (k : string) (meta : list AudioInfo) : list string :=
  map info_path (List.filter (λ m, String.eqb (info_md5 m) k) meta).

(** The digests carried by two or more records, in first-seen order. *)
Definition duplicated_keys (meta : list AudioInfo) : list string :=
  filter (λ k, (1 < length (paths_with k meta))%nat)
         (first_seen [] (map info_md5 meta)).

(** The columns of [meta] that duplicate detection reads. *)
Definition scan_key (m : AudioInfo) : string * string :=
  (info_path m, info_md5 m).

(** The export name of chunk [idx] out of [count]. *)
Definition part_suffix (count idx : nat) : string :=
  if (1 <? count)%nat then "_part" +:+ pretty idx else "".

Definition out_path_of (output_root base : string) (count idx : nat) : string :=
  OsPath.join output_root (base +:+ part_suffix count idx +:+ ".mp3").

(** The gain line of [process_file]. *)
Definition gain_for (measured_dbfs : float) : float :=
  PrimFloat.sub TARGET_RMS_DBFS measured_dbfs.

Section Pipeline.
Context `{AudioLib}.

(** A slice [audio[start:stop]], kept as the buffer and its clamped bounds. *)
Record Chunk := {
  chunk_audio : AudioSegment;
  chunk_start : Z;
  chunk_stop : Z
}.

Definition chunk_bounds (c : Chunk) : Z * Z := (chunk_start c, chunk_stop c).

(** What the scripts print, and what they write. *)
Inductive event :=
| CouldNotOpen (full : string)
| DuplicateSkipped (src : string)
| ChannelsConverted (src : string) (from to : Z)
| GainApplied (src : string) (gain : float)
| Saved (out_path : string) (chunk : Chunk).

Inductive exn :=
| DecodeError (src : string)
| ChannelConversionError (src : string)
| ValueError
| StopIteration
| SystemExit (code : Z)
| FileNotFoundError
| FileExistsError
| NotADirectoryError
| IsADirectoryError.

(** The errors of the operating system among them. *)
Definition is_os_error (e : exn) : bool :=
  match e with
  | FileNotFoundError | FileExistsError | NotADirectoryError
  | IsADirectoryError => true
  | _ => false
  end.

(** The state the scripts act on: the disk they write to (the regular
    files with their content and the directories, each named by its
    components from the root) and the console.  The disk has no symbolic
    link, and every directory may be written to; the root and the working
    directory with its ancestors are directories of every disk.  What the
    scripts read is given apart, as a [filesystem] below: a run that writes
    over a file it has yet to read is not covered. *)
Record state := {
  out_files : gmap (list string) Chunk;
  out_dirs : gset (list string);
  console : list event
}.

Definition initial : state :=
  {| out_files := ∅; out_dirs := ∅; console := [] |}.

(** [os.path.isdir] and [os.path.isfile], on a resolved path. *)
Definition is_dir (cwd : string) (s : state) (k : list string) : bool :=
  bool_decide (k `prefix_of` resolve cwd ".") || bool_decide (k ∈ out_dirs s).

Definition is_file (s : state) (k : list string) : bool :=
  bool_decide (k ∈ dom (out_files s)).

(** A computation either returns or raises; the state survives a raise. *)
Definition M (A : Type) : Type := state → (exn + A) * state.

Definition ret {A} (a : A) : M A := λ s, (inr a, s).

Definition bind {A B} (m : M A) (k : A → M B) : M B :=
  λ s, match m s with
       | (inl e, s') => (inl e, s')
       | (inr a, s') => k a s'
       end.

Definition raise {A} (e : exn) : M A := λ s, (inl e, s).

Definition print (ev : event) : M unit :=
  λ s, (inr (), {| out_files := out_files s; out_dirs := out_dirs s;
                   console := console s ++ [ev] |}).

(** [os.makedirs] goes down from the root through the components of the
    path, [cur] being the directory reached: a name that is a regular file
    stops it ([FileExistsError] when nothing follows, which [exist_ok] does
    not excuse, [NotADirectoryError] otherwise), a name that is missing is
    created as a directory, [".."] goes up. *)
Fixpoint makedirs_from (cwd : string) (cur rest : list string) : M unit :=
  match rest with
  | [] => ret ()
  | c :: rest' =>
      if String.eqb c "" || String.eqb c "." then makedirs_from cwd cur rest'
      else if String.eqb c ".." then makedirs_from cwd (removelast cur) rest'
      else
        λ s,
          let k := cur ++ [c] in
          if is_file s k then
            (inl (match rest' with
                  | [] => FileExistsError
                  | _ => NotADirectoryError
                  end), s)
          else
            makedirs_from cwd k rest'
              (if is_dir cwd s k then s
               else {| out_files := out_files s;
                       out_dirs := {[ k ]} ∪ out_dirs s;
                       console := console s |})
  end.

(** [os.makedirs(name, exist_ok=True)] *)
Definition makedirs (cwd name : string) : M unit :=
  if String.eqb name "" then raise FileNotFoundError
  else makedirs_from cwd [] (OsPath.components cwd name).

(** The directory a sequence of components leads to: each name on the way
    has to be a directory. *)
Fixpoint lookup_dir (cwd : string) (s : state) (cur rest : list string)
  : exn + list string :=
  match rest with
  | [] => inr cur
  | c :: rest' =>
      if String.eqb c "" || String.eqb c "." then lookup_dir cwd s cur rest'
      else if String.eqb c ".." then lookup_dir cwd s (removelast cur) rest'
      else
        let k := cur ++ [c] in
        if is_file s k then inl NotADirectoryError
        else if is_dir cwd s k then lookup_dir cwd s k rest'
        else inl FileNotFoundError
  end.

(** [chunk.export(out_path, ...)] and the [print] after it: the file is
    opened for writing, which needs its directory to exist and fails on a
    directory, and is created or replaced (the encoder is taken to
    succeed). *)
Definition export (cwd out_path : string) (chunk : Chunk) : M unit :=
  λ s,
    if String.eqb out_path "" then (inl FileNotFoundError, s)
    else
      let comps := OsPath.components cwd out_path in
      match lookup_dir cwd s [] (removelast comps) with
      | inl e => (inl e, s)
      | inr dir =>
          let k := dir ++ [List.last comps ""] in
          if negb (OsPath.is_name (List.last comps "")) || is_dir cwd s k
          then (inl IsADirectoryError, s)
          else
            (inr (), {| out_files := <[k := chunk]> (out_files s);
                        out_dirs := out_dirs s;
                        console := console s ++ [Saved out_path chunk] |})
      end.

#[export] Instance M_ret : MRet M := @ret.
#[export] Instance M_bind : MBind M := λ A B k m, bind m k.

(** [for x in xs: body(x)] *)
Fixpoint for_each {A} (xs : list A) (body : A → M unit) : M unit :=
  match xs with
  | [] => ret ()
  | x :: xs' => body x;; for_each xs' body
  end.

(** A loop that threads an accumulator. *)
Fixpoint fold_each {A B} (xs : list A) (acc : B) (body : B → A → M B) : M B :=
  match xs with
  | [] => ret acc
  | x :: xs' => acc' ← body acc x; fold_each xs' acc' body
  end.

(** [AudioSegment.from_file] reads the file system at the time of the call:
    [None] where decoding raises. *)
Definition filesystem : Type := string → option AudioSegment.

(** The body of the inner loop of [analyze_directory]. *)
Definition analyze_file (fs : filesystem) (dirpath : string)
    (meta : list AudioInfo) (fn : string) : M (list AudioInfo) :=
  if negb (Str.endswith_any (Str.lower fn) SUPPORTED_EXTS) then ret meta
  else
    let full := OsPath.join dirpath fn in
    match fs full with
    | None => print (CouldNotOpen full);; ret meta
    | Some audio =>
        ret (meta ++ [{| info_path := full;
                         info_duration := len audio;
                         info_channels := channels audio;
                         info_dBFS := dBFS audio;
                         info_md5 := md5_hexdigest (raw_data audio) |}])
    end.

(** [analyze_directory]; [walk] is what [os.walk(root_dir)] yields, the
    directories with their file names. *)
Definition analyze_directory (fs : filesystem)
    (walk : list (string * list string)) : M (list AudioInfo) :=
  fold_each walk []
    (λ meta entry, fold_each entry.2 meta (analyze_file fs entry.1)).

(** [split_into_chunks] *)
Definition split_into_chunks (chunk_ms : Z) (audio : AudioSegment)
  : list Chunk :=
  map (λ b, {| chunk_audio := audio; chunk_start := b.1; chunk_stop := b.2 |})
      (split_bounds chunk_ms (len audio)).

(** Step 1 of [process_file]. *)
Definition convert_channels (src : string) (info : AudioInfo) (target_ch : Z)
    (audio : AudioSegment) : M AudioSegment :=
  if negb (channels audio =? target_ch) then
    match set_channels audio target_ch with
    | None => raise (ChannelConversionError src)
    | Some audio' =>
        print (ChannelsConverted src (info_channels info) target_ch);;
        ret audio'
    end
  else ret audio.

(** Step 4 of [process_file]. *)
Definition export_chunks (cwd output_root base : string)
    (chunks : list Chunk) : M unit :=
  for_each (Py.enumerate chunks 1)
    (λ ic,
       let out_path := out_path_of output_root base (length chunks) ic.1 in
       makedirs cwd (OsPath.dirname out_path);;
       export cwd out_path ic.2).

(** [process_file] of [acx-fix-v1.py] and [acx-fix-v1b.py]; [chunk_ms] is
    the segment limit of the script, [fs] the file system it reads and [cwd]
    its working directory. *)
Definition process_file (chunk_ms : Z) (fs : filesystem) (cwd : string)
    (info : AudioInfo) (target_ch : Z) (skip_md5 : gset string)
    (input_root output_root : string) : M unit :=
  let src := info_path info in
  if is_skipped skip_md5 info then print (DuplicateSkipped src)
  else
    match fs src with
    | None => raise (DecodeError src)
    | Some audio =>
        audio ← convert_channels src info target_ch audio;
        let gain := gain_for (dBFS audio) in
        let audio := apply_gain audio gain in
        print (GainApplied src gain);;
        let chunks := split_into_chunks chunk_ms audio in
        match OsPath.relpath cwd src input_root with
        | None => raise ValueError
        | Some rel =>
            let base := (OsPath.splitext rel).1 in
            export_chunks cwd output_root base chunks
        end
    end.

(** The main block after the scan: duplicates, channel policy, processing. *)
Definition process_batch (chunk_ms : Z) (fs : filesystem) (cwd : string)
    (meta : list AudioInfo) (input_root output_root : string) : M unit :=
  let dup_groups := report_duplicates meta in
  match build_skip_md5 meta dup_groups with
  | None => raise StopIteration
  | Some skip_md5 =>
      let tgt_ch := decide_target_channels meta in
      for_each meta
        (λ info, process_file chunk_ms fs cwd info tgt_ch skip_md5
                              input_root output_root)
  end.

(** The main block.  The scan reads [scan_fs]; processing reads the files
    again, from the file system as it is by then, [proc_fs]. *)
Definition main (chunk_ms : Z) (walk : list (string * list string))
    (scan_fs proc_fs : filesystem) (cwd input_root output_root : string)
  : M unit :=
  meta ← analyze_directory scan_fs walk;
  match meta with
  | [] => raise (SystemExit 1)
  | _ => process_batch chunk_ms proc_fs cwd meta input_root output_root
  end.

(** The two scripts. *)
Definition acx_fix_v1 := main MAX_DURATION_MS.
Definition acx_fix_v1b := main CHUNK_SIZE_MS.

(** The splitting branch of [process_file] in [acx.py]. *)
Definition acx_segments (audio : AudioSegment) : list Chunk :=
  map (λ b, {| chunk_audio := audio; chunk_start := b.1; chunk_stop := b.2 |})
      (stride_bounds MAX_DURATION_MS (len audio)).

(** What one surviving file exports, in order: the pure content of steps 1
    to 4 of [process_file], given the decoded and converted buffer. *)
Definition exports_of (chunk_ms : Z) (output_root base : string)
    (audio : AudioSegment) : list (string * Chunk) :=
  let chunks :=
    split_into_chunks chunk_ms (apply_gain audio (gain_for (dBFS audio))) in
  map (λ ic, (out_path_of output_root base (length chunks) ic.1, ic.2))
      (Py.enumerate chunks 1).

(** The buffer [process_file] normalises: the file decoded, then converted
    to the target layout when its layout differs.  [None] where [from_file]
    or [set_channels] raises. *)
Definition prepared (fs : filesystem) (info : AudioInfo) (target_ch : Z)
  : option AudioSegment :=
  audio ← fs (info_path info);
  if negb (channels audio =? target_ch) then set_channels audio target_ch
  else Some audio.

(** The exports of one file that is not skipped; [None] where a step of
    [process_file] raises. *)
Definition file_exports (chunk_ms : Z) (fs : filesystem) (cwd : string)
    (info : AudioInfo) (target_ch : Z) (input_root output_root : string)
  : option (list (string * Chunk)) :=
  audio ← prepared fs info target_ch;
  rel ← OsPath.relpath cwd (info_path info) input_root;
  Some (exports_of chunk_ms output_root (OsPath.splitext rel).1 audio).

(** The exports of a batch, in the order they are written. *)
Definition batch_exports (chunk_ms : Z) (fs : filesystem) (cwd : string)
    (meta : list AudioInfo) (target_ch : Z) (skip_md5 : gset string)
    (input_root output_root : string) : list (string * Chunk) :=
  flat_map (λ info, default [] (file_exports chunk_ms fs cwd info target_ch
                                             input_root output_root))
           (survivors skip_md5 meta).

(** Writing a list of exports into a directory of files. *)
Definition write_all {K} `{!EqDecision K, !Countable K}
    (files : gmap K Chunk) (exps : list (K * Chunk)) : gmap K Chunk :=
  foldl (λ fs pc, <[pc.1 := pc.2]> fs) files exps.

(** The last chunk written to [p], if any. *)
Definition last_write {K} `{!EqDecision K} (p : K) (exps : list (K * Chunk))
  : option Chunk :=
  snd <$> last (filter (λ pc, pc.1 = p) exps).

(** Exports by resolved path. *)
Definition resolved (cwd : string) (exps : list (string * Chunk))
  : list (list string * Chunk) :=
  map (λ pc, (resolve cwd pc.1, pc.2)) exps.

(** The output paths [paths], written in this order from state [s], meet
    nothing that refuses them: each is of the ordinary form, is not a
    directory, has no regular file among its ancestors, and none of them
    lies below another. *)
Definition exports_fit (cwd : string) (s : state) (paths : list string)
  : Prop :=
  Forall (λ p,
            plain_path cwd p = true
            ∧ is_dir cwd s (resolve cwd p) = false
            ∧ ∀ a, a `prefix_of` resolve cwd p → a ≠ resolve cwd p →
                   a ∉ dom (out_files s))
         paths
  ∧ ∀ p q, p ∈ paths → q ∈ paths →
      resolve cwd p `prefix_of` resolve cwd q → resolve cwd p = resolve cwd q.

(** The same on a disk without files and directories other than the
    working directory and its ancestors, as a test. *)
Definition fits_empty_disk (cwd : string) (paths : list string) : bool :=
  forallb (λ p, plain_path cwd p
                && negb (bool_decide
                           (resolve cwd p `prefix_of` resolve cwd ".")))
          paths
  && forallb (λ p,
                forallb (λ q,
                           implb (bool_decide (resolve cwd p
                                               `prefix_of` resolve cwd q))
                                 (bool_decide (resolve cwd p = resolve cwd q)))
                        paths)
             paths.

(** What [process_file] prints about the channel conversion. *)
Definition conversion_events (info : AudioInfo) (target_ch : Z)
    (decoded : AudioSegment) : list event :=
  if negb (channels decoded =? target_ch)
  then [ChannelsConverted (info_path info) (info_channels info) target_ch]
  else [].

(** The scan, file by file: the record of a supported file that decodes,
    nothing for any other file. *)
Definition scan_file (fs : filesystem) (dirpath fn : string)
  : option AudioInfo :=
  if Str.endswith_any (Str.lower fn) SUPPORTED_EXTS then
    let full := OsPath.join dirpath fn in
    audio ← fs full;
    Some {| info_path := full;
            info_duration := len audio;
            info_channels := channels audio;
            info_dBFS := dBFS audio;
            info_md5 := md5_hexdigest (raw_data audio) |}
  else None.

Definition scanned (fs : filesystem) (walk : list (string * list string))
  : list AudioInfo :=
  flat_map (λ entry, omap (scan_file fs entry.1) entry.2) walk.

(** The paths of the files saved, as the console lists them. *)
Definition saved_paths (evs : list event) : list string :=
  omap (λ ev, match ev with Saved p _ => Some p | _ => None end) evs.

(** The gains applied, as the console lists them. *)
Definition gains_applied (evs : list event) : list (string * float) :=
  omap (λ ev, match ev with GainApplied src g => Some (src, g) | _ => None end)
       evs.

End Pipeline.
(** ** The other scripts

    [acx.py] processes a batch like [acx-fix-v1.py], with two differences in
    [process_file]: the file is decoded before the duplicate test, and the
    buffer is cut by the stride loop.  The Gradio front ends
    ([fix-with-gradiov1b.py], [fix-with-gradiov1c.py]) normalise and cut
    every uploaded file and collect the parts in a zip archive. *)

(** The milliseconds a list of segments holds. *)
Definition total_length (l : list (Z * Z)) : Z :=
  foldr (λ seg acc, (seg.2 - seg.1) + acc) 0 l.

(** [os.path.basename(p)] *)
Definition basename (p : string) : string :=
  Str.drop (Str.rfind p "/" + 1) p.

(** The name of part [idx] out of [count] in the Gradio scripts. *)
Definition gradio_out_name (base : string) (count idx : nat) : string :=
  base +:+ part_suffix count idx +:+ ".mp3".

(** The test [ext not in SUPPORTED_EXTS] of the Gradio scripts, negated. *)
Definition gradio_supported (path : string) : bool :=
  let ext := Str.lower (OsPath.splitext path).2 in
  existsb (String.eqb ext) SUPPORTED_EXTS.

Section Variants.
Context `{AudioLib}.

(** [process_file] of [acx.py]. *)
Definition acx_process_file (fs : filesystem) (cwd : string) (m : AudioInfo)
    (target_channels : Z) (out_root : string) (skip_hashes : gset string)
    (input_root : string) : M unit :=
  let src := info_path m in
  match fs src with
  | None => raise (DecodeError src)
  | Some audio =>
      if is_skipped skip_hashes m then print (DuplicateSkipped src)
      else
        audio ← convert_channels src m target_channels audio;
        let gain := gain_for (dBFS audio) in
        let audio := apply_gain audio gain in
        print (GainApplied src gain);;
        let segments := acx_segments audio in
        match OsPath.relpath cwd src input_root with
        | None => raise ValueError
        | Some rel_path =>
            let base := (OsPath.splitext rel_path).1 in
            export_chunks cwd out_root base segments
        end
  end.

(** The main block of [acx.py] after the scan. *)
Definition acx_process_batch (fs : filesystem) (cwd : string)
    (metadata : list AudioInfo) (input_root output_root : string) : M unit :=
  let dup_groups := report_duplicates metadata in
  match build_skip_md5 metadata dup_groups with
  | None => raise StopIteration
  | Some skip =>
      let tgt_ch := decide_target_channels metadata in
      for_each metadata
        (λ m, acx_process_file fs cwd m tgt_ch output_root skip input_root)
  end.

(** The main block of [acx.py]. *)
Definition acx_main (walk : list (string * list string))
    (scan_fs proc_fs : filesystem) (cwd input_root output_root : string)
  : M unit :=
  metadata ← analyze_directory scan_fs walk;
  match metadata with
  | [] => raise (SystemExit 1)
  | _ => acx_process_batch proc_fs cwd metadata input_root output_root
  end.

(** The state of a Gradio run: the files of the work directory and the
    entries of the zip archive, in the order they are written (an archive
    may hold several entries of one name).  The work directory is the fresh
    directory [tempfile.mkdtemp] returns and the names written to it hold
    no separator, so it stays flat: a map from paths to files. *)
Record gradio_state := {
  work_files : gmap string Chunk;
  zip_entries : list (string * Chunk)
}.

Definition gradio_initial : gradio_state :=
  {| work_files := ∅; zip_entries := [] |}.

(** [chunk.export(out_path, ...)] followed by
    [zf.write(out_path, arcname=out_name)]. *)
Definition gradio_export (work_dir out_name : string) (chunk : Chunk)
    (st : gradio_state) : gradio_state :=
  let out_path := OsPath.join work_dir out_name in
  {| work_files := <[out_path := chunk]> (work_files st);
     zip_entries := zip_entries st ++ [(out_name, chunk)] |}.

(** The chunks of one uploaded file, with their names. *)
Definition gradio_parts (path : string) (audio : AudioSegment)
  : list (string * Chunk) :=
  let gain := gain_for (dBFS audio) in
  let audio := apply_gain audio gain in
  let chunks := split_into_chunks CHUNK_SIZE_MS audio in
  let base := (OsPath.splitext (basename path)).1 in
  map (λ ic, (gradio_out_name base (length chunks) ic.1, ic.2))
      (Py.enumerate chunks 1).

(** The body of the loop of [process_files]; [inl] is the exception that
    leaves the loop. *)
Definition gradio_process_file (fs : filesystem) (work_dir : string)
    (st : gradio_state) (path : string) : exn + gradio_state :=
  if negb (gradio_supported path) then inr st
  else
    match fs path with
    | None => inl (DecodeError path)
    | Some audio =>
        inr (foldl (λ st nc, gradio_export work_dir nc.1 nc.2 st) st
                   (gradio_parts path audio))
    end.

(** [process_files] of the Gradio scripts: the state when the loop ends, and
    the exception if one was raised. *)
Fixpoint process_files (fs : filesystem) (work_dir : string)
    (file_paths : list string) (st : gradio_state)
  : option exn * gradio_state :=
  match file_paths with
  | [] => (None, st)
  | path :: file_paths' =>
      match gradio_process_file fs work_dir st path with
      | inl e => (Some e, st)
      | inr st' => process_files fs work_dir file_paths' st'
      end
  end.

(** The archive entries of a list of uploads that all decode: the parts of
    every supported file, in upload order. *)
Definition gradio_all_parts (fs : filesystem) (file_paths : list string)
  : list (string * Chunk) :=
  flat_map (λ path,
              if gradio_supported path then
                match fs path with
                | Some audio => gradio_parts path audio
                | None => []
                end
              else [])
           file_paths.

End Variants.

(** ** A concrete audio library

    A buffer reduced to what the pipeline observes: its length, channel
    count, loudness and raw bytes.  [set_channels] supports the layout
    changes pydub supports (to or from mono), [apply_gain] shifts the
    loudness, and the digest of the bytes is the bytes themselves (no
    collisions).  The example batches below run on it. *)

Module Simple.

Record audio := {
  s_len : N;
  s_channels : Z;
  s_dBFS : float;
  s_raw : string
}.

Definition s_set_channels (a : audio) (n : Z) : option audio :=
  if (s_channels a =? n) || (s_channels a =? 1) || (n =? 1)
  then Some {| s_len := s_len a; s_channels := n;
               s_dBFS := s_dBFS a; s_raw := s_raw a |}
  else None.

Definition s_apply_gain (a : audio) (g : float) : audio :=
  {| s_len := s_len a; s_channels := s_channels a;
     s_dBFS := PrimFloat.add (s_dBFS a) g; s_raw := s_raw a |}.

#[export] Program Instance lib : AudioLib := {|
  AudioSegment := audio;
  len a := Z.of_N (s_len a);
  channels := s_channels;
  dBFS := s_dBFS;
  raw_data := s_raw;
  set_channels := s_set_channels;
  apply_gain := s_apply_gain;
  md5_hexdigest raw := raw
|}.
Next Obligation. intros a. apply N2Z.is_nonneg. Qed.
Next Obligation.
  intros a n a'. unfold s_set_channels.
  destruct (_ || _); intros [= <-]; reflexivity.
Qed.
Next Obligation. reflexivity. Qed.

(** A file system given by its readable files. *)
Fixpoint files (l : list (string * audio)) (p : string) : option audio :=
  match l with
  | [] => None
  | (q, a) :: l' => if String.eqb q p then Some a else files l' p
  end.

Definition mono (ms : N) (db : float) (raw : string) : audio :=
  {| s_len := ms; s_channels := 1; s_dBFS := db; s_raw := raw |}.


Definition minutes (n : N) : N := (n * 60 * 1000)%N.

(** Three byte-identical files. *)
Definition triple_fs : filesystem :=
  files [("in/a.mp3", mono 1000 (-30)%float "PCM-1");
         ("in/b.mp3", mono 1000 (-30)%float "PCM-1");
         ("in/c.mp3", mono 1000 (-30)%float "PCM-1")].

Definition triple_walk : list (string * list string) :=
  [("in", ["a.mp3"; "b.mp3"; "c.mp3"])].

Definition triple_meta : list AudioInfo :=
  [{| info_path := "in/a.mp3"; info_duration := 1000; info_channels := 1;
      info_dBFS := (-30)%float; info_md5 := "PCM-1" |};
   {| info_path := "in/b.mp3"; info_duration := 1000; info_channels := 1;
      info_dBFS := (-30)%float; info_md5 := "PCM-1" |};
   {| info_path := "in/c.mp3"; info_duration := 1000; info_channels := 1;
      info_dBFS := (-30)%float; info_md5 := "PCM-1" |}].

(** A mono file, a stereo file with the same bytes, and an unrelated mono
    file. *)
Definition mixed_meta : list AudioInfo :=
  [{| info_path := "in/k.wav"; info_duration := 2000; info_channels := 1;
      info_dBFS := (-30)%float; info_md5 := "PCM-1" |};
   {| info_path := "in/d.wav"; info_duration := 1000; info_channels := 2;
      info_dBFS := (-30)%float; info_md5 := "PCM-1" |};
   {| info_path := "in/a.wav"; info_duration := 1000; info_channels := 1;
      info_dBFS := (-25)%float; info_md5 := "PCM-2" |}].



(** Two files; the first one can no longer be read when it is processed. *)
Definition pair_walk : list (string * list string) :=
  [("in", ["x.mp3"; "y.mp3"; "notes.txt"])].

Definition pair_scan_fs : filesystem :=
  files [("in/x.mp3", mono 1000 (-30)%float "PCM-x");
         ("in/y.mp3", mono 1000 (-25)%float "PCM-y")].

Definition pair_proc_fs : filesystem :=
  files [("in/y.mp3", mono 1000 (-25)%float "PCM-y")].

(** The same two files, the first one unreadable from the start. *)
Definition pair_bad_scan_fs : filesystem :=
  files [("in/y.mp3", mono 1000 (-25)%float "PCM-y")].

(** Two different recordings whose names differ in the extension only. *)
Definition clash_walk : list (string * list string) :=
  [("in", []); ("in/book", ["ch1.mp3"; "ch1.wav"])].

Definition clash_fs : filesystem :=
  files [("in/book/ch1.mp3", mono 1000 (-30)%float "PCM-mp3");
         ("in/book/ch1.wav", mono 2000 (-25)%float "PCM-wav")].

Definition clash_meta : list AudioInfo :=
  [{| info_path := "in/book/ch1.mp3"; info_duration := 1000;
      info_channels := 1; info_dBFS := (-30)%float; info_md5 := "PCM-mp3" |};
   {| info_path := "in/book/ch1.wav"; info_duration := 2000;
      info_channels := 1; info_dBFS := (-25)%float; info_md5 := "PCM-wav" |}].

(** A silent file. *)
Definition silent_walk : list (string * list string) :=
  [("in", ["silence.wav"])].

Definition silent_fs : filesystem :=
  files [("in/silence.wav", mono 1000 neg_infinity "PCM-0")].


(** A file already at the target loudness. *)
Definition level_fs : filesystem :=
  files [("in/level.wav", mono 1000 (-20)%float "PCM-l")].

Definition level_info : AudioInfo :=
  {| info_path := "in/level.wav"; info_duration := 1000;
     info_channels := 1; info_dBFS := (-20)%float; info_md5 := "PCM-l" |}.

(** A file of 150 minutes and a file of 30 minutes. *)
Definition long_walk : list (string * list string) :=
  [("in", ["long.wav"; "short.wav"])].

Definition long_fs : filesystem :=
  files [("in/long.wav", mono (minutes 150) (-30)%float "PCM-150");
         ("in/short.wav", mono (minutes 30) (-30)%float "PCM-30")].

Definition long_info : AudioInfo :=
  {| info_path := "in/long.wav"; info_duration := 9000000;
     info_channels := 1; info_dBFS := (-30)%float; info_md5 := "PCM-150" |}.

(** A recording whose name is nothing but the extension. *)
Definition dot_walk : list (string * list string) := [("in", [".wav"])].

Definition dot_fs : filesystem :=
  files [("in/.wav", mono 1000 (-30)%float "PCM-d")].

(** A recording [a.wav] beside a directory [a.mp3] that holds another
    recording. *)
Definition nested_walk : list (string * list string) :=
  [("in", ["a.wav"]); ("in/a.mp3", ["b.wav"])].

Definition nested_fs : filesystem :=
  files [("in/a.wav", mono 1000 (-30)%float "PCM-a");
         ("in/a.mp3/b.wav", mono 2000 (-25)%float "PCM-b")].

End Simple.

(** Further example data on the concrete audio library. *)
Module SimpleMore.

(** A directory without audio files. *)
Definition notes_walk : list (string * list string) :=
  [("in", ["notes.txt"; "cover.jpg"])].

(** An empty recording. *)
Definition empty_info : AudioInfo :=
  {| info_path := "in/empty.wav"; info_duration := 0; info_channels := 1;
     info_dBFS := neg_infinity; info_md5 := "" |}.

Definition empty_fs : @filesystem Simple.lib :=
  Simple.files [("in/empty.wav", Simple.mono 0 neg_infinity "")].

(** Two uploads with one base name. *)
Definition upload_fs : @filesystem Simple.lib :=
  Simple.files [("a/take.wav", Simple.mono 1000 (-30)%float "PCM-a");
                ("b/take.wav", Simple.mono 2000 (-25)%float "PCM-b")].

Definition pair_x_info : AudioInfo :=
  {| info_path := "in/x.mp3"; info_duration := 1000; info_channels := 1;
     info_dBFS := (-30)%float; info_md5 := "PCM-x" |}.

Definition pair_y_info : AudioInfo :=
  {| info_path := "in/y.mp3"; info_duration := 1000; info_channels := 1;
     info_dBFS := (-25)%float; info_md5 := "PCM-y" |}.

End SimpleMore.

(** ** Facts about the built-ins *)

Lemma min_spec a b : Py.min a b = Z.min a b.
Proof. unfold Py.min. destruct (Z.ltb_spec b a); lia. Qed.

Lemma ceil_div_bounds a b :
  0 < b → (Py.ceil_div a b - 1) * b < a ≤ Py.ceil_div a b * b.
Proof.
  intros Hb. unfold Py.ceil_div.
  pose proof (Z.div_mod (- a) b ltac:(lia)) as Hdm.
  pose proof (Z.mod_pos_bound (- a) b Hb) as Hm.
  nia.
Qed.

Lemma ceil_div_unique a b n : 0 < b → (n - 1) * b < a ≤ n * b → Py.ceil_div a b = n.
Proof.
  intros Hb Hn. pose proof (ceil_div_bounds a b Hb). nia.
Qed.

Lemma ceil_div_zero b : 0 < b → Py.ceil_div 0 b = 0.
Proof. intros. apply ceil_div_unique; lia. Qed.

Lemma ceil_div_pos a b : 0 < b → 0 < a → 0 < Py.ceil_div a b.
Proof. intros Hb Ha. pose proof (ceil_div_bounds a b Hb). nia. Qed.

Lemma ceil_div_small a b : 0 < a ≤ b → Py.ceil_div a b = 1.
Proof. intros. apply ceil_div_unique; lia. Qed.

Lemma ceil_div_step a b : 0 < b → Py.ceil_div (a + b) b = Py.ceil_div a b + 1.
Proof.
  intros Hb. apply ceil_div_unique; [done|].
  pose proof (ceil_div_bounds a b Hb). nia.
Qed.

Lemma ceil_div_nonpos a b : 0 < b → a ≤ 0 → Py.ceil_div a b ≤ 0.
Proof. intros Hb Ha. pose proof (ceil_div_bounds a b Hb). nia. Qed.

(** The loop of [range] never runs out of fuel: it yields the arithmetic
    progression of [ceil((stop - i) / step)] terms. *)
Lemma range_loop_closed step stop fuel i :
  0 < step → stop - i ≤ Z.of_nat fuel →
  Py.range_loop fuel i stop step =
  map (λ k : nat, i + Z.of_nat k * step)
      (seq 0 (Z.to_nat (Py.ceil_div (stop - i) step))).
Proof.
  intros Hstep. revert i. induction fuel as [|fuel IH]; intros i Hfuel; simpl.
  - pose proof (ceil_div_nonpos (stop - i) step Hstep ltac:(lia)).
    by replace (Z.to_nat _) with O by lia.
  - destruct (Z.ltb_spec i stop) as [Hlt|Hge].
    + rewrite IH by lia.
      assert (Py.ceil_div (stop - i) step
              = Py.ceil_div (stop - (i + step)) step + 1) as ->.
      { rewrite <- ceil_div_step by done. f_equal. lia. }
      pose proof (ceil_div_pos (stop - i) step Hstep ltac:(lia)) as Hpos.
      replace (stop - i) with ((stop - (i + step)) + step) in Hpos by lia.
      rewrite ceil_div_step in Hpos by done.
      replace (Z.to_nat (Py.ceil_div (stop - (i + step)) step + 1))
        with (S (Z.to_nat (Py.ceil_div (stop - (i + step)) step))) by lia.
      simpl. f_equal; [lia|].
      rewrite <- seq_shift, map_map. apply map_ext. intros k. lia.
    + pose proof (ceil_div_nonpos (stop - i) step Hstep ltac:(lia)).
      by replace (Z.to_nat _) with O by lia.
Qed.

Lemma range3_closed start stop step :
  0 < step →
  Py.range3 start stop step =
  map (λ k : nat, start + Z.of_nat k * step)
      (seq 0 (Z.to_nat (Py.ceil_div (stop - start) step))).
Proof. intros. unfold Py.range3. apply range_loop_closed; lia. Qed.

Lemma ceil_div_one n : Py.ceil_div n 1 = n.
Proof. apply ceil_div_unique; lia. Qed.

Lemma range_closed n : Py.range n = map Z.of_nat (seq 0 (Z.to_nat n)).
Proof.
  unfold Py.range. rewrite range3_closed by lia.
  rewrite Z.sub_0_r, ceil_div_one. apply map_ext. intros; lia.
Qed.

(** ** The segmenter *)

(** Inside [split_into_chunks] every slice lies within the buffer, so the
    clamping of the slice operator changes nothing. *)
Lemma split_bounds_closed chunk total :
  0 < chunk → 0 ≤ total →
  split_bounds chunk total =
  map (λ k : nat, (Z.of_nat k * chunk, Z.min ((Z.of_nat k + 1) * chunk) total))
      (seq 0 (Z.to_nat (Py.ceil_div total chunk))).
Proof.
  intros Hc Ht. unfold split_bounds. cbv zeta.
  rewrite range_closed, map_map. apply map_ext_in.
  intros k Hk%in_seq. unfold slice_bounds. rewrite !min_spec.
  pose proof (ceil_div_bounds total chunk Hc).
  f_equal; nia.
Qed.

Lemma split_bounds_length chunk total :
  0 < chunk → 0 ≤ total →
  length (split_bounds chunk total) = Z.to_nat (Py.ceil_div total chunk).
Proof.
  intros. rewrite split_bounds_closed by done.
  by rewrite length_map, length_seq.
Qed.

Lemma split_bounds_lookup chunk total (i : nat) seg :
  0 < chunk → 0 ≤ total →
  split_bounds chunk total !! i = Some seg ↔
  Z.of_nat i < Py.ceil_div total chunk
  ∧ seg = (Z.of_nat i * chunk, Z.min ((Z.of_nat i + 1) * chunk) total).
Proof.
  intros Hc Ht. rewrite split_bounds_closed by done.
  rewrite list_lookup_fmap. split.
  - destruct (seq _ _ !! i) as [k|] eqn:Hk; [|done].
    apply lookup_seq in Hk as [-> Hlt]. simpl. intros [= <-]. split; [lia|done].
  - intros [Hlt ->].
    rewrite (lookup_seq_lt 0 _ i) by lia. done.
Qed.

Lemma split_bounds_elem chunk total seg :
  0 < chunk → 0 ≤ total →
  seg ∈ split_bounds chunk total ↔
  ∃ i : nat, Z.of_nat i < Py.ceil_div total chunk
    ∧ seg = (Z.of_nat i * chunk, Z.min ((Z.of_nat i + 1) * chunk) total).
Proof.
  intros Hc Ht. rewrite list_elem_of_lookup.
  split; intros [i Hi]; exists i; by apply split_bounds_lookup.
Qed.

Lemma split_bounds_contiguous chunk total :
  0 < chunk → 0 ≤ total → contiguous (split_bounds chunk total).
Proof.
  intros Hc Ht i a b Ha Hb.
  apply split_bounds_lookup in Ha as [Hi ->]; [|done..].
  apply split_bounds_lookup in Hb as [Hj ->]; [|done..].
  pose proof (ceil_div_bounds total chunk Hc). simpl. nia.
Qed.

Lemma split_bounds_non_overlapping chunk total :
  0 < chunk → 0 ≤ total → non_overlapping (split_bounds chunk total).
Proof.
  intros Hc Ht i j a b Hij Ha Hb.
  apply split_bounds_lookup in Ha as [Hi ->]; [|done..].
  apply split_bounds_lookup in Hb as [Hj ->]; [|done..].
  simpl. nia.
Qed.

Lemma split_bounds_covers chunk total :
  0 < chunk → 0 ≤ total → covers total (split_bounds chunk total).
Proof.
  intros Hc Ht t. pose proof (ceil_div_bounds total chunk Hc) as Hn. split.
  - intros Hrange.
    pose proof (Z.div_mod t chunk ltac:(lia)) as Hdm.
    pose proof (Z.mod_pos_bound t chunk Hc) as Hm.
    assert (0 ≤ t / chunk) by (apply Z.div_pos; lia).
    exists (t / chunk * chunk, Z.min ((t / chunk + 1) * chunk) total). split.
    + apply split_bounds_elem; [done..|]. exists (Z.to_nat (t / chunk)).
      rewrite Z2Nat.id by done. split; [nia|done].
    + simpl. nia.
  - intros (seg & Hseg & Hin).
    apply split_bounds_elem in Hseg as (i & Hi & ->); [|done..].
    simpl in Hin. nia.
Qed.

Lemma split_bounds_bounded chunk total :
  0 < chunk → 0 ≤ total → bounded_by chunk (split_bounds chunk total).
Proof.
  intros Hc Ht. apply Forall_forall. intros seg Hseg.
  apply split_bounds_elem in Hseg as (i & Hi & ->); [|done..].
  pose proof (ceil_div_bounds total chunk Hc). simpl. nia.
Qed.

Lemma split_bounds_last chunk total :
  0 < chunk → 0 < total →
  ∃ start, last (split_bounds chunk total) = Some (start, total).
Proof.
  intros Hc Ht. pose proof (ceil_div_bounds total chunk Hc) as Hn.
  pose proof (ceil_div_pos total chunk Hc Ht) as Hpos.
  exists ((Py.ceil_div total chunk - 1) * chunk).
  rewrite last_lookup, split_bounds_length by lia.
  apply split_bounds_lookup; [lia..|]. split; [lia|].
  f_equal; [f_equal; lia | nia].
Qed.

Lemma split_bounds_single chunk total :
  0 < total ≤ chunk → split_bounds chunk total = [(0, total)].
Proof.
  intros Ht. rewrite split_bounds_closed, ceil_div_small by lia.
  simpl. f_equal. f_equal. lia.
Qed.

Lemma split_bounds_empty chunk : 0 < chunk → split_bounds chunk 0 = [].
Proof. intros. by rewrite split_bounds_closed, ceil_div_zero by lia. Qed.

(** C2, as stated, fails for an empty buffer: [0 <= CHUNK_SIZE_MS], yet
    [split_into_chunks] yields no segment at all, so there is neither
    exactly one segment nor a final segment ending at the duration. *)
Lemma segmenter_empty_buffer_no_segment :
  0 ≤ 0 ∧ 0 < CHUNK_SIZE_MS ∧ 0 ≤ CHUNK_SIZE_MS
  ∧ length (split_bounds CHUNK_SIZE_MS 0) ≠ 1%nat
  ∧ last (split_bounds CHUNK_SIZE_MS 0) = None.
Proof. vm_compute. repeat split; congruence. Qed.

(** C2 (amended): for every duration [total >= 0] and limit [chunk > 0] the
    segments of [split_into_chunks] are contiguous, non-overlapping, cover
    [[0, total)] exactly and are non-empty and at most [chunk] long; when
    [total > 0] the last one ends at [total] and there is exactly one
    segment if [total <= chunk]; when [total = 0] there is no segment. *)
Theorem segmenter_guarantees chunk total :
  0 < chunk → 0 ≤ total →
  contiguous (split_bounds chunk total)
  ∧ non_overlapping (split_bounds chunk total)
  ∧ covers total (split_bounds chunk total)
  ∧ bounded_by chunk (split_bounds chunk total)
  ∧ (0 < total → ∃ start, last (split_bounds chunk total) = Some (start, total))
  ∧ (0 < total ≤ chunk → split_bounds chunk total = [(0, total)])
  ∧ (total = 0 → split_bounds chunk total = []).
Proof.
  intros Hc Ht. split_and!.
  - by apply split_bounds_contiguous.
  - by apply split_bounds_non_overlapping.
  - by apply split_bounds_covers.
  - by apply split_bounds_bounded.
  - intros. by apply split_bounds_last.
  - apply split_bounds_single.
  - intros ->. by apply split_bounds_empty.
Qed.

Lemma segmenter_guarantees_witness :
  contiguous (split_bounds CHUNK_SIZE_MS 9000000)
  ∧ non_overlapping (split_bounds CHUNK_SIZE_MS 9000000)
  ∧ covers 9000000 (split_bounds CHUNK_SIZE_MS 9000000)
  ∧ bounded_by CHUNK_SIZE_MS (split_bounds CHUNK_SIZE_MS 9000000)
  ∧ (0 < 9000000 →
     ∃ start, last (split_bounds CHUNK_SIZE_MS 9000000) = Some (start, 9000000))
  ∧ (0 < 9000000 ≤ CHUNK_SIZE_MS →
     split_bounds CHUNK_SIZE_MS 9000000 = [(0, 9000000)])
  ∧ (9000000 = 0 → split_bounds CHUNK_SIZE_MS 9000000 = []).
Proof.
  apply (segmenter_guarantees CHUNK_SIZE_MS 9000000); vm_compute; congruence.
Defined.

(** ** The two splitters agree on non-empty buffers *)

Lemma stride_bounds_closed chunk total :
  0 < chunk → chunk < total →
  stride_bounds chunk total =
  map (λ k : nat, (Z.of_nat k * chunk, Z.min ((Z.of_nat k + 1) * chunk) total))
      (seq 0 (Z.to_nat (Py.ceil_div total chunk))).
Proof.
  intros Hc Ht. unfold stride_bounds.
  destruct (Z.gtb_spec total chunk) as [_|]; [|lia].
  rewrite range3_closed, map_map, Z.sub_0_r by done.
  apply map_ext_in. intros k Hk%in_seq.
  unfold slice_bounds. rewrite !min_spec.
  pose proof (ceil_div_bounds total chunk Hc).
  f_equal; nia.
Qed.

(** C10: for every duration [total > 0] and chunk size [chunk > 0], the
    ceil-count loop of [split_into_chunks] and the conditional stride loop
    of [acx.py] yield the same ordered list of segment boundaries. *)
Theorem splitters_agree chunk total :
  0 < total → 0 < chunk → stride_bounds chunk total = split_bounds chunk total.
Proof.
  intros Ht Hc. destruct (Z.lt_ge_cases chunk total) as [Hlong|Hshort].
  - rewrite stride_bounds_closed, split_bounds_closed by lia. done.
  - rewrite split_bounds_single by lia. unfold stride_bounds.
    by destruct (Z.gtb_spec total chunk) as [|_]; [lia|].
Qed.

Lemma splitters_agree_witness :
  stride_bounds MAX_DURATION_MS 15000000 = split_bounds MAX_DURATION_MS 15000000.
Proof. apply (splitters_agree MAX_DURATION_MS 15000000); reflexivity. Defined.

(** At duration 0 they differ: the stride loop keeps the (empty) buffer as
    one segment, the ceil-count loop yields nothing. *)
Example splitters_differ_at_zero :
  stride_bounds MAX_DURATION_MS 0 = [(0, 0)] ∧ split_bounds MAX_DURATION_MS 0 = [].
Proof. split; reflexivity. Qed.

(** ** Grouping by digest *)

Lemma first_seen_elem seen keys k :
  k ∈ first_seen seen keys ↔ k ∈ keys ∧ k ∉ seen.
Proof.
  revert seen. induction keys as [|k' keys IH]; intros seen; simpl.
  - rewrite elem_of_nil. tauto.
  - case_bool_decide as Hk'.
    + rewrite IH, elem_of_cons. split; [tauto|].
      intros [[->|?] ?]; tauto.
    + rewrite !elem_of_cons, IH, not_elem_of_cons.
      destruct (decide (k = k')) as [->|]; tauto.
Qed.

Lemma first_seen_NoDup seen keys : NoDup (first_seen seen keys).
Proof.
  revert seen. induction keys as [|k keys IH]; intros seen; simpl.
  - constructor.
  - case_bool_decide; [done|]. constructor; [|done].
    rewrite first_seen_elem, not_elem_of_cons. tauto.
Qed.

Lemma first_seen_snoc seen keys k :
  first_seen seen (keys ++ [k]) =
  first_seen seen keys ++ (if bool_decide (k ∈ seen ∨ k ∈ keys) then [] else [k]).
Proof.
  revert seen. induction keys as [|k' keys IH]; intros seen; simpl.
  - destruct (decide (k ∈ seen)) as [Hin|Hout].
    + rewrite !bool_decide_true; [done|by left|done].
    + rewrite !bool_decide_false; [done| |done].
      intros [?|?%elem_of_nil]; done.
  - assert (∀ s, bool_decide (k ∈ k' :: s ∨ k ∈ keys)
                 = bool_decide (k ∈ s ∨ k ∈ k' :: keys)) as Hswap.
    { intros s. apply bool_decide_ext. rewrite !elem_of_cons. tauto. }
    case_bool_decide as Hk'.
    + rewrite IH. f_equal.
      assert (bool_decide (k ∈ seen ∨ k ∈ keys)
              = bool_decide (k ∈ seen ∨ k ∈ k' :: keys)) as ->; [|done].
      apply bool_decide_ext.
      rewrite elem_of_cons. split; [tauto|]. intros [?|[->|?]]; tauto.
    + rewrite IH. simpl. by rewrite Hswap.
Qed.

Lemma paths_with_snoc k meta m :
  paths_with k (meta ++ [m]) =
  paths_with k meta ++ (if String.eqb (info_md5 m) k then [info_path m] else []).
Proof.
  unfold paths_with. rewrite List.filter_app, map_app. simpl.
  by destruct (String.eqb _ _).
Qed.

Lemma paths_with_nil k meta :
  k ∉ map info_md5 meta → paths_with k meta = [].
Proof.
  unfold paths_with. induction meta as [|m meta IH]; simpl; [done|].
  intros Hk. apply not_elem_of_cons in Hk as [Hne Hk].
  destruct (String.eqb_spec (info_md5 m) k); [congruence|]. by apply IH.
Qed.

Lemma paths_with_elem k meta p :
  p ∈ paths_with k meta ↔ ∃ m, m ∈ meta ∧ info_md5 m = k ∧ info_path m = p.
Proof.
  unfold paths_with. rewrite list_elem_of_fmap. split.
  - intros (m & -> & Hm). apply list_elem_of_In, filter_In in Hm as [Hm Hk].
    exists m. apply list_elem_of_In in Hm. by apply String.eqb_eq in Hk.
  - intros (m & Hm & Hk & Hp). exists m. split; [done|].
    apply list_elem_of_In, filter_In. split; [by apply list_elem_of_In|].
    by apply String.eqb_eq.
Qed.

(** Appending to the dict, when the dict is given by a function on its
    (distinct) keys. *)
Lemma dd_append_map (f : string → list string) ks k v :
  NoDup ks →
  dd_append (map (λ k', (k', f k')) ks) k v =
  map (λ k', (k', if String.eqb k' k then f k' ++ [v] else f k')) ks
  ++ (if bool_decide (k ∈ ks) then [] else [(k, [v])]).
Proof.
  induction 1 as [|k0 ks Hk0 Hnd IH]; simpl; [done|].
  destruct (String.eqb_spec k0 k) as [->|Hne].
  - rewrite bool_decide_true by set_solver. rewrite app_nil_r. f_equal.
    apply map_ext_in. intros k1 Hk1%list_elem_of_In.
    destruct (String.eqb_spec k1 k); [congruence|done].
  - rewrite IH. f_equal. f_equal.
    repeat case_bool_decide; set_solver.
Qed.

Lemma group_by_md5_snoc meta m :
  group_by_md5 (meta ++ [m]) =
  dd_append (group_by_md5 meta) (info_md5 m) (info_path m).
Proof. unfold group_by_md5. by rewrite foldl_app. Qed.

(** The dict of [report_duplicates]: one entry per digest, in first-seen
    order, holding the paths with that digest in scan order. *)
Lemma group_by_md5_spec meta :
  group_by_md5 meta =
  map (λ k, (k, paths_with k meta)) (first_seen [] (map info_md5 meta)).
Proof.
  induction meta as [|m meta IH] using rev_ind; [done|].
  rewrite group_by_md5_snoc, IH, map_app.
  change (map info_md5 [m]) with [info_md5 m]. rewrite first_seen_snoc.
  rewrite (dd_append_map (λ k, paths_with k meta)) by apply first_seen_NoDup.
  rewrite map_app. f_equal.
  - apply map_ext. intros k. rewrite paths_with_snoc.
    rewrite (String.eqb_sym k). destruct (String.eqb _ _); [done|].
    by rewrite app_nil_r.
  - destruct (decide (info_md5 m ∈ map info_md5 meta)) as [Hin|Hout].
    + assert (info_md5 m ∈ [] ∨ info_md5 m ∈ map info_md5 meta) as H1
        by (by right).
      assert (info_md5 m ∈ first_seen [] (map info_md5 meta)) as H2.
      { apply first_seen_elem. split; [done|apply not_elem_of_nil]. }
      by rewrite (bool_decide_true _ H1), (bool_decide_true _ H2).
    + assert (¬ (info_md5 m ∈ [] ∨ info_md5 m ∈ map info_md5 meta)) as H1.
      { intros [?%elem_of_nil|?]; done. }
      assert (info_md5 m ∉ first_seen [] (map info_md5 meta)) as H2.
      { rewrite first_seen_elem. tauto. }
      rewrite (bool_decide_false _ H1), (bool_decide_false _ H2). simpl.
      by rewrite paths_with_snoc, String.eqb_refl, paths_with_nil.
Qed.

Lemma report_duplicates_spec meta :
  report_duplicates meta = map (λ k, paths_with k meta) (duplicated_keys meta).
Proof.
  unfold report_duplicates, duplicated_keys.
  rewrite group_by_md5_spec, map_map. simpl.
  induction (first_seen [] (map info_md5 meta)) as [|k ks IH]; [done|].
  simpl. rewrite !filter_cons.
  destruct (decide (1 < length (paths_with k meta))%nat); simpl; by rewrite IH.
Qed.

Lemma duplicated_keys_elem meta k :
  k ∈ duplicated_keys meta ↔ (1 < length (paths_with k meta))%nat.
Proof.
  unfold duplicated_keys. rewrite list_elem_of_filter, first_seen_elem.
  split; [tauto|]. intros Hlen. split; [done|]. split; [|set_solver].
  destruct (decide (k ∈ map info_md5 meta)) as [|Hnot]; [done|].
  rewrite paths_with_nil in Hlen by done. simpl in Hlen. lia.
Qed.

(** ** The skip set *)

(** Paths are unique in [meta] (they come from one directory walk), so the
    lookup by path finds the record itself. *)
Lemma md5_of_path_unique meta m :
  NoDup (map info_path meta) → m ∈ meta →
  md5_of_path meta (info_path m) = Some (info_md5 m).
Proof.
  unfold md5_of_path. induction meta as [|m0 meta IH]; simpl.
  - intros _ []%elem_of_nil.
  - intros [Hnotin Hnd]%NoDup_cons [->|Hin]%elem_of_cons.
    + by rewrite String.eqb_refl.
    + destruct (String.eqb_spec (info_path m0) (info_path m)) as [Heq|_].
      * exfalso. apply Hnotin. rewrite Heq. by apply list_elem_of_fmap_2.
      * by apply IH.
Qed.

Lemma md5_of_path_group meta k p :
  NoDup (map info_path meta) → p ∈ paths_with k meta →
  md5_of_path meta p = Some k.
Proof.
  intros Hnd (m & Hm & <- & <-)%paths_with_elem.
  by apply md5_of_path_unique.
Qed.

Lemma skip_paths_spec meta k ps (s : gset string) :
  (∀ p, p ∈ ps → md5_of_path meta p = Some k) →
  foldl (λ acc dup_path,
           skip ← acc; h ← md5_of_path meta dup_path; Some ({[ h ]} ∪ skip))
        (Some s) ps
  = Some (match ps with [] => s | _ => {[ k ]} ∪ s end).
Proof.
  revert s. induction ps as [|p ps IH]; intros s Hps; simpl; [done|].
  rewrite (Hps p) by apply list_elem_of_here. simpl.
  rewrite IH by (intros; apply Hps; by apply list_elem_of_further).
  destruct ps; [done|]. f_equal. set_solver.
Qed.

Lemma skip_groups_spec meta ks (s : gset string) :
  NoDup (map info_path meta) →
  (∀ k, k ∈ ks → (1 < length (paths_with k meta))%nat) →
  foldl (skip_group meta) (Some s) (map (λ k, paths_with k meta) ks)
  = Some (list_to_set ks ∪ s).
Proof.
  intros Hnd. revert s. induction ks as [|k ks IH]; intros s Hks; simpl.
  - f_equal. set_solver.
  - unfold skip_group at 2.
    rewrite (skip_paths_spec meta k).
    + assert (1 < length (paths_with k meta))%nat as Hlen
        by apply Hks, list_elem_of_here.
      destruct (paths_with k meta) as [|p0 [|p1 ps]]; simpl in Hlen; try lia.
      simpl. rewrite IH by (intros; apply Hks; by apply list_elem_of_further).
      f_equal. set_solver.
    + intros p Hp. apply md5_of_path_group; [done|].
      destruct (paths_with k meta); [done|]. by apply list_elem_of_further.
Qed.

(** The set built by the main block never raises [StopIteration]; it holds
    the digests carried by two or more records. *)
Lemma build_skip_md5_spec meta :
  NoDup (map info_path meta) →
  build_skip_md5 meta (report_duplicates meta)
  = Some (list_to_set (duplicated_keys meta)).
Proof.
  intros Hnd. unfold build_skip_md5.
  rewrite report_duplicates_spec, skip_groups_spec; [|done|].
  - f_equal. set_solver.
  - intros k. by rewrite duplicated_keys_elem.
Qed.

Lemma is_skipped_spec meta m :
  is_skipped (list_to_set (duplicated_keys meta)) m = true
  ↔ (1 < length (paths_with (info_md5 m) meta))%nat.
Proof.
  unfold is_skipped. rewrite bool_decide_eq_true, elem_of_list_to_set.
  apply duplicated_keys_elem.
Qed.

Lemma two_paths_length k meta p q :
  p ∈ paths_with k meta → q ∈ paths_with k meta → p ≠ q →
  (1 < length (paths_with k meta))%nat.
Proof.
  destruct (paths_with k meta) as [|x [|y l]]; simpl.
  - by intros ?%elem_of_nil.
  - intros ->%list_elem_of_singleton ->%list_elem_of_singleton. done.
  - lia.
Qed.

(** The defect behind C1: [skip_md5] holds digests, and the first record of
    a group carries the digest of the group, so every record that shares its
    digest with another one is skipped, the first included. *)
Lemma duplicate_group_all_skipped meta skip_md5 m1 m2 :
  NoDup (map info_path meta) →
  build_skip_md5 meta (report_duplicates meta) = Some skip_md5 →
  m1 ∈ meta → m2 ∈ meta →
  info_path m1 ≠ info_path m2 → info_md5 m1 = info_md5 m2 →
  is_skipped skip_md5 m1 = true ∧ is_skipped skip_md5 m2 = true.
Proof.
  intros Hnd Hskip H1 H2 Hpath Hmd5.
  rewrite build_skip_md5_spec in Hskip by done. injection Hskip as <-.
  rewrite !is_skipped_spec. rewrite <- Hmd5.
  split; apply (two_paths_length _ _ (info_path m1) (info_path m2));
    try done; apply paths_with_elem; eauto.
Qed.

(** ** Duplicate resolution reads the path and digest columns only *)

Lemma group_by_md5_keys meta :
  group_by_md5 meta =
  foldl (λ dups kv, dd_append dups kv.2 kv.1) [] (map scan_key meta).
Proof.
  unfold group_by_md5. generalize (@nil (string * list string)) as dups.
  induction meta as [|m meta IH]; intros dups; simpl; [done|]. apply IH.
Qed.

Lemma md5_of_path_keys meta p :
  md5_of_path meta p =
  snd <$> List.find (λ kv, String.eqb kv.1 p) (map scan_key meta).
Proof.
  unfold md5_of_path. induction meta as [|m meta IH]; simpl; [done|].
  by destruct (String.eqb _ _).
Qed.

Lemma build_skip_md5_ext meta1 meta2 groups :
  (∀ p, md5_of_path meta1 p = md5_of_path meta2 p) →
  build_skip_md5 meta1 groups = build_skip_md5 meta2 groups.
Proof.
  intros Hext. unfold build_skip_md5. generalize (Some (∅ : gset string)) as acc.
  induction groups as [|grp groups IH]; intros acc; simpl; [done|].
  rewrite <- IH. f_equal. unfold skip_group. clear IH.
  revert acc. induction (tail grp) as [|p ps IHp]; intros acc; simpl; [done|].
  by rewrite Hext, IHp.
Qed.

Lemma survivors_paths_keys skip meta :
  map info_path (survivors skip meta) =
  map fst (List.filter (λ kv, negb (bool_decide (kv.2 ∈ skip)))
                       (map scan_key meta)).
Proof.
  unfold survivors, is_skipped. induction meta as [|m meta IH]; simpl; [done|].
  destruct (bool_decide _); simpl; by rewrite IH.
Qed.

(** C8: duplicate resolution is deterministic.  Two scans that list the same
    paths with the same digests in the same order get the same groups (one
    per duplicated digest in first-seen order, its paths in scan order), the
    same skip set, and the same kept/skipped partition. *)
Theorem duplicate_resolution_deterministic meta1 meta2 :
  map scan_key meta1 = map scan_key meta2 →
  report_duplicates meta1 = report_duplicates meta2
  ∧ report_duplicates meta1
    = map (λ k, paths_with k meta1) (duplicated_keys meta1)
  ∧ build_skip_md5 meta1 (report_duplicates meta1)
    = build_skip_md5 meta2 (report_duplicates meta2)
  ∧ ∀ skip_md5,
      map (is_skipped skip_md5) meta1 = map (is_skipped skip_md5) meta2
      ∧ map info_path (survivors skip_md5 meta1)
        = map info_path (survivors skip_md5 meta2).
Proof.
  intros Hkeys.
  assert (report_duplicates meta1 = report_duplicates meta2) as Hgroups.
  { unfold report_duplicates. by rewrite !group_by_md5_keys, Hkeys. }
  split_and!; [done|apply report_duplicates_spec| |].
  - rewrite Hgroups. apply build_skip_md5_ext.
    intros p. by rewrite !md5_of_path_keys, Hkeys.
  - intros skip. split.
    + assert (∀ meta, map (is_skipped skip) meta
                = map (λ kv, bool_decide (kv.2 ∈ skip)) (map scan_key meta))
        as Hfactor by (intros; by rewrite map_map).
      by rewrite !Hfactor, Hkeys.
    + by rewrite !survivors_paths_keys, Hkeys.
Qed.

Lemma duplicate_resolution_deterministic_witness :
  report_duplicates Simple.mixed_meta = report_duplicates Simple.mixed_meta
  ∧ report_duplicates Simple.mixed_meta
    = map (λ k, paths_with k Simple.mixed_meta)
          (duplicated_keys Simple.mixed_meta)
  ∧ build_skip_md5 Simple.mixed_meta (report_duplicates Simple.mixed_meta)
    = build_skip_md5 Simple.mixed_meta (report_duplicates Simple.mixed_meta)
  ∧ ∀ skip_md5,
      map (is_skipped skip_md5) Simple.mixed_meta
      = map (is_skipped skip_md5) Simple.mixed_meta
      ∧ map info_path (survivors skip_md5 Simple.mixed_meta)
        = map info_path (survivors skip_md5 Simple.mixed_meta).
Proof.
  apply (duplicate_resolution_deterministic Simple.mixed_meta Simple.mixed_meta).
  reflexivity.
Defined.

(** ** Channel policy *)





(** ** Duplicates: the run on three identical files *)

(** C1 at the failing input: the scan lists the three files as one group;
    all three are skipped, the first included, and nothing is exported. *)
Theorem triple_group_all_skipped :
  (analyze_directory Simple.triple_fs Simple.triple_walk initial).1
  = inr Simple.triple_meta
  ∧ report_duplicates Simple.triple_meta
    = [["in/a.mp3"; "in/b.mp3"; "in/c.mp3"]]
  ∧ build_skip_md5 Simple.triple_meta (report_duplicates Simple.triple_meta)
    = Some {[ "PCM-1" ]}
  ∧ survivors {[ "PCM-1" ]} Simple.triple_meta = []
  ∧ acx_fix_v1 Simple.triple_walk Simple.triple_fs Simple.triple_fs
               "/home/u" "in" "out" initial
    = (inr (), {| out_files := ∅; out_dirs := ∅;
                  console := [DuplicateSkipped "in/a.mp3";
                              DuplicateSkipped "in/b.mp3";
                              DuplicateSkipped "in/c.mp3"] |}).
Proof. split_and!; vm_compute; reflexivity. Qed.

(** ** Splitting off the extension *)

Lemma substring_all s : String.substring 0 (String.length s) s = s.
Proof. induction s as [|c s IH]; simpl; [done|]. by rewrite IH. Qed.

Lemma substring_take_drop (k : nat) s :
  String.substring 0 k s +:+ String.substring k (String.length s - k) s = s.
Proof.
  revert s. induction k as [|k IH]; intros s.
  - rewrite Nat.sub_0_r, substring_all. by destruct s.
  - destruct s as [|c s]; simpl; [done|].
    change (String c (String.substring 0 k s)
            +:+ String.substring k (String.length s - k) s)
      with (String c (String.substring 0 k s
                      +:+ String.substring k (String.length s - k) s)).
    by rewrite IH.
Qed.

(** [splitext] cuts the path in two: base and extension. *)
Lemma splitext_join p : (OsPath.splitext p).1 +:+ (OsPath.splitext p).2 = p.
Proof.
  unfold OsPath.splitext. destruct (_ && _); simpl.
  - apply substring_take_drop.
  - induction p as [|c p IH]; [done|].
    change (String c p +:+ "") with (String c (p +:+ "")). by rewrite IH.
Qed.

Example splitext_examples :
  OsPath.splitext "book/ch1.wav" = ("book/ch1", ".wav")
  ∧ OsPath.splitext "book.v2/ch1" = ("book.v2/ch1", "")
  ∧ OsPath.splitext "book/.hidden" = ("book/.hidden", "")
  ∧ OsPath.splitext "a.tar.mp3" = ("a.tar", ".mp3").
Proof. repeat split; reflexivity. Qed.

Example relpath_examples :
  OsPath.relpath "/home/u" "in/book/ch1.wav" "in" = Some "book/ch1.wav"
  ∧ OsPath.relpath "/home/u" "/data/in/ch1.mp3" "/data/in/" = Some "ch1.mp3"
  ∧ OsPath.relpath "/home/u" "" "in" = None.
Proof. repeat split; reflexivity. Qed.

(** [rfind] returns the last occurrence. *)
Lemma rfind_from_spec c s i r :
  Str.rfind_from c s i = r → 0 ≤ i →
  (∀ k : nat, r < i + Z.of_nat k → String.get k s ≠ Some c)
  ∧ (r = -1 ∨ (i ≤ r ∧ String.get (Z.to_nat (r - i)) s = Some c)).
Proof.
  revert i r. induction s as [|a s IH]; intros i r Hr Hi; simpl in *.
  - subst r. split; [done|by left].
  - destruct (IH (i + 1) _ eq_refl ltac:(lia)) as [Hlast Hfound].
    destruct (Z.leb_spec 0 (Str.rfind_from c s (i + 1))) as [Hpos|Hneg].
    + subst r. destruct Hfound as [?|[Hle Hget]]; [lia|]. split.
      * intros [|k] Hk; [lia|]. apply Hlast. lia.
      * right. split; [lia|].
        replace (Z.to_nat (Str.rfind_from c s (i + 1) - i))
          with (S (Z.to_nat (Str.rfind_from c s (i + 1) - (i + 1)))) by lia.
        done.
    + destruct (Ascii.eqb_spec a c) as [->|Hne]; subst r.
      * split.
        -- intros [|k] Hk; [lia|]. apply Hlast. lia.
        -- right. split; [lia|]. by rewrite Z.sub_diag.
      * split; [|by left].
        intros [|k] Hk; [congruence|]. apply Hlast. lia.
Qed.

Lemma get_out_of_range s (n : nat) :
  (String.length s ≤ n)%nat → String.get n s = None.
Proof.
  revert n. induction s as [|a s IH]; intros n Hn.
  - by destruct n.
  - destruct n; simpl in *; [lia|]. apply IH. lia.
Qed.

(** The extension [splitext] finds is empty, or a dot followed by characters
    that are neither dots nor separators. *)
Lemma splitext_ext p :
  (OsPath.splitext p).2 = ""
  ∨ (String.get 0 (OsPath.splitext p).2 = Some "."%char
     ∧ ∀ k : nat, (0 < k)%nat →
         String.get k (OsPath.splitext p).2 ≠ Some "."%char
         ∧ String.get k (OsPath.splitext p).2 ≠ Some "/"%char).
Proof.
  unfold OsPath.splitext, Str.rfind.
  destruct (rfind_from_spec "/" p 0 _ eq_refl ltac:(lia))
    as [Hsep_last Hsep_found].
  destruct (rfind_from_spec "." p 0 _ eq_refl ltac:(lia))
    as [Hdot_last Hdot_found].
  destruct (Z.ltb_spec (Str.rfind_from "/" p 0) (Str.rfind_from "." p 0))
    as [Hlt|]; [|by left].
  destruct (OsPath.splitext_scan _ _ _ _); [|by left]. simpl.
  destruct Hdot_found as [Hnone|[Hge Hget]].
  { destruct Hsep_found as [?|[? _]]; lia. }
  right. unfold Str.drop. rewrite Z.sub_0_r in Hget.
  set (d := Z.to_nat (Str.rfind_from "." p 0)) in *.
  assert (d < String.length p)%nat as Hd.
  { destruct (Nat.lt_ge_cases d (String.length p)) as [|Hout]; [done|].
    pose proof (get_out_of_range p d Hout). congruence. }
  split.
  - rewrite String.substring_correct1 by lia. done.
  - intros k Hk.
    destruct (Nat.lt_ge_cases k (String.length p - d)) as [Hin|Hout].
    + rewrite String.substring_correct1 by done. split.
      * apply Hdot_last. lia.
      * apply Hsep_last. lia.
    + rewrite String.substring_correct2 by done. done.
Qed.

(** ** More on the segmenter: the durations add up *)

Lemma total_length_snoc l seg :
  total_length (l ++ [seg]) = total_length l + (seg.2 - seg.1).
Proof.
  unfold total_length. induction l as [|x l IH]; simpl; [lia|].
  rewrite IH. lia.
Qed.

Lemma total_length_prefix chunk total (n m : nat) :
  0 < chunk → 0 ≤ total → (Z.of_nat n - 1) * chunk < total → (m ≤ n)%nat →
  total_length
    (map (λ k : nat, (Z.of_nat k * chunk,
                      Z.min ((Z.of_nat k + 1) * chunk) total))
         (seq 0 m))
  = Z.min (Z.of_nat m * chunk) total.
Proof.
  intros Hc Ht Hn. induction m as [|m IH]; intros Hm.
  - unfold total_length. simpl. lia.
  - rewrite seq_S, map_app. cbn [map].
    rewrite total_length_snoc, IH by lia. cbn [fst snd]. nia.
Qed.

(** The segments of either splitter hold exactly the milliseconds of the
    buffer: nothing is dropped and nothing is exported twice. *)
Theorem segments_add_up chunk total :
  0 < chunk → 0 ≤ total →
  total_length (split_bounds chunk total) = total
  ∧ total_length (stride_bounds chunk total) = total.
Proof.
  intros Hc Ht.
  pose proof (ceil_div_bounds total chunk Hc) as Hn.
  assert (0 ≤ Py.ceil_div total chunk) as Hpos.
  { destruct (Z.eq_dec total 0) as [->|]; [by rewrite ceil_div_zero|].
    pose proof (ceil_div_pos total chunk Hc ltac:(lia)). lia. }
  assert (total_length
            (map (λ k : nat, (Z.of_nat k * chunk,
                              Z.min ((Z.of_nat k + 1) * chunk) total))
                 (seq 0 (Z.to_nat (Py.ceil_div total chunk)))) = total)
    as Hsum.
  { rewrite (total_length_prefix chunk total (Z.to_nat (Py.ceil_div total chunk)))
      by lia.
    nia. }
  split.
  - by rewrite split_bounds_closed.
  - destruct (Z.lt_ge_cases chunk total) as [Hlong|Hshort].
    + by rewrite stride_bounds_closed.
    + unfold stride_bounds.
      destruct (Z.gtb_spec total chunk) as [|_]; [lia|].
      unfold total_length. simpl. lia.
Qed.

Lemma segments_add_up_witness :
  total_length (split_bounds CHUNK_SIZE_MS 9000000) = 9000000
  ∧ total_length (stride_bounds CHUNK_SIZE_MS 9000000) = 9000000.
Proof. apply (segments_add_up CHUNK_SIZE_MS 9000000); [reflexivity|lia]. Defined.

(** ** More on grouping *)

Lemma dd_append_paths dups k v :
  concat (map snd (dd_append dups k v)) ≡ₚ concat (map snd dups) ++ [v].
Proof.
  induction dups as [|[k' vs] dups IH]; simpl; [done|].
  destruct (String.eqb k' k); simpl.
  - rewrite <- !app_assoc. f_equiv. apply Permutation_app_comm.
  - rewrite IH. by rewrite app_assoc.
Qed.

Lemma group_by_md5_paths meta :
  concat (map snd (group_by_md5 meta)) ≡ₚ map info_path meta.
Proof.
  induction meta as [|m meta IH] using rev_ind; [done|].
  rewrite group_by_md5_snoc, dd_append_paths, IH, map_app. done.
Qed.

(** The dict [dups] of [report_duplicates] is a partition of the scan by
    digest: every path is filed once, every digest has one entry, and the
    entry of a digest holds the paths with that digest in scan order. *)
Theorem grouping_partitions_scan meta :
  concat (map snd (group_by_md5 meta)) ≡ₚ map info_path meta
  ∧ NoDup (map fst (group_by_md5 meta))
  ∧ ∀ k grp, (k, grp) ∈ group_by_md5 meta →
      grp = paths_with k meta ∧ grp ≠ [] ∧ k ∈ map info_md5 meta.
Proof.
  split_and!.
  - apply group_by_md5_paths.
  - rewrite group_by_md5_spec, map_map. simpl. rewrite map_id.
    apply first_seen_NoDup.
  - intros k grp Hin. rewrite group_by_md5_spec in Hin.
    apply list_elem_of_fmap in Hin as (k' & [= -> ->] & Hk).
    apply first_seen_elem in Hk as [Hk _].
    split_and!; [done| |done].
    apply list_elem_of_fmap in Hk as (m & -> & Hm).
    assert (info_path m ∈ paths_with (info_md5 m) meta) as Hp
      by (apply paths_with_elem; eauto).
    intros Hnil. rewrite Hnil in Hp. by apply elem_of_nil in Hp.
Qed.

Lemma paths_with_unique_digest k meta :
  NoDup (map info_md5 meta) → (length (paths_with k meta) ≤ 1)%nat.
Proof.
  unfold paths_with. induction meta as [|m meta IH]; simpl; [lia|].
  intros [Hnotin Hnd]%NoDup_cons.
  destruct (String.eqb_spec (info_md5 m) k) as [<-|_]; [|by apply IH].
  simpl. fold (paths_with (info_md5 m) meta).
  rewrite paths_with_nil by done. simpl. lia.
Qed.

(** What [report_duplicates] reports: groups of two or more paths; a path
    is reported exactly when its digest is carried by two or more records;
    a scan without a shared digest reports nothing. *)
Theorem report_duplicates_groups meta :
  Forall (λ grp, (2 ≤ length grp)%nat) (report_duplicates meta)
  ∧ (∀ p, (∃ grp, grp ∈ report_duplicates meta ∧ p ∈ grp)
          ↔ ∃ m, m ∈ meta ∧ info_path m = p
                 ∧ (2 ≤ length (paths_with (info_md5 m) meta))%nat)
  ∧ (NoDup (map info_md5 meta) → report_duplicates meta = []).
Proof.
  rewrite report_duplicates_spec. split_and!.
  - apply Forall_forall. intros grp (k & -> & Hk)%list_elem_of_fmap.
    apply duplicated_keys_elem in Hk. lia.
  - intros p. split.
    + intros (grp & (k & -> & Hk)%list_elem_of_fmap & Hp).
      apply duplicated_keys_elem in Hk.
      apply paths_with_elem in Hp as (m & Hm & <- & <-).
      exists m. split_and!; [done..|lia].
    + intros (m & Hm & <- & Hlen).
      exists (paths_with (info_md5 m) meta). split.
      * apply list_elem_of_fmap. exists (info_md5 m). split; [done|].
        apply duplicated_keys_elem. lia.
      * apply paths_with_elem. eauto.
  - intros Hnd.
    assert (duplicated_keys meta = []) as ->; [|done].
    apply elem_of_nil_inv. intros k Hk%duplicated_keys_elem.
    pose proof (paths_with_unique_digest k meta Hnd). lia.
Qed.

Lemma report_duplicates_groups_witness :
  Forall (λ grp, (2 ≤ length grp)%nat) (report_duplicates Simple.clash_meta)
  ∧ (∀ p, (∃ grp, grp ∈ report_duplicates Simple.clash_meta ∧ p ∈ grp)
          ↔ ∃ m, m ∈ Simple.clash_meta ∧ info_path m = p
                 ∧ (2 ≤ length (paths_with (info_md5 m) Simple.clash_meta))%nat)
  ∧ (NoDup (map info_md5 Simple.clash_meta)
     → report_duplicates Simple.clash_meta = []).
Proof. apply (report_duplicates_groups Simple.clash_meta). Defined.

(** ** More on the skip set *)

Lemma paths_with_NoDup k meta :
  NoDup (map info_path meta) → NoDup (paths_with k meta).
Proof.
  unfold paths_with. induction meta as [|m meta IH]; simpl; [constructor|].
  intros [Hnotin Hnd]%NoDup_cons.
  destruct (String.eqb (info_md5 m) k); simpl; [|by apply IH].
  constructor; [|by apply IH].
  intros (m' & Hpath & Hm')%list_elem_of_fmap. apply Hnotin.
  rewrite Hpath. apply list_elem_of_fmap_2.
  apply list_elem_of_In in Hm'. apply filter_In in Hm' as [Hm' _].
  by apply list_elem_of_In.
Qed.

Lemma another_element {A} (l : list A) x :
  NoDup l → (2 ≤ length l)%nat → x ∈ l → ∃ y, y ∈ l ∧ y ≠ x.
Proof.
  destruct l as [|a [|b l]]; simpl; [lia..|].
  intros [Hab _]%NoDup_cons _ Hx.
  destruct (proj1 (elem_of_cons _ _ _) Hx) as [->|Hx'].
  - exists b. split; [apply list_elem_of_further, list_elem_of_here|].
    intros ->. apply Hab, list_elem_of_here.
  - exists a. split; [apply list_elem_of_here|]. by intros ->.
Qed.

Lemma survivors_empty meta : survivors ∅ meta = meta.
Proof.
  unfold survivors, is_skipped. induction meta as [|m meta IH]; [done|].
  simpl. rewrite bool_decide_false by set_solver. simpl. by rewrite IH.
Qed.

(** The set [skip_md5] of the main block.  Paths being distinct, building it
    never raises; a record is then skipped exactly when another file of the
    scan has the same digest (so the first file of a group is skipped with
    the rest); a scan without a shared digest skips nothing. *)
Theorem skip_set_characterised meta :
  NoDup (map info_path meta) →
  ∃ skip_md5,
    build_skip_md5 meta (report_duplicates meta) = Some skip_md5
    ∧ (∀ m, m ∈ meta →
         (is_skipped skip_md5 m = true
          ↔ ∃ m', m' ∈ meta ∧ info_path m' ≠ info_path m
                  ∧ info_md5 m' = info_md5 m))
    ∧ (NoDup (map info_md5 meta) →
       skip_md5 = ∅ ∧ survivors skip_md5 meta = meta).
Proof.
  intros Hnd. exists (list_to_set (duplicated_keys meta)).
  split_and!; [by apply build_skip_md5_spec| |].
  - intros m Hm. rewrite is_skipped_spec. split.
    + intros Hlen.
      destruct (another_element (paths_with (info_md5 m) meta) (info_path m))
        as (p & Hp & Hne); [by apply paths_with_NoDup|lia| |].
      { apply paths_with_elem. eauto. }
      apply paths_with_elem in Hp as (m' & Hm' & Hmd5 & <-). eauto.
    + intros (m' & Hm' & Hne & Hmd5).
      apply (two_paths_length _ _ (info_path m') (info_path m));
        [apply paths_with_elem; eauto..|done].
  - intros Hmd5.
    assert (duplicated_keys meta = []) as ->.
    { apply elem_of_nil_inv. intros k Hk%duplicated_keys_elem.
      pose proof (paths_with_unique_digest k meta Hmd5). lia. }
    split; [done|]. apply survivors_empty.
Qed.

Lemma skip_set_characterised_witness :
  ∃ skip_md5,
    build_skip_md5 Simple.mixed_meta (report_duplicates Simple.mixed_meta)
    = Some skip_md5
    ∧ (∀ m, m ∈ Simple.mixed_meta →
         (is_skipped skip_md5 m = true
          ↔ ∃ m', m' ∈ Simple.mixed_meta ∧ info_path m' ≠ info_path m
                  ∧ info_md5 m' = info_md5 m))
    ∧ (NoDup (map info_md5 Simple.mixed_meta) →
       skip_md5 = ∅ ∧ survivors skip_md5 Simple.mixed_meta = Simple.mixed_meta).
Proof.
  apply (skip_set_characterised Simple.mixed_meta).
  apply (bool_decide_unpack _). vm_compute. exact I.
Defined.

(** ** More on names: the parts of a file *)

Lemma app_cons c a b : String c a +:+ b = String c (a +:+ b).
Proof. reflexivity. Qed.

Lemma app_length a b :
  String.length (a +:+ b) = (String.length a + String.length b)%nat.
Proof.
  induction a as [|c a IH]; [done|]. rewrite app_cons. simpl. by rewrite IH.
Qed.

Lemma app_assoc_str a b c : (a +:+ b) +:+ c = a +:+ (b +:+ c).
Proof.
  induction a as [|x a IH]; [done|]. rewrite !app_cons. by rewrite IH.
Qed.

Lemma app_inj_r a b t : a +:+ t = b +:+ t → a = b.
Proof.
  revert b. induction a as [|c a IH]; intros [|d b] Heq.
  - done.
  - apply (f_equal String.length) in Heq.
    rewrite !app_length in Heq. simpl in Heq. lia.
  - apply (f_equal String.length) in Heq.
    rewrite !app_length in Heq. simpl in Heq. lia.
  - rewrite !app_cons in Heq. injection Heq as -> Heq. f_equal. by apply IH.
Qed.

Lemma substring_app_skip pre x (k m : nat) :
  String.substring (String.length pre + k) m (pre +:+ x)
  = String.substring k m x.
Proof. induction pre as [|c pre IH]; [done|]. rewrite app_cons. apply IH. Qed.

Lemma endswith_app_l pre x suffix :
  Str.endswith x suffix = true → Str.endswith (pre +:+ x) suffix = true.
Proof.
  unfold Str.endswith. rewrite app_length.
  destruct (Nat.leb_spec (String.length suffix) (String.length x)) as [Hle|];
    [|done].
  intros Heq.
  destruct (Nat.leb_spec (String.length suffix)
              (String.length pre + String.length x)) as [_|]; [|lia].
  replace (String.length pre + String.length x - String.length suffix)%nat
    with (String.length pre + (String.length x - String.length suffix))%nat
    by lia.
  by rewrite substring_app_skip.
Qed.

Lemma endswith_app a b : Str.endswith (a +:+ b) b = true.
Proof.
  rewrite <- (endswith_app_l a b b); [done|].
  unfold Str.endswith. rewrite Nat.leb_refl, Nat.sub_diag, substring_all.
  apply String.eqb_refl.
Qed.

Lemma join_inj output_root x y :
  Str.startswith x "/" = Str.startswith y "/" →
  OsPath.join output_root x = OsPath.join output_root y → x = y.
Proof.
  unfold OsPath.join. intros ->.
  destruct (Str.startswith y "/"); [done|].
  destruct (_ || _); intros Heq.
  - by apply (inj (String.app output_root)) in Heq.
  - apply (inj (String.app output_root)) in Heq.
    by apply (inj (String.app "/")) in Heq.
Qed.

Lemma join_endswith output_root x suffix :
  Str.endswith x suffix = true →
  Str.endswith (OsPath.join output_root x) suffix = true.
Proof.
  intros Hx. unfold OsPath.join.
  destruct (Str.startswith x "/"); [done|].
  destruct (_ || _); repeat apply endswith_app_l; done.
Qed.

Lemma name_starts_the_same base n i j :
  Str.startswith (base +:+ part_suffix n i +:+ ".mp3") "/"
  = Str.startswith (base +:+ part_suffix n j +:+ ".mp3") "/".
Proof.
  unfold Str.startswith. destruct base as [|c base].
  - unfold part_suffix. by destruct (1 <? n)%nat.
  - rewrite !app_cons.
    assert (∀ s, String.prefix "" s = true) as Hnil
      by (intros []; reflexivity).
    assert (∀ s, String.prefix "/" (String c s)
                 = if ascii_dec "/" c then String.prefix "" s else false)
      as Hhead by (intros s; reflexivity).
    by rewrite !Hhead, !Hnil.
Qed.

Lemma part_names_NoDup output_root base (n : nat) :
  NoDup (map (out_path_of output_root base n) (seq 1 n)).
Proof.
  destruct (Nat.le_gt_cases n 1) as [Hsmall|Hmany].
  - destruct n as [|[|n]]; [constructor|..|lia].
    simpl. apply NoDup_singleton.
  - apply NoDup_fmap_2_strong; [|apply NoDup_seq].
    intros i j _ _ Heq. unfold out_path_of in Heq.
    apply join_inj in Heq; [|apply name_starts_the_same].
    apply (inj (String.app base)) in Heq.
    apply app_inj_r in Heq. unfold part_suffix in Heq.
    destruct (Nat.ltb_spec 1 n) as [_|]; [|lia].
    apply (inj (String.app "_part")) in Heq.
    by apply (inj pretty) in Heq.
Qed.

Lemma out_path_endswith_mp3 output_root base (n idx : nat) :
  Str.endswith (out_path_of output_root base n idx) ".mp3" = true.
Proof.
  unfold out_path_of. apply join_endswith.
  rewrite <- app_assoc_str. apply endswith_app.
Qed.

(** The names [process_file] gives to the parts of one file: pairwise
    distinct, so no part of a file replaces another part of it, and all
    ending in [.mp3]. *)
Theorem part_names_distinct output_root base (n : nat) :
  NoDup (map (out_path_of output_root base n) (seq 1 n))
  ∧ Forall (λ p, Str.endswith p ".mp3" = true)
           (map (out_path_of output_root base n) (seq 1 n)).
Proof.
  split; [apply part_names_NoDup|].
  apply Forall_forall. intros p (i & -> & _)%list_elem_of_fmap.
  apply out_path_endswith_mp3.
Qed.

(** ** More on strings: searching and splitting *)

Lemma app_nil_r_str s : s +:+ "" = s.
Proof. induction s as [|c s IH]; [done|]. by rewrite app_cons, IH. Qed.

Lemma contains_app c a b :
  Str.contains c (a +:+ b) = Str.contains c a || Str.contains c b.
Proof.
  induction a as [|x a IH]; [done|]. rewrite app_cons. simpl.
  by rewrite IH, orb_assoc.
Qed.

Lemma get_app_skip pre x (k : nat) :
  String.get (String.length pre + k) (pre +:+ x) = String.get k x.
Proof. induction pre as [|c pre IH]; [done|]. rewrite app_cons. apply IH. Qed.

Lemma get_app_l x y (k : nat) :
  (k < String.length x)%nat → String.get k (x +:+ y) = String.get k x.
Proof.
  revert k. induction x as [|c x IH]; intros k Hk; simpl in Hk; [lia|].
  rewrite app_cons. destruct k; [done|]. simpl. apply IH. lia.
Qed.

Lemma get_in_range s (n : nat) c :
  String.get n s = Some c → (n < String.length s)%nat.
Proof.
  intros Hget. destruct (Nat.lt_ge_cases n (String.length s)); [done|].
  rewrite get_out_of_range in Hget; done.
Qed.

Lemma get_is_Some s (n : nat) :
  (n < String.length s)%nat → is_Some (String.get n s).
Proof.
  revert n. induction s as [|a s IH]; intros n Hn; simpl in Hn; [lia|].
  destruct n; [by eexists|]. simpl. apply IH. lia.
Qed.

Lemma all_char_get c s (k : nat) :
  Str.all_char c s = true → (k < String.length s)%nat →
  String.get k s = Some c.
Proof.
  revert k. induction s as [|a s IH]; intros k Hall Hk; simpl in *; [lia|].
  apply andb_prop in Hall as [Ha Hall]. apply Ascii.eqb_eq in Ha as ->.
  destruct k; [done|]. apply IH; [done|lia].
Qed.

Lemma all_char_contains c d s :
  Str.all_char c s = true → c ≠ d → Str.contains d s = false.
Proof.
  intros Hall Hne. induction s as [|a s IH]; [done|]. simpl in *.
  apply andb_prop in Hall as [Ha Hall]. apply Ascii.eqb_eq in Ha as ->.
  rewrite IH by done. by destruct (Ascii.eqb_spec c d).
Qed.

Lemma substring_app_take a b :
  String.substring 0 (String.length a) (a +:+ b) = a.
Proof.
  induction a as [|c a IH]; [by destruct b|]. rewrite app_cons. simpl.
  by rewrite IH.
Qed.

Lemma substring_app_drop a b :
  String.substring (String.length a)
    (String.length (a +:+ b) - String.length a) (a +:+ b) = b.
Proof.
  rewrite <- (Nat.add_0_r (String.length a)) at 1.
  rewrite substring_app_skip, app_length.
  replace (String.length a + String.length b - String.length a)%nat
    with (String.length b) by lia.
  apply substring_all.
Qed.

(** [rfind] on a concatenation *)
Lemma rfind_from_absent c s i :
  Str.contains c s = false → Str.rfind_from c s i = -1.
Proof.
  revert i. induction s as [|a s IH]; intros i Hc; [done|]. simpl in *.
  apply orb_false_elim in Hc as [Ha Hs]. by rewrite IH, Ha.
Qed.

Lemma rfind_from_bound c s i :
  0 ≤ i →
  Str.rfind_from c s i = -1
  ∨ i ≤ Str.rfind_from c s i < i + Z.of_nat (String.length s).
Proof.
  revert i. induction s as [|a s IH]; intros i Hi; [by left|]. simpl.
  destruct (IH (i + 1)) as [->|Hr]; [lia| |].
  - simpl. destruct (Ascii.eqb a c); [right; lia|by left].
  - destruct (Z.leb_spec 0 (Str.rfind_from c s (i + 1))); right; lia.
Qed.

Lemma rfind_from_app_absent c s1 s2 i :
  0 ≤ i → Str.contains c s2 = false →
  Str.rfind_from c (s1 +:+ s2) i = Str.rfind_from c s1 i.
Proof.
  revert i. induction s1 as [|a s1 IH]; intros i Hi Hc.
  - by rewrite rfind_from_absent.
  - rewrite app_cons. simpl. by rewrite IH by (done || lia).
Qed.

Lemma rfind_from_last c s1 s2 i :
  0 ≤ i → Str.contains c s2 = false →
  Str.rfind_from c (s1 +:+ String c s2) i = i + Z.of_nat (String.length s1).
Proof.
  revert i. induction s1 as [|a s1 IH]; intros i Hi Hc.
  - change ("" +:+ String c s2) with (String c s2). simpl.
    rewrite rfind_from_absent by done. simpl. rewrite Ascii.eqb_refl. lia.
  - rewrite app_cons. simpl. rewrite IH by (done || lia).
    destruct (Z.leb_spec 0 (i + 1 + Z.of_nat (String.length s1))); lia.
Qed.

(** The loop of [splitext] over the leading dots *)
Lemma splitext_scan_true (fuel : nat) p f d (m : nat) a :
  0 ≤ f → f ≤ Z.of_nat m < d → String.get m p = Some a → a ≠ "."%char →
  Z.of_nat m - f < Z.of_nat fuel →
  OsPath.splitext_scan fuel p f d = true.
Proof.
  revert f. induction fuel as [|fuel IH]; intros f Hf Hm Hget Ha Hfuel; [lia|].
  simpl. destruct (Z.ltb_spec f d); [|lia].
  destruct (get_is_Some p (Z.to_nat f)) as [c Hc].
  { apply get_in_range in Hget. lia. }
  rewrite Hc. destruct (Ascii.eqb_spec c ".") as [->|]; [|done]. simpl.
  assert (Z.to_nat f ≠ m) by (intros <-; congruence).
  apply IH; [lia|lia|done|done|lia].
Qed.

Lemma splitext_scan_false (fuel : nat) p f d :
  0 ≤ f →
  (∀ k : nat, f ≤ Z.of_nat k < d → String.get k p = Some "."%char) →
  OsPath.splitext_scan fuel p f d = false.
Proof.
  revert f. induction fuel as [|fuel IH]; intros f Hf Hdots; [done|].
  simpl. destruct (Z.ltb_spec f d); [|done].
  rewrite Hdots by lia. simpl. apply IH; [lia|].
  intros k Hk. apply Hdots. lia.
Qed.

(** [splitext] strips the extension: in a file name with a character other
    than a dot before its last dot, the base ends before that dot. *)
Lemma splitext_strips pre a stem e :
  a ≠ "."%char → a ≠ "/"%char →
  Str.contains "/" stem = false →
  Str.contains "." e = false → Str.contains "/" e = false →
  OsPath.splitext (pre +:+ String a stem +:+ "." +:+ e)
  = (pre +:+ String a stem, "." +:+ e).
Proof.
  intros Hdot Hsep Hstem He_dot He_sep.
  unfold OsPath.splitext, Str.rfind.
  assert (Str.rfind_from "/" (pre +:+ String a stem +:+ "." +:+ e) 0
          = Str.rfind_from "/" pre 0) as ->.
  { apply rfind_from_app_absent; [done|].
    rewrite contains_app. cbn [Str.contains]. rewrite Hstem.
    change ("." +:+ e) with (String "." e). cbn [Str.contains].
    rewrite He_sep. by destruct (Ascii.eqb_spec a "/"). }
  assert (pre +:+ String a stem +:+ "." +:+ e
          = (pre +:+ String a stem) +:+ String "." e) as Hrel
    by (by rewrite app_assoc_str).
  assert (Str.rfind_from "." (pre +:+ String a stem +:+ "." +:+ e) 0
          = Z.of_nat (String.length (pre +:+ String a stem))) as ->.
  { rewrite Hrel, rfind_from_last by done. lia. }
  pose proof (rfind_from_bound "/" pre 0 ltac:(lia)) as Hbound.
  pose proof (app_length pre (String a stem)) as Hlen.
  cbn [String.length] in Hlen.
  destruct (Z.ltb_spec (Str.rfind_from "/" pre 0)
              (Z.of_nat (String.length (pre +:+ String a stem))))
    as [_|]; [|lia].
  rewrite (splitext_scan_true _ _ _ _ (String.length pre) a).
  - cbn [andb]. unfold Str.take, Str.drop. rewrite Nat2Z.id, Hrel.
    by rewrite substring_app_take, substring_app_drop.
  - lia.
  - lia.
  - rewrite <- (Nat.add_0_r (String.length pre)). by rewrite get_app_skip.
  - done.
  - rewrite Hrel, app_length. lia.
Qed.

(** [splitext] strips nothing from a file name without a dot, or with
    nothing but dots before its last dot. *)
Lemma splitext_keeps pre dots e :
  pre = "" ∨ (∃ pre', pre = pre' +:+ "/") →
  Str.all_char "." dots = true →
  Str.contains "." e = false → Str.contains "/" e = false →
  OsPath.splitext (pre +:+ dots +:+ e) = (pre +:+ dots +:+ e, "").
Proof.
  intros Hpre Hdots He_dot He_sep.
  unfold OsPath.splitext, Str.rfind.
  assert (Str.contains "/" (dots +:+ e) = false) as Hde.
  { by rewrite contains_app, (all_char_contains "." "/"), He_sep. }
  assert (Str.rfind_from "/" (pre +:+ dots +:+ e) 0 + 1
          = Z.of_nat (String.length pre)) as Hsep.
  { destruct Hpre as [->|[pre' ->]].
    - change ("" +:+ dots +:+ e) with (dots +:+ e).
      by rewrite rfind_from_absent.
    - rewrite app_assoc_str. change ("/" +:+ dots +:+ e)
        with (String "/" (dots +:+ e)).
      rewrite rfind_from_last, app_length by done. simpl. lia. }
  assert (Str.rfind_from "." (pre +:+ dots +:+ e) 0
          < Z.of_nat (String.length pre + String.length dots)) as Hdot.
  { rewrite <- app_assoc_str, rfind_from_app_absent by done.
    pose proof (rfind_from_bound "." (pre +:+ dots) 0 ltac:(lia)) as Hb.
    rewrite app_length in Hb. lia. }
  rewrite splitext_scan_false; [by rewrite andb_false_r| |].
  - pose proof (rfind_from_bound "/" (pre +:+ dots +:+ e) 0 ltac:(lia)). lia.
  - intros k Hk. rewrite Hsep in Hk.
    replace k with (String.length pre + (k - String.length pre))%nat by lia.
    rewrite get_app_skip, get_app_l by lia.
    apply all_char_get; [done|lia].
Qed.

(** [split]: the last component *)
Lemma split_go_nonempty sep cur s : Str.split_go sep cur s ≠ [].
Proof.
  revert cur. induction s as [|a s IH]; intros cur; simpl; [done|].
  destruct (Ascii.eqb a sep); [done|apply IH].
Qed.

Lemma rev_app_app cur acc t :
  String.rev_app cur acc +:+ t = String.rev_app cur (acc +:+ t).
Proof.
  revert acc. induction cur as [|a cur IH]; intros acc; [done|].
  simpl. by rewrite IH, app_cons.
Qed.

Lemma split_go_absent sep cur t :
  Str.contains sep t = false →
  Str.split_go sep cur t = [String.rev cur +:+ t].
Proof.
  revert cur. induction t as [|a t IH]; intros cur Hc; simpl in *.
  - by rewrite app_nil_r_str.
  - apply orb_false_elim in Hc as [-> Hc]. rewrite IH by done.
    unfold String.rev. simpl. by rewrite !rev_app_app.
Qed.

Lemma last_cons_nonempty {A} (x : A) l d :
  l ≠ [] → List.last (x :: l) d = List.last l d.
Proof. by destruct l. Qed.

Lemma split_go_last_app sep cur s t :
  Str.contains sep t = false →
  List.last (Str.split_go sep cur (s +:+ t)) ""
  = List.last (Str.split_go sep cur s) "" +:+ t.
Proof.
  intros Hc. revert cur. induction s as [|a s IH]; intros cur.
  - change ("" +:+ t) with t. by rewrite split_go_absent.
  - rewrite app_cons. simpl. destruct (Ascii.eqb a sep); [|apply IH].
    rewrite !last_cons_nonempty by apply split_go_nonempty. apply IH.
Qed.

(** The decimal digits of a number hold no separator. *)
Lemma pretty_N_go_no_sep x s :
  Str.contains "/" s = false → Str.contains "/" (pretty_N_go x s) = false.
Proof.
  revert s. induction (N.lt_wf_0 x) as [x _ IH]; intros s Hs.
  assert (x = 0 ∨ 0 < x)%N as [->|Hpos] by lia.
  - by rewrite pretty_N_go_0.
  - rewrite pretty_N_go_step by done. apply IH.
    { by apply N.div_lt. }
    simpl. rewrite Hs. unfold pretty_N_char. by repeat case_match.
Qed.

Lemma pretty_nat_no_sep (n : nat) : Str.contains "/" (pretty n) = false.
Proof.
  unfold pretty, pretty_nat, pretty, pretty_N.
  destruct (decide _); [done|]. by apply pretty_N_go_no_sep.
Qed.

(** The tail of a part name: suffix and extension *)
Lemma part_tail_no_sep n idx :
  Str.contains "/" (part_suffix n idx +:+ ".mp3") = false.
Proof.
  rewrite contains_app. unfold part_suffix. destruct (1 <? n)%nat; [|done].
  by rewrite contains_app, pretty_nat_no_sep.
Qed.

Lemma startswith_cons c s :
  Str.startswith (String c s) "/" = if ascii_dec "/" c then true else false.
Proof.
  unfold Str.startswith.
  change (String.prefix "/" (String c s))
    with (if ascii_dec "/" c then String.prefix "" s else false).
  destruct (ascii_dec "/" c); [by destruct s|done].
Qed.

Lemma startswith_absent t :
  Str.contains "/" t = false → Str.startswith t "/" = false.
Proof.
  destruct t as [|c t]; [done|]. cbn [Str.contains]. intros Hc.
  apply orb_false_elim in Hc as [Hc _]. rewrite startswith_cons.
  destruct (ascii_dec "/" c) as [<-|]; done.
Qed.

Lemma startswith_app P t :
  Str.startswith t "/" = false →
  Str.startswith (P +:+ t) "/" = Str.startswith P "/".
Proof.
  intros Ht. destruct P as [|c P]; [done|].
  by rewrite app_cons, !startswith_cons.
Qed.

Lemma join_app_tail A P t :
  Str.startswith t "/" = false →
  OsPath.join A (P +:+ t) = OsPath.join A P +:+ t.
Proof.
  intros Ht. unfold OsPath.join. rewrite startswith_app by done.
  destruct (Str.startswith P "/"); [done|].
  destruct (_ || _); by rewrite !app_assoc_str.
Qed.

Lemma components_app_tail cwd P t :
  Str.startswith t "/" = false →
  OsPath.components cwd (P +:+ t)
  = Str.split ((if Str.startswith P "/" then P else OsPath.join cwd P) +:+ t)
              "/".
Proof.
  intros Ht. unfold OsPath.components. rewrite startswith_app by done.
  destruct (Str.startswith P "/"); [done|]. by rewrite join_app_tail.
Qed.

(** ** Paths and their components *)

Lemma prefix_snoc_cases {A} (a l : list A) (x : A) :
  a `prefix_of` l ++ [x] ↔ a `prefix_of` l ∨ a = l ++ [x].
Proof.
  split.
  - intros [k Hk]. destruct k as [|y k _] using rev_ind.
    + right. by rewrite app_nil_r in Hk.
    + left. rewrite app_assoc in Hk. apply app_inj_tail in Hk as [-> _].
      by exists k.
  - intros [Hp| ->]; [by apply prefix_app_r|done].
Qed.

Lemma normpath_step_name cur c :
  OsPath.is_name c = true → OsPath.normpath_step cur c = cur ++ [c].
Proof.
  unfold OsPath.is_name, OsPath.normpath_step.
  destruct (String.eqb c ""), (String.eqb c "."), (String.eqb c "..");
    simpl; done.
Qed.

Lemma normpath_step_skip cur c :
  String.eqb c "" || String.eqb c "." = true →
  OsPath.normpath_step cur c = cur.
Proof. unfold OsPath.normpath_step. by intros ->. Qed.

Lemma normpath_step_down cur c :
  String.eqb c "" || String.eqb c "." = false → c ≠ ".." →
  OsPath.normpath_step cur c = cur ++ [c].
Proof.
  unfold OsPath.normpath_step. intros -> Hc.
  by destruct (String.eqb_spec c "..").
Qed.

(** Without [".."] the walk only goes down. *)
Lemma foldl_normpath_prefix rest cur :
  ".." ∉ rest → cur `prefix_of` foldl OsPath.normpath_step cur rest.
Proof.
  revert cur. induction rest as [|c rest IH]; intros cur Hup; simpl; [done|].
  apply not_elem_of_cons in Hup as [Hc Hup].
  destruct (String.eqb c "" || String.eqb c ".") eqn:Hskip.
  - rewrite normpath_step_skip by done. by apply IH.
  - rewrite normpath_step_down by done. eapply prefix_app_l. by apply IH.
Qed.

(** A path of the ordinary form names the entry [last] of the directory its
    other components lead to. *)
Lemma plain_path_key cwd p :
  plain_path cwd p = true →
  resolve cwd p
  = foldl OsPath.normpath_step [] (removelast (OsPath.components cwd p))
    ++ [List.last (OsPath.components cwd p) ""].
Proof.
  unfold plain_path. intros Hplain.
  apply andb_prop in Hplain as [_ Hname].
  unfold resolve, OsPath.abspath_components.
  change (Str.split _ "/") with (OsPath.components cwd p).
  rewrite (app_removelast_last (l := OsPath.components cwd p) "") at 1.
  - rewrite foldl_app. simpl.
    unfold OsPath.is_name in Hname. apply negb_true_iff in Hname.
    apply orb_false_elim in Hname as [Hskip Hup].
    apply normpath_step_down; [done|]. by apply String.eqb_neq.
  - intros Hnil. by rewrite Hnil in Hname.
Qed.

(** The parts of a file go to distinct files on the disk. *)
Lemma part_keys_NoDup cwd output_root base (n : nat) :
  Forall (λ p, plain_path cwd p = true)
         (map (out_path_of output_root base n) (seq 1 n)) →
  NoDup (map (λ idx, resolve cwd (out_path_of output_root base n idx))
             (seq 1 n)).
Proof.
  intros Hplain.
  apply NoDup_fmap_2_strong; [|apply NoDup_seq].
  intros i j Hi Hj Heq.
  rewrite Forall_forall in Hplain.
  rewrite !plain_path_key in Heq
    by (apply Hplain, list_elem_of_fmap; eauto).
  apply app_inj_tail in Heq as [_ Heq]. unfold out_path_of in Heq.
  pose proof (part_tail_no_sep n i) as Hci.
  pose proof (part_tail_no_sep n j) as Hcj.
  rewrite !join_app_tail, !components_app_tail in Heq
    by (by apply startswith_absent).
  unfold Str.split in Heq. rewrite !split_go_last_app in Heq by done.
  apply (inj (String.app _)) in Heq. apply app_inj_r in Heq.
  unfold part_suffix in Heq.
  destruct (1 <? n)%nat eqn:Hn.
  - apply (inj (String.app "_part")) in Heq. by apply (inj pretty) in Heq.
  - apply Nat.ltb_ge in Hn.
    apply list_elem_of_In, in_seq in Hi. apply list_elem_of_In, in_seq in Hj.
    lia.
Qed.

(** ** The directory part of a path *)

Lemma rfind_from_decompose c s i :
  0 ≤ i →
  (Str.rfind_from c s i = -1 ∧ Str.contains c s = false)
  ∨ (∃ d t, s = d +:+ String c t ∧ Str.contains c t = false
            ∧ Str.rfind_from c s i = i + Z.of_nat (String.length d)).
Proof.
  revert i. induction s as [|a s IH]; intros i Hi; [by left|].
  cbn [Str.rfind_from Str.contains].
  destruct (IH (i + 1)) as [[-> Hnone]|(d & t & -> & Ht & ->)]; [lia| |].
  - simpl. rewrite Hnone. destruct (Ascii.eqb_spec a c) as [->|Hne].
    + right. exists "", s. split_and!; [done..|]. simpl. lia.
    + by left.
  - right. exists (String a d), t. split_and!; [done..|].
    destruct (Z.leb_spec 0 (i + 1 + Z.of_nat (String.length d))); [|lia].
    simpl. lia.
Qed.

Lemma rstrip_spec s c :
  ∃ S, s = Str.rstrip s c +:+ S ∧ Str.all_char c S = true.
Proof.
  induction s as [|a s (S & Hs & HS)]; [by exists ""|].
  cbn [Str.rstrip].
  destruct (String.eqb_spec (Str.rstrip s c) "") as [Hr|Hr];
    [destruct (Ascii.eqb_spec a c) as [->|Ha]|]; cbn [andb].
  - exists (String c s). split; [done|]. rewrite Hr in Hs.
    change ("" +:+ S) with S in Hs. subst S. simpl.
    by rewrite Ascii.eqb_refl, HS.
  - exists S. split; [|done]. by rewrite app_cons, <- Hs.
  - exists S. split; [|done]. by rewrite app_cons, <- Hs.
Qed.

(** [dirname p] is the text before the name at the end of [p], without the
    separators it ends in. *)
Lemma dirname_spec p :
  OsPath.dirname p ≠ "" →
  ∃ d t S,
    p = d +:+ String "/" t ∧ Str.contains "/" t = false
    ∧ d +:+ "/" = OsPath.dirname p +:+ S ∧ Str.all_char "/" S = true.
Proof.
  unfold OsPath.dirname, Str.rfind, Str.take.
  destruct (rfind_from_decompose "/" p 0 ltac:(lia))
    as [[-> _]|(d & t & -> & Ht & ->)].
  { simpl. by destruct p. }
  intros Hne. exists d, t.
  replace (Z.to_nat (0 + Z.of_nat (String.length d) + 1))
    with (String.length (d +:+ "/")) in * by (rewrite app_length; simpl; lia).
  replace (d +:+ String "/" t) with ((d +:+ "/") +:+ t) in *
    by (by rewrite app_assoc_str).
  rewrite substring_app_take in *.
  destruct (_ && _).
  - destruct (rstrip_spec (d +:+ "/") "/") as (S & HS & Hall).
    exists S. split_and!; [by rewrite app_assoc_str|done..].
  - exists "". split_and!; [by rewrite app_assoc_str|done|
                            by rewrite app_nil_r_str|done].
Qed.

(** [split] at a separator *)
Lemma split_go_app_sep sep cur X t :
  Str.split_go sep cur (X +:+ String sep t)
  = Str.split_go sep cur X ++ Str.split_go sep "" t.
Proof.
  revert cur. induction X as [|a X IH]; intros cur.
  - change ("" +:+ String sep t) with (String sep t). simpl.
    by rewrite Ascii.eqb_refl.
  - rewrite app_cons. simpl. destruct (Ascii.eqb a sep); [|apply IH].
    by rewrite IH.
Qed.

Lemma split_go_all_sep sep S :
  Str.all_char sep S = true → Forall (λ c, c = "") (Str.split_go sep "" S).
Proof.
  induction S as [|a S IH]; simpl; [by repeat constructor|].
  intros [-> HS]%andb_prop. constructor; [done|by apply IH].
Qed.

Lemma foldl_normpath_empty acc l :
  Forall (λ c, c = "") l → foldl OsPath.normpath_step acc l = acc.
Proof. induction 1 as [|c l -> _ IH]; [done|]. simpl. apply IH. Qed.

Lemma startswith_app_nonempty P t :
  P ≠ "" → Str.startswith (P +:+ t) "/" = Str.startswith P "/".
Proof.
  destruct P as [|c P]; [done|]. intros _.
  by rewrite app_cons, !startswith_cons.
Qed.

(** The path the system starts from: the working directory for a relative
    path. *)
Lemma components_start cwd p :
  ∃ J, ∀ q, Str.startswith q "/" = Str.startswith p "/" →
            OsPath.components cwd q = Str.split (J +:+ q) "/".
Proof.
  unfold OsPath.components, OsPath.join.
  destruct (Str.startswith p "/").
  - exists "". by intros q ->.
  - destruct (_ || _).
    + exists cwd. by intros q ->.
    + exists (cwd +:+ "/"). intros q ->. by rewrite app_assoc_str.
Qed.

(** The directory part of a path that ends in a name leads to the parent of
    what the path names, through components of the path. *)
Lemma dirname_parent cwd p :
  OsPath.dirname p ≠ "" →
  ∃ init name,
    OsPath.components cwd p = init ++ [name]
    ∧ foldl OsPath.normpath_step [] (OsPath.components cwd (OsPath.dirname p))
      = foldl OsPath.normpath_step [] init
    ∧ ∀ c, c ∈ OsPath.components cwd (OsPath.dirname p) →
           c = "" ∨ c ∈ init.
Proof.
  intros Hne.
  destruct (dirname_spec p Hne) as (d & t & S & -> & Ht & Hd & HS).
  destruct (components_start cwd (d +:+ String "/" t)) as [J HJ].
  assert (Str.startswith (OsPath.dirname (d +:+ String "/" t)) "/"
          = Str.startswith (d +:+ String "/" t) "/") as Hstart.
  { rewrite <- (startswith_app_nonempty _ S) by done. rewrite <- Hd.
    replace (d +:+ String "/" t) with ((d +:+ "/") +:+ t)
      by (by rewrite app_assoc_str).
    rewrite (startswith_app_nonempty (d +:+ "/")); [done|].
    by destruct d. }
  rewrite (HJ _ Hstart), (HJ _ eq_refl).
  set (D := OsPath.dirname (d +:+ String "/" t)) in *.
  unfold Str.split.
  exists (Str.split_go "/" "" (J +:+ d)), t.
  rewrite <- app_assoc_str, split_go_app_sep, (split_go_absent "/" "" t)
    by done.
  split; [done|].
  assert (Str.split_go "/" "" (J +:+ d) ++ [""]
          = Str.split_go "/" "" (J +:+ D)
            ++ match S with
               | "" => []
               | String _ S' => Str.split_go "/" "" S'
               end) as Hsplit.
  { change [""] with (Str.split_go "/" "" "").
    rewrite <- split_go_app_sep, app_assoc_str.
    change (d +:+ String "/" "") with (d +:+ "/"). rewrite Hd.
    destruct S as [|a S'].
    - by rewrite app_nil_r_str, app_nil_r.
    - simpl in HS. apply andb_prop in HS as [->%Ascii.eqb_eq HS].
      by rewrite <- app_assoc_str, split_go_app_sep. }
  assert (Forall (λ c, c = "")
            match S with
            | "" => []
            | String _ S' => Str.split_go "/" "" S'
            end) as Hempty.
  { destruct S as [|a S']; [constructor|].
    simpl in HS. apply andb_prop in HS as [_ HS].
    by apply split_go_all_sep. }
  split.
  - transitivity (foldl OsPath.normpath_step []
                    (Str.split_go "/" "" (J +:+ d) ++ [""])).
    + by rewrite Hsplit, foldl_app, (foldl_normpath_empty _ _ Hempty).
    + by rewrite foldl_app.
  - intros c Hc.
    assert (c ∈ Str.split_go "/" "" (J +:+ d) ++ [""]) as Hin.
    { rewrite Hsplit. apply elem_of_app. by left. }
    apply elem_of_app in Hin as [Hin|Hin%list_elem_of_singleton]; auto.
Qed.

(** What a path of the ordinary form gives: its directory part is not
    empty, holds no [".."] and leads to the parent of the file the path
    names. *)
Lemma plain_path_inv cwd p :
  plain_path cwd p = true →
  ∃ init name,
    OsPath.components cwd p = init ++ [name]
    ∧ OsPath.is_name name = true
    ∧ (".." ∉ init)
    ∧ resolve cwd p = foldl OsPath.normpath_step [] init ++ [name]
    ∧ resolve cwd (OsPath.dirname p) = foldl OsPath.normpath_step [] init
    ∧ (".." ∉ OsPath.components cwd (OsPath.dirname p))
    ∧ OsPath.dirname p ≠ "" ∧ p ≠ "".
Proof.
  intros Hplain. pose proof (plain_path_key cwd p Hplain) as Hkey.
  unfold plain_path in Hplain.
  apply andb_prop in Hplain as [Hplain Hname].
  apply andb_prop in Hplain as [Hdn Hup].
  apply negb_true_iff in Hdn, Hup.
  apply bool_decide_eq_false in Hup. apply String.eqb_neq in Hdn.
  destruct (dirname_parent cwd p Hdn) as (init & name & Hcomps & Hdir & Hsub).
  rewrite Hcomps in Hkey, Hname, Hup.
  rewrite last_last in Hkey, Hname. rewrite removelast_last in Hkey.
  exists init, name. split_and!; [done|done| |done|done| |done|].
  - intros Hin. apply Hup, elem_of_app. by left.
  - intros Hin. apply Hsub in Hin as [?|Hin]; [done|].
    apply Hup, elem_of_app. by left.
  - by intros ->.
Qed.

(** ** The disk: creating directories and opening files *)

Section Disk.
Context `{AudioLib}.

Lemma is_dir_root cwd s : is_dir cwd s [] = true.
Proof.
  unfold is_dir. rewrite (bool_decide_true ([] `prefix_of` _)); [done|].
  apply prefix_nil.
Qed.

Lemma is_dir_ext cwd s s' k :
  out_dirs s' = out_dirs s → is_dir cwd s' k = is_dir cwd s k.
Proof. unfold is_dir. by intros ->. Qed.

Lemma is_dir_add cwd s k a :
  is_dir cwd {| out_files := out_files s; out_dirs := {[ k ]} ∪ out_dirs s;
                console := console s |} a = true
  ↔ is_dir cwd s a = true ∨ a = k.
Proof.
  unfold is_dir. cbn [out_dirs].
  rewrite !orb_true_iff, !bool_decide_eq_true, elem_of_union,
    elem_of_singleton.
  tauto.
Qed.

(** [makedirs] succeeds when no name on the way is a regular file; it
    touches no file and prints nothing, and the directories afterwards are
    those before and the ones it went through. *)
Lemma makedirs_from_ok cwd rest cur s :
  ".." ∉ rest →
  (∀ a, a `prefix_of` foldl OsPath.normpath_step cur rest →
        (length cur < length a)%nat → a ∉ dom (out_files s)) →
  ∃ s',
    makedirs_from cwd cur rest s = (inr (), s')
    ∧ out_files s' = out_files s
    ∧ console s' = console s
    ∧ ∀ a, is_dir cwd s' a = true
           ↔ is_dir cwd s a = true
             ∨ (a `prefix_of` foldl OsPath.normpath_step cur rest
                ∧ (length cur < length a)%nat).
Proof.
  revert cur s. induction rest as [|c rest IH]; intros cur s Hup Hfree.
  - exists s. split_and!; [done..|]. intros a. split; [by left|].
    intros [Hd|[Hp Hlen]]; [done|].
    apply prefix_length in Hp. simpl in Hp. lia.
  - apply not_elem_of_cons in Hup as [Hc Hup]. cbn [makedirs_from foldl] in *.
    destruct (String.eqb c "" || String.eqb c ".") eqn:Hskip.
    { rewrite normpath_step_skip in * by done. by apply IH. }
    rewrite normpath_step_down in * by done.
    destruct (String.eqb_spec c ".."); [done|].
    pose proof (foldl_normpath_prefix rest (cur ++ [c]) Hup) as Hk.
    assert (is_file s (cur ++ [c]) = false) as ->.
    { apply bool_decide_eq_false, Hfree; [done|]. rewrite length_app. simpl. lia. }
    set (s1 := if is_dir cwd s (cur ++ [c]) then s else _).
    assert (out_files s1 = out_files s) as Hf1 by (subst s1; by destruct (is_dir _ _ _)).
    assert (console s1 = console s) as Hc1 by (subst s1; by destruct (is_dir _ _ _)).
    assert (∀ a, is_dir cwd s1 a = true
                 ↔ is_dir cwd s a = true ∨ a = cur ++ [c]) as Hd1.
    { intros a. subst s1. destruct (is_dir cwd s (cur ++ [c])) eqn:Hd.
      - split; [by left|]. by intros [?| ->].
      - apply is_dir_add. }
    destruct (IH (cur ++ [c]) s1 Hup) as (s' & Hrun & Hf & Hcs & Hd).
    { intros a Ha Hlen. rewrite Hf1. apply Hfree; [done|].
      rewrite length_app in Hlen. simpl in Hlen. lia. }
    exists s'. split_and!; [done|congruence|congruence|].
    intros a. rewrite Hd, Hd1. rewrite length_app. simpl. split.
    + intros [[Hs| ->]|[Hp Hlen]]; [by left| |].
      * right. split; [done|]. rewrite length_app. simpl. lia.
      * right. split; [done|]. lia.
    + intros [Hs|[Hp Hlen]]; [left; by left|].
      destruct (decide (length a = S (length cur))) as [Heq|Hne].
      * left. right.
        destruct (prefix_weak_total _ _ _ Hp Hk) as [Hak|Hka].
        -- apply prefix_length_eq; [done|]. rewrite length_app. simpl. lia.
        -- symmetry. apply prefix_length_eq; [done|].
           rewrite length_app. simpl. lia.
      * right. split; [done|]. lia.
Qed.

(** The directory part of a path is found when every name on the way is a
    directory. *)
Lemma lookup_dir_ok cwd s rest cur :
  ".." ∉ rest →
  (∀ a, a `prefix_of` foldl OsPath.normpath_step cur rest →
        (length cur < length a)%nat →
        (a ∉ dom (out_files s)) ∧ is_dir cwd s a = true) →
  lookup_dir cwd s cur rest = inr (foldl OsPath.normpath_step cur rest).
Proof.
  revert cur. induction rest as [|c rest IH]; intros cur Hup Hdirs; [done|].
  apply not_elem_of_cons in Hup as [Hc Hup]. cbn [lookup_dir foldl] in *.
  destruct (String.eqb c "" || String.eqb c ".") eqn:Hskip.
  { rewrite normpath_step_skip in * by done. by apply IH. }
  rewrite normpath_step_down in * by done.
  destruct (String.eqb_spec c ".."); [done|].
  pose proof (foldl_normpath_prefix rest (cur ++ [c]) Hup) as Hk.
  destruct (Hdirs (cur ++ [c])) as [Hfile Hdir]; [done| |].
  { rewrite length_app. simpl. lia. }
  unfold is_file. rewrite (bool_decide_false _ Hfile), Hdir.
  apply IH; [done|]. intros a Ha Hlen. apply Hdirs; [done|].
  rewrite length_app in Hlen. simpl in Hlen. lia.
Qed.

(** One export of the loop: the directory is made and the file written. *)
Lemma export_step_ok cwd p c s :
  plain_path cwd p = true →
  is_dir cwd s (resolve cwd p) = false →
  (∀ a, a `prefix_of` resolve cwd p → a ≠ resolve cwd p →
        a ∉ dom (out_files s)) →
  ∃ s',
    (makedirs cwd (OsPath.dirname p);; export cwd p c) s = (inr (), s')
    ∧ out_files s' = <[resolve cwd p := c]> (out_files s)
    ∧ console s' = console s ++ [Saved p c]
    ∧ ∀ a, is_dir cwd s' a = true
           ↔ is_dir cwd s a = true
             ∨ (a `prefix_of` resolve cwd p ∧ a ≠ resolve cwd p).
Proof.
  intros Hplain Hnodir Hfree.
  destruct (plain_path_inv cwd p Hplain)
    as (init & name & Hcomps & Hname & Hup' & Hkey & Hdir & Hupd & Hdn & Hp).
  set (parent := foldl OsPath.normpath_step [] init) in *.
  apply String.eqb_neq in Hdn.
  assert (∀ a, a `prefix_of` parent
               ↔ a `prefix_of` resolve cwd p ∧ a ≠ resolve cwd p) as Hpre.
  { intros a. rewrite Hkey, prefix_snoc_cases. split.
    - intros Ha. split; [by left|]. intros ->. by apply prefix_snoc_not in Ha.
    - intros [[Ha|Ha] Hne]; done. }
  unfold mbind, M_bind, bind, makedirs.
  rewrite Hdn.
  destruct (makedirs_from_ok cwd (OsPath.components cwd (OsPath.dirname p))
              [] s Hupd) as (s1 & -> & Hf1 & Hc1 & Hd1).
  { intros a Ha _.
    change (foldl OsPath.normpath_step [] _)
      with (resolve cwd (OsPath.dirname p)) in Ha.
    rewrite Hdir in Ha. apply Hpre in Ha as [Ha Hne]. by apply Hfree. }
  change (foldl OsPath.normpath_step [] _)
    with (resolve cwd (OsPath.dirname p)) in Hd1.
  rewrite Hdir in Hd1.
  unfold export. apply String.eqb_neq in Hp. rewrite Hp.
  rewrite Hcomps, removelast_last, last_last.
  rewrite (lookup_dir_ok cwd s1 init [] Hup').
  2:{ fold parent. intros a Ha Hlen. split.
      - rewrite Hf1. apply Hpre in Ha as [Ha Hne]. by apply Hfree.
      - apply Hd1. by right. }
  fold parent. rewrite <- Hkey, Hname. cbn [negb orb].
  assert (is_dir cwd s1 (resolve cwd p) = false) as ->.
  { apply not_true_is_false. rewrite Hd1. intros [Hd|[Ha _]]; [congruence|].
    apply Hpre in Ha as [_ Hne]. done. }
  eexists. split; [reflexivity|]. cbn [out_files console out_dirs].
  split_and!; [by rewrite Hf1|by rewrite Hc1|].
  intros a. unfold is_dir at 1. cbn [out_dirs]. fold (is_dir cwd s1 a).
  rewrite Hd1, Hpre. split.
  - intros [Hd|[Hpa _]]; [by left|by right].
  - intros [Hd|Hpa]; [by left|].
    destruct a as [|x a]; [left; apply is_dir_root|].
    right. split; [done|]. simpl. lia.
Qed.

End Disk.

(** ** Running the pipeline *)

Section Run.
Context `{AudioLib}.

Lemma exports_fit_ext cwd s s' paths :
  out_files s' = out_files s → out_dirs s' = out_dirs s →
  exports_fit cwd s paths → exports_fit cwd s' paths.
Proof.
  intros Hf Hd [Hall Hcross]. split; [|done].
  eapply Forall_impl; [done|]. intros p (Hp & Hdir & Hfree).
  by rewrite (is_dir_ext cwd s s'), Hf.
Qed.

(** On a disk that holds nothing yet the test decides. *)
Lemma fits_empty_disk_spec cwd s paths :
  fits_empty_disk cwd paths = true →
  out_files s = ∅ → out_dirs s = ∅ →
  exports_fit cwd s paths.
Proof.
  unfold fits_empty_disk. intros [Hall Hcross]%andb_prop Hf Hd.
  rewrite forallb_forall in Hall, Hcross. split.
  - apply Forall_forall. intros p Hp%list_elem_of_In.
    apply Hall, andb_prop in Hp as [Hplain Hcwd]. split_and!; [done| |].
    + unfold is_dir. rewrite Hd.
      apply negb_true_iff in Hcwd. rewrite Hcwd.
      by rewrite bool_decide_false by apply not_elem_of_empty.
    + intros a _ _. rewrite Hf, dom_empty. apply not_elem_of_empty.
  - intros p q Hp%list_elem_of_In Hq%list_elem_of_In Hpre.
    specialize (Hcross p Hp). rewrite forallb_forall in Hcross.
    specialize (Hcross q Hq).
    rewrite (bool_decide_true _ Hpre) in Hcross.
    by apply bool_decide_eq_true in Hcross.
Qed.

Lemma exports_fit_tail cwd s paths1 paths2 :
  exports_fit cwd s (paths1 ++ paths2) → exports_fit cwd s paths2.
Proof.
  intros [Hall Hcross]. apply Forall_app in Hall as [_ Hall].
  split; [done|]. intros p q Hp Hq. apply Hcross; apply elem_of_app; by right.
Qed.

(** After an export the paths still to be written fit the disk as before. *)
Lemma exports_fit_step cwd s s' p c paths :
  exports_fit cwd s (p :: paths) →
  out_files s' = <[resolve cwd p := c]> (out_files s) →
  (∀ a, is_dir cwd s' a = true
        ↔ is_dir cwd s a = true
          ∨ (a `prefix_of` resolve cwd p ∧ a ≠ resolve cwd p)) →
  exports_fit cwd s' paths.
Proof.
  intros [Hall Hcross] Hf Hd.
  apply Forall_cons in Hall as [_ Hall]. split.
  - apply Forall_forall. intros q Hq.
    destruct (proj1 (Forall_forall _ _) Hall q Hq) as (Hplain & Hdir & Hfree).
    split_and!; [done| |].
    + apply not_true_is_false. rewrite Hd. intros [Hdq|[Hpre Hne]].
      * congruence.
      * apply Hne, Hcross; [by apply list_elem_of_further
                           |apply list_elem_of_here|done].
    + intros a Ha Hne. rewrite Hf, dom_insert, elem_of_union,
        elem_of_singleton.
      intros [->|Hin]; [|by apply (Hfree a)].
      apply Hne, Hcross; [apply list_elem_of_here
                         |by apply list_elem_of_further|done].
  - intros q1 q2 Hq1 Hq2. apply Hcross; by apply list_elem_of_further.
Qed.

(** The export loop on paths that fit the disk: every export succeeds. *)
Lemma for_each_export_ok {A} cwd (f : A → string) (g : A → Chunk) xs rest s :
  exports_fit cwd s (map f xs ++ rest) →
  ∃ s',
    for_each xs (λ x, makedirs cwd (OsPath.dirname (f x));;
                      export cwd (f x) (g x)) s
    = (inr (), s')
    ∧ out_files s'
      = write_all (out_files s) (map (λ x, (resolve cwd (f x), g x)) xs)
    ∧ console s' = console s ++ map (λ x, Saved (f x) (g x)) xs
    ∧ exports_fit cwd s' rest.
Proof.
  revert s. induction xs as [|x xs IH]; intros s Hfit.
  - exists s. split_and!; [done|done|by rewrite app_nil_r|done].
  - cbn [map app] in Hfit.
    pose proof Hfit as [Hall _].
    apply Forall_cons in Hall as [(Hplain & Hdir & Hfree) _].
    destruct (export_step_ok cwd (f x) (g x) s Hplain Hdir Hfree)
      as (s1 & Hrun1 & Hf1 & Hc1 & Hd1).
    destruct (IH s1) as (s' & Hrun & Hf & Hc & Hfit').
    { by eapply exports_fit_step. }
    exists s'. cbn [for_each]. unfold mbind at 1, M_bind at 1, bind at 1.
    rewrite Hrun1. split_and!; [done| | |done].
    + rewrite Hf, Hf1. done.
    + rewrite Hc, Hc1, <- app_assoc. done.
Qed.

(** [makedirs] prints nothing and writes no file, whatever it returns. *)
Lemma makedirs_from_quiet cwd rest cur s :
  console (makedirs_from cwd cur rest s).2 = console s
  ∧ out_files (makedirs_from cwd cur rest s).2 = out_files s.
Proof.
  revert cur s. induction rest as [|c rest IH]; intros cur s; [done|].
  cbn [makedirs_from].
  destruct (_ || _); [apply IH|].
  destruct (String.eqb c ".."); [apply IH|].
  destruct (is_file s (cur ++ [c])); [done|].
  destruct (IH (cur ++ [c])
              (if is_dir cwd s (cur ++ [c]) then s
               else {| out_files := out_files s;
                       out_dirs := {[ cur ++ [c] ]} ∪ out_dirs s;
                       console := console s |})) as [-> ->].
  by destruct (is_dir cwd s (cur ++ [c])).
Qed.

Lemma makedirs_quiet cwd name s :
  console (makedirs cwd name s).2 = console s
  ∧ out_files (makedirs cwd name s).2 = out_files s.
Proof.
  unfold makedirs. destruct (String.eqb name ""); [done|].
  apply makedirs_from_quiet.
Qed.

Lemma makedirs_errors cwd name s e s' :
  makedirs cwd name s = (inl e, s') → is_os_error e = true.
Proof.
  unfold makedirs. destruct (String.eqb name ""); [by intros [= <- _]|].
  generalize (@nil string) as cur. generalize (OsPath.components cwd name).
  intros rest. revert s. induction rest as [|c rest IH]; intros s cur; [done|].
  cbn [makedirs_from].
  destruct (_ || _); [apply IH|].
  destruct (String.eqb c ".."); [apply IH|].
  destruct (is_file s (cur ++ [c])); [|apply IH].
  intros [= <- _]. by destruct rest.
Qed.

Lemma lookup_dir_errors cwd s cur rest e :
  lookup_dir cwd s cur rest = inl e → is_os_error e = true.
Proof.
  revert cur. induction rest as [|c rest IH]; intros cur; [done|].
  cbn [lookup_dir].
  destruct (_ || _); [apply IH|].
  destruct (String.eqb c ".."); [apply IH|].
  destruct (is_file s (cur ++ [c])); [by intros [= <-]|].
  destruct (is_dir cwd s (cur ++ [c])); [apply IH|by intros [= <-]].
Qed.

(** What an export does, whatever it returns: an error of the system that
    leaves the state as it is, or the file written and its path printed. *)
Lemma export_cases cwd p c s :
  (∃ e, export cwd p c s = (inl e, s) ∧ is_os_error e = true)
  ∨ (∃ k, export cwd p c s
          = (inr (), {| out_files := <[k := c]> (out_files s);
                        out_dirs := out_dirs s;
                        console := console s ++ [Saved p c] |})).
Proof.
  unfold export. destruct (String.eqb p ""); [left; by eexists|].
  destruct (lookup_dir _ _ _ _) as [e|dir] eqn:Hdir.
  - left. exists e. split; [done|]. by eapply lookup_dir_errors.
  - destruct (_ || _); [left; by eexists|]. right. by eexists.
Qed.

(** The export loop, whatever it returns: the exports are saved in order up
    to the one that fails, if any, and nothing else is printed. *)
Lemma for_each_export_any {A} cwd (f : A → string) (g : A → Chunk) xs s :
  ∃ r s' (n : nat),
    for_each xs (λ x, makedirs cwd (OsPath.dirname (f x));;
                      export cwd (f x) (g x)) s
    = (r, s')
    ∧ console s' = console s ++ map (λ x, Saved (f x) (g x)) (take n xs)
    ∧ match r with
      | inl e => is_os_error e = true
      | inr _ => n = length xs
      end.
Proof.
  revert s. induction xs as [|x xs IH]; intros s.
  - exists (inr ()), s, 0%nat. by rewrite app_nil_r.
  - cbn [for_each]. unfold mbind at 1, M_bind at 1, bind at 1.
    unfold mbind at 1, M_bind at 1, bind at 1.
    pose proof (makedirs_quiet cwd (OsPath.dirname (f x)) s) as [Hc1 _].
    destruct (makedirs cwd (OsPath.dirname (f x)) s) as [[e|[]] s1] eqn:Hmk.
    { exists (inl e), s1, 0%nat. simpl in *.
      split_and!; [done|by rewrite app_nil_r|by eapply makedirs_errors]. }
    simpl in Hc1.
    destruct (export_cases cwd (f x) (g x) s1) as [(e & -> & He)|(k & ->)].
    { exists (inl e), s1, 0%nat. simpl.
      split_and!; [done|by rewrite app_nil_r|done]. }
    match goal with
    | |- context [for_each xs _ ?s2] =>
        destruct (IH s2) as (r & s' & n & -> & Hc & Hr)
    end.
    exists r, s', (S n). split_and!; [done| |].
    + rewrite Hc. cbn [console take map]. rewrite Hc1, <- app_assoc. done.
    + destruct r; [done|]. simpl. by rewrite Hr.
Qed.

Lemma export_chunks_run cwd output_root base chunks rest s :
  let exps := map (λ ic, (out_path_of output_root base (length chunks) ic.1,
                          ic.2)) (Py.enumerate chunks 1) in
  exports_fit cwd s (map fst exps ++ rest) →
  ∃ s',
    export_chunks cwd output_root base chunks s = (inr (), s')
    ∧ out_files s' = write_all (out_files s) (resolved cwd exps)
    ∧ console s' = console s ++ map (λ pc, Saved pc.1 pc.2) exps
    ∧ exports_fit cwd s' rest.
Proof.
  intros exps Hfit. subst exps. rewrite map_map in Hfit. cbn [fst] in Hfit.
  destruct (for_each_export_ok cwd
              (λ ic : nat * Chunk,
                 out_path_of output_root base (length chunks) ic.1)
              snd (Py.enumerate chunks 1) rest s Hfit)
    as (s' & Hrun & Hf & Hc & Hfit').
  exists s'. unfold export_chunks, resolved.
  rewrite !map_map. cbn [fst snd]. done.
Qed.

Lemma export_chunks_any cwd output_root base chunks s :
  let exps := map (λ ic, (out_path_of output_root base (length chunks) ic.1,
                          ic.2)) (Py.enumerate chunks 1) in
  ∃ r s' (n : nat),
    export_chunks cwd output_root base chunks s = (r, s')
    ∧ console s' = console s ++ map (λ pc, Saved pc.1 pc.2) (take n exps)
    ∧ match r with
      | inl e => is_os_error e = true
      | inr _ => n = length exps
      end.
Proof.
  intros exps.
  destruct (for_each_export_any cwd
              (λ ic : nat * Chunk,
                 out_path_of output_root base (length chunks) ic.1)
              snd (Py.enumerate chunks 1) s)
    as (r & s' & n & Hrun & Hc & Hr).
  exists r, s', n. unfold export_chunks. subst exps.
  rewrite firstn_map, map_map, length_map. cbn [fst snd]. done.
Qed.

Lemma process_file_skipped chunk_ms fs cwd info tgt skip input_root output_root s :
  is_skipped skip info = true →
  process_file chunk_ms fs cwd info tgt skip input_root output_root s =
  (inr (), {| out_files := out_files s; out_dirs := out_dirs s;
              console := console s ++ [DuplicateSkipped (info_path info)] |}).
Proof. intros Hskip. unfold process_file. by rewrite Hskip. Qed.

Lemma process_file_decode_error chunk_ms fs cwd info tgt skip input_root
    output_root s :
  is_skipped skip info = false → fs (info_path info) = None →
  process_file chunk_ms fs cwd info tgt skip input_root output_root s =
  (inl (DecodeError (info_path info)), s).
Proof. intros Hskip Hfs. unfold process_file. by rewrite Hskip, Hfs. Qed.

(** A file that is not skipped, up to the export loop: the gain is computed
    from the converted buffer and printed, then the chunks are exported. *)
Lemma process_file_unfold chunk_ms fs cwd info tgt skip input_root output_root
    decoded audio rel s :
  is_skipped skip info = false →
  fs (info_path info) = Some decoded →
  prepared fs info tgt = Some audio →
  OsPath.relpath cwd (info_path info) input_root = Some rel →
  process_file chunk_ms fs cwd info tgt skip input_root output_root s
  = export_chunks cwd output_root (OsPath.splitext rel).1
      (split_into_chunks chunk_ms (apply_gain audio (gain_for (dBFS audio))))
      {| out_files := out_files s; out_dirs := out_dirs s;
         console := console s ++ conversion_events info tgt decoded
                    ++ [GainApplied (info_path info) (gain_for (dBFS audio))] |}.
Proof.
  intros Hskip Hfs Hprep Hrel. unfold process_file. rewrite Hskip, Hfs.
  unfold prepared in Hprep. rewrite Hfs in Hprep. simpl in Hprep.
  unfold convert_channels, conversion_events.
  destruct (negb (channels decoded =? tgt)).
  - rewrite Hprep. unfold mbind, M_bind, bind, print, ret. simpl.
    rewrite Hrel. by rewrite <- !app_assoc.
  - injection Hprep as ->. unfold mbind, M_bind, bind, print, ret. simpl.
    rewrite Hrel. done.
Qed.

(** A file that is not skipped, whose steps all succeed and whose output
    paths fit the disk: the chunks are written in order. *)
Lemma process_file_ok chunk_ms fs cwd info tgt skip input_root output_root
    decoded audio rel rest s :
  is_skipped skip info = false →
  fs (info_path info) = Some decoded →
  prepared fs info tgt = Some audio →
  OsPath.relpath cwd (info_path info) input_root = Some rel →
  let exps := exports_of chunk_ms output_root (OsPath.splitext rel).1 audio in
  exports_fit cwd s (map fst exps ++ rest) →
  ∃ s',
    process_file chunk_ms fs cwd info tgt skip input_root output_root s
    = (inr (), s')
    ∧ out_files s' = write_all (out_files s) (resolved cwd exps)
    ∧ console s'
      = console s ++ conversion_events info tgt decoded
        ++ [GainApplied (info_path info) (gain_for (dBFS audio))]
        ++ map (λ pc, Saved pc.1 pc.2) exps
    ∧ exports_fit cwd s' rest.
Proof.
  intros Hskip Hfs Hprep Hrel exps Hfit.
  rewrite (process_file_unfold _ _ _ _ _ _ _ _ decoded audio rel) by done.
  match goal with
  | |- context [export_chunks _ _ _ _ ?s0] =>
      destruct (export_chunks_run cwd output_root (OsPath.splitext rel).1
                  (split_into_chunks chunk_ms
                     (apply_gain audio (gain_for (dBFS audio)))) rest s0)
        as (s' & Hrun & Hf & Hc & Hfit')
  end.
  { by apply (exports_fit_ext cwd s). }
  exists s'. split_and!; [done|done| |done].
  rewrite Hc. cbn [console]. by rewrite <- !app_assoc.
Qed.

Lemma write_all_app {K} `{!EqDecision K, !Countable K}
    (files : gmap K Chunk) exps1 exps2 :
  write_all (write_all files exps1) exps2 = write_all files (exps1 ++ exps2).
Proof. unfold write_all. by rewrite foldl_app. Qed.

(** The last writer wins. *)
Lemma write_all_lookup {K} `{!EqDecision K, !Countable K}
    (files : gmap K Chunk) exps p :
  write_all files exps !! p
  = match last_write p exps with Some c => Some c | None => files !! p end.
Proof.
  unfold last_write.
  induction exps as [|pc exps IH] using rev_ind; [done|].
  rewrite <- write_all_app. simpl. rewrite filter_app, filter_cons, filter_nil.
  destruct (decide (pc.1 = p)) as [<-|Hne].
  - by rewrite last_snoc, lookup_insert_eq.
  - rewrite app_nil_r, lookup_insert_ne by done. apply IH.
Qed.

Lemma file_exports_inv chunk_ms fs cwd info tgt input_root output_root exps :
  file_exports chunk_ms fs cwd info tgt input_root output_root = Some exps →
  ∃ decoded audio rel,
    fs (info_path info) = Some decoded
    ∧ prepared fs info tgt = Some audio
    ∧ OsPath.relpath cwd (info_path info) input_root = Some rel
    ∧ exps = exports_of chunk_ms output_root (OsPath.splitext rel).1 audio.
Proof.
  unfold file_exports. intros Hexp.
  destruct (prepared fs info tgt) as [audio|] eqn:Hprep; [|done].
  destruct (OsPath.relpath _ _ _) as [rel|] eqn:Hrel; [|done].
  injection Hexp as <-.
  assert (is_Some (fs (info_path info))) as [decoded Hfs].
  { unfold prepared in Hprep. by destruct (fs (info_path info)). }
  by exists decoded, audio, rel.
Qed.

Lemma saved_paths_app evs1 evs2 :
  saved_paths (evs1 ++ evs2) = saved_paths evs1 ++ saved_paths evs2.
Proof. apply omap_app. Qed.

Lemma saved_paths_saved (exps : list (string * Chunk)) :
  saved_paths (map (λ pc, Saved pc.1 pc.2) exps) = map fst exps.
Proof. induction exps as [|pc exps IH]; [done|]. simpl. by rewrite <- IH. Qed.

Lemma saved_paths_conversion info tgt decoded :
  saved_paths (conversion_events info tgt decoded) = [].
Proof. unfold conversion_events. by destruct (negb _). Qed.

Lemma resolved_app cwd (exps1 exps2 : list (string * Chunk)) :
  resolved cwd (exps1 ++ exps2) = resolved cwd exps1 ++ resolved cwd exps2.
Proof. apply map_app. Qed.

(** The processing loop, when every file that is not skipped can be
    processed and the output paths fit the disk: no exception, and the
    exports are written in scan order. *)
Lemma process_loop_ok chunk_ms fs cwd meta tgt skip input_root output_root s :
  Forall (λ info, is_Some (file_exports chunk_ms fs cwd info tgt
                                         input_root output_root))
         (survivors skip meta) →
  exports_fit cwd s
    (map fst (batch_exports chunk_ms fs cwd meta tgt skip
                            input_root output_root)) →
  ∃ s' evs,
    for_each meta (λ info, process_file chunk_ms fs cwd info tgt skip
                                        input_root output_root) s
    = (inr (), s')
    ∧ out_files s'
      = write_all (out_files s)
          (resolved cwd (batch_exports chunk_ms fs cwd meta tgt skip
                                       input_root output_root))
    ∧ console s' = console s ++ evs
    ∧ saved_paths evs
      = map fst (batch_exports chunk_ms fs cwd meta tgt skip
                               input_root output_root).
Proof.
  revert s. induction meta as [|info meta IH]; intros s Hall Hfit.
  - exists s, []. split_and!; [done|done|by rewrite app_nil_r|done].
  - unfold batch_exports, survivors in *. cbn [List.filter] in *.
    cbn [for_each]. unfold mbind at 1, M_bind at 1, bind at 1.
    destruct (is_skipped skip info) eqn:Hskip; cbn [negb] in *.
    + rewrite process_file_skipped by done.
      match goal with
      | |- context [for_each meta _ ?s1] =>
          destruct (IH s1 Hall) as (s' & evs & -> & Hf & Hc & Hsaved)
      end.
      { by apply (exports_fit_ext cwd s). }
      exists s', (DuplicateSkipped (info_path info) :: evs).
      split_and!; [done|done| |done].
      rewrite Hc. cbn [console]. by rewrite <- app_assoc.
    + apply Forall_cons in Hall as [[exps Hexps] Hall].
      cbn [flat_map] in *. rewrite Hexps in *. cbn [default] in *.
      destruct (file_exports_inv _ _ _ _ _ _ _ _ Hexps)
        as (decoded & audio & rel & Hfs & Hprep & Hrel & ->).
      rewrite map_app in Hfit.
      destruct (process_file_ok chunk_ms fs cwd info tgt skip input_root
                  output_root decoded audio rel _ s Hskip Hfs Hprep Hrel Hfit)
        as (s1 & -> & Hf1 & Hc1 & Hfit1).
      destruct (IH s1 Hall Hfit1) as (s' & evs & -> & Hf & Hc & Hsaved).
      exists s', (conversion_events info tgt decoded
                  ++ [GainApplied (info_path info) (gain_for (dBFS audio))]
                  ++ map (λ pc, Saved pc.1 pc.2)
                         (exports_of chunk_ms output_root
                                     (OsPath.splitext rel).1 audio)
                  ++ evs).
      split_and!; [done| | |].
      * by rewrite Hf, Hf1, write_all_app, resolved_app.
      * rewrite Hc, Hc1, <- !app_assoc. done.
      * rewrite !saved_paths_app, saved_paths_conversion, saved_paths_saved.
        simpl. by rewrite Hsaved, map_app.
Qed.

(** C5 (amended): the pipeline checks no output path against another.
    When every file that is not skipped can be processed and the output
    paths fit the disk (each has a directory part and no [".."], none is a
    directory or lies below a regular file or below another output path;
    two of them may well name the same file), the run ends without an
    error and each file holds the last chunk exported to it: where two
    source files resolve to the same output path, the later one in scan
    order replaces the earlier one. *)
Theorem colliding_exports_overwrite chunk_ms fs cwd meta skip input_root
    output_root s :
  build_skip_md5 meta (report_duplicates meta) = Some skip →
  Forall (λ info, is_Some (file_exports chunk_ms fs cwd info
                             (decide_target_channels meta)
                             input_root output_root))
         (survivors skip meta) →
  exports_fit cwd s
    (map fst (batch_exports chunk_ms fs cwd meta
                (decide_target_channels meta) skip input_root output_root)) →
  ∃ s',
    process_batch chunk_ms fs cwd meta input_root output_root s = (inr (), s')
    ∧ saved_paths (console s')
      = saved_paths (console s)
        ++ map fst (batch_exports chunk_ms fs cwd meta
                      (decide_target_channels meta) skip input_root output_root)
    ∧ ∀ k,
        out_files s' !! k
        = match last_write k
                  (resolved cwd
                     (batch_exports chunk_ms fs cwd meta
                        (decide_target_channels meta) skip
                        input_root output_root))
          with
          | Some c => Some c
          | None => out_files s !! k
          end.
Proof.
  intros Hskip Hall Hfit. unfold process_batch. rewrite Hskip.
  destruct (process_loop_ok _ _ _ _ _ _ _ _ s Hall Hfit)
    as (s' & evs & -> & Hf & Hc & Hsaved).
  exists s'. split; [done|]. split.
  - by rewrite Hc, saved_paths_app, Hsaved.
  - intros k. rewrite Hf. apply write_all_lookup.
Qed.


(** ** The scan isolates decode failures *)

Lemma analyze_file_spec fs dirpath meta fn s :
  ∃ evs,
    analyze_file fs dirpath meta fn s
    = (inr (meta ++ option_list (scan_file fs dirpath fn)),
       {| out_files := out_files s; out_dirs := out_dirs s;
          console := console s ++ evs |})
    ∧ Forall (λ ev, ∃ full, ev = CouldNotOpen full ∧ fs full = None) evs.
Proof.
  unfold analyze_file, scan_file.
  destruct (Str.endswith_any _ _); simpl.
  - destruct (fs (OsPath.join dirpath fn)) as [audio|] eqn:Hfs; simpl.
    + exists []. split; [|constructor].
      unfold ret. destruct s. simpl. by rewrite app_nil_r.
    + exists [CouldNotOpen (OsPath.join dirpath fn)]. split.
      * unfold mbind, M_bind, bind, print, ret. simpl. by rewrite app_nil_r.
      * repeat constructor. eauto.
  - exists []. split; [|constructor].
    unfold ret. destruct s. simpl. by rewrite !app_nil_r.
Qed.

Lemma analyze_files_spec fs dirpath files meta s :
  ∃ evs,
    fold_each files meta (analyze_file fs dirpath) s
    = (inr (meta ++ omap (scan_file fs dirpath) files),
       {| out_files := out_files s; out_dirs := out_dirs s;
          console := console s ++ evs |})
    ∧ Forall (λ ev, ∃ full, ev = CouldNotOpen full ∧ fs full = None) evs.
Proof.
  revert meta s. induction files as [|fn files IH]; intros meta s; simpl.
  - exists []. split; [|constructor].
    unfold ret. destruct s. simpl. by rewrite !app_nil_r.
  - unfold mbind, M_bind, bind.
    destruct (analyze_file_spec fs dirpath meta fn s) as (evs1 & -> & Hevs1).
    match goal with
    | |- context [fold_each files ?m ?f ?s1] =>
        destruct (IH m s1) as (evs2 & -> & Hevs2)
    end.
    exists (evs1 ++ evs2). simpl. split.
    + f_equal.
      * f_equal. rewrite <- app_assoc. f_equal.
        by destruct (scan_file fs dirpath fn).
      * f_equal. by rewrite <- app_assoc.
    + by apply Forall_app.
Qed.

Lemma analyze_walk_spec fs walk meta s :
  ∃ evs,
    fold_each walk meta
      (λ meta entry, fold_each entry.2 meta (analyze_file fs entry.1)) s
    = (inr (meta ++ scanned fs walk),
       {| out_files := out_files s; out_dirs := out_dirs s;
          console := console s ++ evs |})
    ∧ Forall (λ ev, ∃ full, ev = CouldNotOpen full ∧ fs full = None) evs.
Proof.
  revert meta s. induction walk as [|entry walk IH]; intros meta s; simpl.
  - exists []. split; [|constructor].
    unfold ret. destruct s. simpl. by rewrite !app_nil_r.
  - unfold mbind, M_bind, bind.
    destruct (analyze_files_spec fs entry.1 entry.2 meta s)
      as (evs1 & -> & Hevs1).
    match goal with
    | |- context [fold_each walk ?m ?f ?s1] =>
        destruct (IH m s1) as (evs2 & -> & Hevs2)
    end.
    exists (evs1 ++ evs2). simpl. split.
    + by rewrite <- !app_assoc.
    + by apply Forall_app.
Qed.

(** [analyze_directory] never raises: a file that does not decode is
    reported and left out, and every other supported file is recorded. *)
Lemma analyze_directory_spec fs walk s :
  ∃ evs,
    analyze_directory fs walk s
    = (inr (scanned fs walk),
       {| out_files := out_files s; out_dirs := out_dirs s;
          console := console s ++ evs |})
    ∧ Forall (λ ev, ∃ full, ev = CouldNotOpen full ∧ fs full = None) evs.
Proof. apply (analyze_walk_spec fs walk []). Qed.

(** In the processing loop nothing catches the exception of the second
    decode: the loop ends at the first file that fails to decode. *)
Lemma decode_error_stops_loop chunk_ms fs cwd info meta tgt skip input_root
    output_root s :
  is_skipped skip info = false → fs (info_path info) = None →
  for_each (info :: meta)
    (λ info, process_file chunk_ms fs cwd info tgt skip input_root output_root) s
  = (inl (DecodeError (info_path info)), s).
Proof.
  intros Hskip Hfs. simpl. unfold mbind, M_bind, bind.
  by rewrite process_file_decode_error.
Qed.

(** ** One file: gain and export names *)

Lemma enumerate_fst {A} (xs : list A) (start : nat) :
  map fst (Py.enumerate xs start) = seq start (length xs).
Proof.
  unfold Py.enumerate. revert start.
  induction xs as [|x xs IH]; intros start; simpl; [done|].
  f_equal; [lia|]. rewrite <- IH. f_equal.
  apply imap_ext. intros i y _. simpl. f_equal. lia.
Qed.

Lemma split_into_chunks_length chunk_ms audio :
  0 < chunk_ms →
  length (split_into_chunks chunk_ms audio)
  = Z.to_nat (Py.ceil_div (len audio) chunk_ms).
Proof.
  intros Hc. unfold split_into_chunks.
  rewrite length_map. apply split_bounds_length; [done|apply len_nonneg].
Qed.

Lemma exports_of_paths chunk_ms output_root base audio :
  0 < chunk_ms →
  map fst (exports_of chunk_ms output_root base audio)
  = map (out_path_of output_root base
           (Z.to_nat (Py.ceil_div (len audio) chunk_ms)))
        (seq 1 (Z.to_nat (Py.ceil_div (len audio) chunk_ms))).
Proof.
  intros Hc. unfold exports_of. cbv zeta.
  rewrite map_map. simpl.
  rewrite <- (map_map fst (out_path_of output_root base _)).
  by rewrite enumerate_fst, split_into_chunks_length, len_apply_gain.
Qed.

Lemma exports_of_audio chunk_ms output_root base audio :
  Forall (λ pc, chunk_audio pc.2 = apply_gain audio (gain_for (dBFS audio)))
         (exports_of chunk_ms output_root base audio).
Proof.
  unfold exports_of, split_into_chunks, Py.enumerate. cbv zeta.
  apply Forall_forall. intros pc Hpc.
  apply list_elem_of_fmap in Hpc as ([idx c] & -> & Hic).
  apply list_elem_of_lookup in Hic as [i Hi].
  rewrite list_lookup_imap in Hi.
  destruct (_ !! i) as [c'|] eqn:Hc'; [|done]. simpl in Hi.
  injection Hi as _ <-. simpl.
  rewrite list_lookup_fmap in Hc'.
  destruct (_ !! i) as [b|]; [|done]. simpl in Hc'. by injection Hc' as <-.
Qed.

Lemma gains_applied_app evs1 evs2 :
  gains_applied (evs1 ++ evs2) = gains_applied evs1 ++ gains_applied evs2.
Proof. apply omap_app. Qed.

Lemma gains_applied_saved (exps : list (string * Chunk)) :
  gains_applied (map (λ pc, Saved pc.1 pc.2) exps) = [].
Proof. by induction exps. Qed.

Lemma gains_applied_conversion info tgt decoded :
  gains_applied (conversion_events info tgt decoded) = [].
Proof. unfold conversion_events. by destruct (negb _). Qed.

Lemma saved_paths_take (exps : list (string * Chunk)) (n : nat) :
  saved_paths (map (λ pc, Saved pc.1 pc.2) (take n exps))
  = take n (map fst exps).
Proof. by rewrite saved_paths_saved, firstn_map. Qed.

(** What a file that is processed leaves behind when its output paths fit
    the disk. *)
Lemma process_file_run chunk_ms fs cwd info tgt skip input_root output_root
    audio rel s :
  is_skipped skip info = false →
  prepared fs info tgt = Some audio →
  OsPath.relpath cwd (info_path info) input_root = Some rel →
  let exps := exports_of chunk_ms output_root (OsPath.splitext rel).1 audio in
  exports_fit cwd s (map fst exps) →
  ∃ s',
    process_file chunk_ms fs cwd info tgt skip input_root output_root s
    = (inr (), s')
    ∧ out_files s' = write_all (out_files s) (resolved cwd exps)
    ∧ gains_applied (console s')
      = gains_applied (console s) ++ [(info_path info, gain_for (dBFS audio))]
    ∧ saved_paths (console s') = saved_paths (console s) ++ map fst exps.
Proof.
  intros Hskip Hprep Hrel exps Hfit.
  assert (is_Some (fs (info_path info))) as [decoded Hfs].
  { unfold prepared in Hprep. by destruct (fs (info_path info)). }
  rewrite <- (app_nil_r (map fst exps)) in Hfit.
  destruct (process_file_ok chunk_ms fs cwd info tgt skip input_root
              output_root decoded audio rel [] s Hskip Hfs Hprep Hrel Hfit)
    as (s' & Hrun & Hf & Hc & _).
  exists s'. split_and!; [done|done|..]; rewrite Hc.
  - rewrite !gains_applied_app, gains_applied_conversion, gains_applied_saved.
    by rewrite app_nil_r.
  - by rewrite !saved_paths_app, saved_paths_conversion, saved_paths_saved.
Qed.

(** What a file that is processed leaves behind, whatever the disk: the
    gain is applied and printed before anything is written; the parts are
    saved in order, up to the first one the system refuses, if any. *)
Lemma process_file_any chunk_ms fs cwd info tgt skip input_root output_root
    audio rel s :
  is_skipped skip info = false →
  prepared fs info tgt = Some audio →
  OsPath.relpath cwd (info_path info) input_root = Some rel →
  let exps := exports_of chunk_ms output_root (OsPath.splitext rel).1 audio in
  ∃ r s' (n : nat),
    process_file chunk_ms fs cwd info tgt skip input_root output_root s
    = (r, s')
    ∧ gains_applied (console s')
      = gains_applied (console s) ++ [(info_path info, gain_for (dBFS audio))]
    ∧ saved_paths (console s')
      = saved_paths (console s) ++ take n (map fst exps)
    ∧ match r with
      | inl e => is_os_error e = true
      | inr _ => n = length exps
      end.
Proof.
  intros Hskip Hprep Hrel exps.
  assert (is_Some (fs (info_path info))) as [decoded Hfs].
  { unfold prepared in Hprep. by destruct (fs (info_path info)). }
  rewrite (process_file_unfold _ _ _ _ _ _ _ _ decoded audio rel) by done.
  match goal with
  | |- context [export_chunks _ _ _ _ ?s0] =>
      destruct (export_chunks_any cwd output_root (OsPath.splitext rel).1
                  (split_into_chunks chunk_ms
                     (apply_gain audio (gain_for (dBFS audio)))) s0)
        as (r & s' & n & Hrun & Hc & Hr)
  end.
  exists r, s', n. split_and!; [done| | |done]; rewrite Hc; cbn [console].
  - rewrite !gains_applied_app, gains_applied_conversion.
    rewrite (gains_applied_saved (take n _)).
    by rewrite app_nil_r.
  - rewrite !saved_paths_app, saved_paths_conversion.
    rewrite (saved_paths_take _ n). simpl. by rewrite app_nil_r.
Qed.

(** C9: for every buffer that is normalised, whatever its measured loudness
    (finite or not), the gain applied is [TARGET_RMS_DBFS - dBFS]; a buffer
    measured at the target gets a gain of exactly 0 dB, so it is left as it is
    wherever a gain of 0 dB changes nothing.  The gain is applied whatever
    becomes of the exports; where the output paths fit the disk the file
    ends normally with its parts written. *)
Theorem gain_is_target_minus_measured chunk_ms fs cwd info tgt skip input_root
    output_root audio rel s :
  is_skipped skip info = false →
  prepared fs info tgt = Some audio →
  OsPath.relpath cwd (info_path info) input_root = Some rel →
  let exps := exports_of chunk_ms output_root (OsPath.splitext rel).1 audio in
  (∃ r s',
     process_file chunk_ms fs cwd info tgt skip input_root output_root s
     = (r, s')
     ∧ gains_applied (console s')
       = gains_applied (console s)
         ++ [(info_path info, PrimFloat.sub TARGET_RMS_DBFS (dBFS audio))])
  ∧ (exports_fit cwd s (map fst exps) →
     ∃ s',
       process_file chunk_ms fs cwd info tgt skip input_root output_root s
       = (inr (), s')
       ∧ gains_applied (console s')
         = gains_applied (console s)
           ++ [(info_path info, PrimFloat.sub TARGET_RMS_DBFS (dBFS audio))]
       ∧ out_files s' = write_all (out_files s) (resolved cwd exps))
  ∧ Forall (λ pc, chunk_audio pc.2
                  = apply_gain audio
                      (PrimFloat.sub TARGET_RMS_DBFS (dBFS audio)))
           exps
  ∧ (dBFS audio = TARGET_RMS_DBFS →
     PrimFloat.sub TARGET_RMS_DBFS (dBFS audio) = 0%float
     ∧ (apply_gain audio 0%float = audio →
        apply_gain audio (PrimFloat.sub TARGET_RMS_DBFS (dBFS audio))
        = audio)).
Proof.
  intros Hskip Hprep Hrel exps. split_and!.
  - destruct (process_file_any chunk_ms fs cwd info tgt skip input_root
                output_root audio rel s Hskip Hprep Hrel)
      as (r & s' & n & Hrun & Hgain & _).
    by exists r, s'.
  - intros Hfit.
    destruct (process_file_run chunk_ms fs cwd info tgt skip input_root
                output_root audio rel s Hskip Hprep Hrel Hfit)
      as (s' & Hrun & Hfiles & Hgain & _).
    by exists s'.
  - apply exports_of_audio.
  - intros ->. split; [reflexivity|]. intros Hzero.
    by change (PrimFloat.sub TARGET_RMS_DBFS TARGET_RMS_DBFS) with 0%float.
Qed.


(** The names of the parts of a file cut in [n] chunks. *)
Lemma ceil_div_gt_one a b : 0 < b → 0 ≤ a → (1 < Py.ceil_div a b ↔ b < a).
Proof. intros Hb Ha. pose proof (ceil_div_bounds a b Hb). nia. Qed.

(** C7 (amended): the files saved for a source file are named after its
    path relative to the input root, without the extension [splitext]
    finds, and with [.mp3] appended.  The extension is the last dot of the
    file name and what follows it when a character other than a dot stands
    before that dot in the file name: the base then ends before that dot.
    A file name with no dot, or with only dots before its last dot (as
    [.wav]), has no extension: the base is the whole relative path.  A
    suffix [_part{index}], counted from 1, is inserted if and only if the
    file is cut in more than one chunk.  With the limit of 119 min 58 s a
    file of 150 minutes gives [_part1] and [_part2], a file of 30 minutes
    gives one file without suffix.  Whatever the disk, the files saved are
    the first of these names, in order; where the names fit the disk, all
    are saved. *)
Theorem export_naming chunk_ms fs cwd info tgt skip input_root output_root
    audio rel s :
  0 < chunk_ms →
  is_skipped skip info = false →
  prepared fs info tgt = Some audio →
  OsPath.relpath cwd (info_path info) input_root = Some rel →
  let base := (OsPath.splitext rel).1 in
  let n := Z.to_nat (Py.ceil_div (len audio) chunk_ms) in
  let names :=
    map (λ idx : nat,
           OsPath.join output_root
             (base +:+ (if (1 <? n)%nat then "_part" +:+ pretty idx else "")
                   +:+ ".mp3"))
        (seq 1 n) in
  (∃ r s' (k : nat),
     process_file chunk_ms fs cwd info tgt skip input_root output_root s
     = (r, s')
     ∧ saved_paths (console s') = saved_paths (console s) ++ take k names
     ∧ (r = inr () → k = n))
  ∧ (exports_fit cwd s names →
     ∃ s',
       process_file chunk_ms fs cwd info tgt skip input_root output_root s
       = (inr (), s')
       ∧ saved_paths (console s') = saved_paths (console s) ++ names)
  ∧ base +:+ (OsPath.splitext rel).2 = rel
  ∧ ((OsPath.splitext rel).2 = ""
     ∨ (String.get 0 (OsPath.splitext rel).2 = Some "."%char
        ∧ ∀ k : nat, (0 < k)%nat →
            String.get k (OsPath.splitext rel).2 ≠ Some "."%char
            ∧ String.get k (OsPath.splitext rel).2 ≠ Some "/"%char))
  ∧ (∀ pre a stem e,
       rel = pre +:+ String a stem +:+ "." +:+ e →
       a ≠ "."%char → a ≠ "/"%char → Str.contains "/" stem = false →
       Str.contains "." e = false → Str.contains "/" e = false →
       base = pre +:+ String a stem)
  ∧ (∀ pre dots e,
       rel = pre +:+ dots +:+ e →
       pre = "" ∨ (∃ pre', pre = pre' +:+ "/") →
       Str.all_char "." dots = true →
       Str.contains "." e = false → Str.contains "/" e = false →
       base = rel)
  ∧ ((1 < n)%nat ↔ chunk_ms < len audio)
  ∧ (0 < len audio ≤ chunk_ms →
     names = [OsPath.join output_root (base +:+ ".mp3")])
  ∧ (chunk_ms = CHUNK_SIZE_MS → len audio = 150 * 60 * 1000 →
     names = [OsPath.join output_root (base +:+ "_part1.mp3");
              OsPath.join output_root (base +:+ "_part2.mp3")])
  ∧ (chunk_ms = CHUNK_SIZE_MS → len audio = 30 * 60 * 1000 →
     names = [OsPath.join output_root (base +:+ ".mp3")]).
Proof.
  intros Hc Hskip Hprep Hrel base n names.
  assert (map fst (exports_of chunk_ms output_root base audio) = names)
    as Hnames by (by rewrite exports_of_paths).
  split_and!.
  - destruct (process_file_any chunk_ms fs cwd info tgt skip input_root
                output_root audio rel s Hskip Hprep Hrel)
      as (r & s' & k & Hrun & _ & Hsaved & Hr).
    fold base in Hsaved, Hr. rewrite Hnames in Hsaved.
    exists r, s', k. split_and!; [done..|]. intros ->.
    rewrite Hr, <- (length_map fst), Hnames. subst names.
    by rewrite length_map, length_seq.
  - intros Hfit. rewrite <- Hnames in Hfit.
    destruct (process_file_run chunk_ms fs cwd info tgt skip input_root
                output_root audio rel s Hskip Hprep Hrel Hfit)
      as (s' & Hrun & _ & _ & Hsaved).
    fold base in Hsaved. rewrite Hnames in Hsaved. by exists s'.
  - apply splitext_join.
  - apply splitext_ext.
  - intros pre a stem e -> Ha_dot Ha_sep Hstem He_dot He_sep. subst base.
    by rewrite splitext_strips.
  - intros pre dots e -> Hpre Hdots He_dot He_sep. subst base.
    by rewrite splitext_keeps.
  - pose proof (len_nonneg audio) as Hlen.
    pose proof (ceil_div_gt_one (len audio) chunk_ms Hc Hlen).
    pose proof (ceil_div_bounds (len audio) chunk_ms Hc).
    subst n. lia.
  - intros Hshort. subst names n.
    by rewrite ceil_div_small by done.
  - intros -> Hlen. subst names n. by rewrite Hlen.
  - intros -> Hlen. subst names n. by rewrite Hlen.
Qed.

(** ** More on the scan *)

Lemma scanned_elem fs walk info :
  info ∈ scanned fs walk ↔
  ∃ dirpath files fn audio,
    (dirpath, files) ∈ walk ∧ fn ∈ files
    ∧ Str.endswith_any (Str.lower fn) SUPPORTED_EXTS = true
    ∧ fs (OsPath.join dirpath fn) = Some audio
    ∧ info = {| info_path := OsPath.join dirpath fn;
                info_duration := len audio;
                info_channels := channels audio;
                info_dBFS := dBFS audio;
                info_md5 := md5_hexdigest (raw_data audio) |}.
Proof.
  unfold scanned. rewrite list_elem_of_In, in_flat_map. split.
  - intros ([dirpath files] & Hentry%list_elem_of_In & Hin%list_elem_of_In).
    apply list_elem_of_omap in Hin as (fn & Hfn & Hscan).
    unfold scan_file in Hscan. cbn [fst snd] in Hscan, Hfn.
    destruct (Str.endswith_any _ _) eqn:Hext; [|done].
    destruct (fs (OsPath.join dirpath fn)) as [audio|] eqn:Hfs; [|done].
    simpl in Hscan. injection Hscan as <-.
    by exists dirpath, files, fn, audio.
  - intros (dirpath & files & fn & audio & Hentry & Hfn & Hext & Hfs & ->).
    exists (dirpath, files). split; [by apply list_elem_of_In|].
    apply list_elem_of_In, list_elem_of_omap. exists fn. split; [done|].
    unfold scan_file. cbn [fst snd]. by rewrite Hext, Hfs.
Qed.

(** [analyze_directory] never raises and writes no file and makes no
    directory.  Its result holds
    a record for exactly the files with a supported extension that decode,
    with the length, channels, loudness and digest of the decoded buffer;
    every message it prints names a file that does not decode. *)
Theorem scan_records_decodable_files fs walk s :
  ∃ meta evs,
    analyze_directory fs walk s
    = (inr meta, {| out_files := out_files s; out_dirs := out_dirs s;
                    console := console s ++ evs |})
    ∧ Forall (λ ev, ∃ full, ev = CouldNotOpen full ∧ fs full = None) evs
    ∧ ∀ info, info ∈ meta ↔
        ∃ dirpath files fn audio,
          (dirpath, files) ∈ walk ∧ fn ∈ files
          ∧ Str.endswith_any (Str.lower fn) SUPPORTED_EXTS = true
          ∧ fs (OsPath.join dirpath fn) = Some audio
          ∧ info = {| info_path := OsPath.join dirpath fn;
                      info_duration := len audio;
                      info_channels := channels audio;
                      info_dBFS := dBFS audio;
                      info_md5 := md5_hexdigest (raw_data audio) |}.
Proof.
  destruct (analyze_directory_spec fs walk s) as (evs & Hrun & Hevs).
  exists (scanned fs walk), evs. split_and!; [done..|].
  apply scanned_elem.
Qed.

(** ** More on the main block *)


Lemma for_each_app {A} (xs ys : list A) (body : A → M unit) s :
  for_each (xs ++ ys) body s
  = match for_each xs body s with
    | (inl e, s') => (inl e, s')
    | (inr _, s') => for_each ys body s'
    end.
Proof.
  revert s. induction xs as [|x xs IH]; intros s; simpl; [done|].
  unfold mbind, M_bind, bind. destruct (body x s) as [[e|[]] s1]; [done|].
  apply IH.
Qed.

(** A decode failure while processing ends the loop at that file: what the
    files before it exported stays as it is, and no file after it is
    processed, whatever those files are. *)
Theorem decode_error_keeps_earlier_exports chunk_ms fs cwd pre info post tgt
    skip input_root output_root s s1 :
  for_each pre (λ info, process_file chunk_ms fs cwd info tgt skip
                                     input_root output_root) s
  = (inr (), s1) →
  is_skipped skip info = false →
  fs (info_path info) = None →
  for_each (pre ++ info :: post)
    (λ info, process_file chunk_ms fs cwd info tgt skip input_root output_root)
    s
  = (inl (DecodeError (info_path info)), s1).
Proof.
  intros Hpre Hskip Hfs. rewrite for_each_app, Hpre.
  by apply decode_error_stops_loop.
Qed.

Lemma process_file_errors chunk_ms fs cwd info tgt skip input_root output_root
    s e s' :
  process_file chunk_ms fs cwd info tgt skip input_root output_root s
  = (inl e, s') →
  (e = DecodeError (info_path info) ∧ fs (info_path info) = None)
  ∨ e = ChannelConversionError (info_path info)
  ∨ e = ValueError
  ∨ is_os_error e = true.
Proof.
  unfold process_file. destruct (is_skipped skip info); [done|].
  destruct (fs (info_path info)) as [decoded|]; [|intros [= <- _]; by left].
  unfold convert_channels, mbind, M_bind, bind, print, ret, raise.
  destruct (negb _).
  - destruct (set_channels decoded tgt); simpl; [|intros [= <- _]; auto].
    destruct (OsPath.relpath _ _ _); [|intros [= <- _]; auto].
    match goal with
    | |- export_chunks ?c ?o ?b ?ch ?s0 = _ → _ =>
        destruct (export_chunks_any c o b ch s0) as (r & s1 & n & -> & _ & Hr)
    end.
    intros [= -> _]. auto.
  - simpl. destruct (OsPath.relpath _ _ _); [|intros [= <- _]; auto].
    match goal with
    | |- export_chunks ?c ?o ?b ?ch ?s0 = _ → _ =>
        destruct (export_chunks_any c o b ch s0) as (r & s1 & n & -> & _ & Hr)
    end.
    intros [= -> _]. auto.
Qed.

Lemma process_loop_errors chunk_ms fs cwd meta tgt skip input_root output_root
    s e s' :
  Forall (λ info, fs (info_path info) ≠ None) meta →
  for_each meta (λ info, process_file chunk_ms fs cwd info tgt skip
                                      input_root output_root) s
  = (inl e, s') →
  ∀ p, e ≠ DecodeError p.
Proof.
  intros Hall. revert s. induction Hall as [|info meta Hfs _ IH]; intros s.
  - done.
  - simpl. unfold mbind, M_bind, bind.
    destruct (process_file _ _ _ info _ _ _ _ s) as [[e1|[]] s1] eqn:Hfile.
    + intros [= <- _] p.
      apply process_file_errors in Hfile as [[_ ?]|[->|[->|Hos]]]; try done.
      by intros ->.
    + apply IH.
Qed.

(** When the files read by the scan are still the same while they are
    processed, a run never ends with a decode error: every file
    [process_file] decodes was decoded by the scan. *)
Theorem stable_files_never_fail_to_decode chunk_ms walk fs cwd input_root
    output_root s e s' :
  main chunk_ms walk fs fs cwd input_root output_root s = (inl e, s') →
  ∀ p, e ≠ DecodeError p.
Proof.
  unfold main, mbind, M_bind, bind.
  destruct (analyze_directory_spec fs walk s) as (evs & -> & _).
  assert (Forall (λ info, fs (info_path info) ≠ None) (scanned fs walk))
    as Hall.
  { apply Forall_forall. intros info Hin.
    apply scanned_elem in Hin as (? & ? & ? & audio & _ & _ & _ & Hfs & ->).
    simpl. by rewrite Hfs. }
  destruct (scanned fs walk) as [|info meta] eqn:Hmeta.
  { by intros [= <- _] p. }
  unfold process_batch.
  destruct (build_skip_md5 _ _); [|by intros [= <- _] p].
  apply process_loop_errors. done.
Qed.

(** ** More on one file: every part is on disk *)

Lemma write_all_distinct {K} `{!EqDecision K, !Countable K}
    (files : gmap K Chunk) (exps : list (K * Chunk)) p c :
  NoDup (map fst exps) → (p, c) ∈ exps → write_all files exps !! p = Some c.
Proof.
  induction exps as [|[q d] exps IH] using rev_ind; [by intros _ ?%elem_of_nil|].
  rewrite map_app, <- write_all_app. simpl.
  intros Hnd [Hin|Hlast%list_elem_of_singleton]%elem_of_app.
  - apply NoDup_app in Hnd as (Hnd & Hdisj & _).
    rewrite lookup_insert_ne; [by apply IH|].
    intros <-. apply (Hdisj q); [|apply list_elem_of_here].
    by apply (list_elem_of_fmap_2 fst _ (q, c)).
  - injection Hlast as -> ->. apply lookup_insert_eq.
Qed.

Lemma write_all_other {K} `{!EqDecision K, !Countable K}
    (files : gmap K Chunk) (exps : list (K * Chunk)) p :
  p ∉ map fst exps → write_all files exps !! p = files !! p.
Proof.
  induction exps as [|[q d] exps IH] using rev_ind; [done|].
  rewrite map_app, <- write_all_app. simpl.
  intros Hnotin. apply not_elem_of_app in Hnotin as [Hp Hq].
  rewrite lookup_insert_ne; [by apply IH|].
  intros <-. apply Hq, list_elem_of_here.
Qed.

(** A file that is processed and whose output paths fit the disk leaves
    every one of its [ceil(len / chunk_ms)] parts on the disk, each in a
    file of its own, and touches no other file. *)
Theorem every_part_is_written chunk_ms fs cwd info tgt skip input_root
    output_root audio rel s :
  0 < chunk_ms →
  is_skipped skip info = false →
  prepared fs info tgt = Some audio →
  OsPath.relpath cwd (info_path info) input_root = Some rel →
  let exps := exports_of chunk_ms output_root (OsPath.splitext rel).1 audio in
  exports_fit cwd s (map fst exps) →
  ∃ s',
    process_file chunk_ms fs cwd info tgt skip input_root output_root s
    = (inr (), s')
    ∧ length exps = Z.to_nat (Py.ceil_div (len audio) chunk_ms)
    ∧ NoDup (map fst exps)
    ∧ NoDup (map fst (resolved cwd exps))
    ∧ (∀ p c, (p, c) ∈ exps → out_files s' !! resolve cwd p = Some c)
    ∧ (∀ k, k ∉ map fst (resolved cwd exps) →
            out_files s' !! k = out_files s !! k).
Proof.
  intros Hc Hskip Hprep Hrel exps Hfit.
  destruct (process_file_run chunk_ms fs cwd info tgt skip input_root
              output_root audio rel s Hskip Hprep Hrel Hfit)
    as (s' & Hrun & Hfiles & _ & _).
  assert (NoDup (map fst exps)) as Hnd.
  { subst exps. rewrite exports_of_paths by done.
    apply part_names_NoDup. }
  assert (NoDup (map fst (resolved cwd exps))) as Hkeys.
  { unfold resolved. rewrite map_map. cbn [fst].
    rewrite <- (map_map fst (resolve cwd)).
    destruct Hfit as [Hall _]. subst exps.
    rewrite exports_of_paths in Hall |- * by done.
    rewrite map_map. apply part_keys_NoDup.
    eapply Forall_impl; [exact Hall|]. by intros p (Hp & _). }
  exists s'. split_and!; [done| |done|done|..].
  - rewrite <- (length_map fst). subst exps.
    by rewrite exports_of_paths, length_map, length_seq.
  - intros p c Hin. rewrite Hfiles. apply write_all_distinct; [done|].
    apply list_elem_of_fmap. by exists (p, c).
  - intros k Hk. rewrite Hfiles. by apply write_all_other.
Qed.

(** ** [acx.py] against [acx-fix-v1.py] *)






Lemma exports_fit_nil cwd s : exports_fit cwd s [].
Proof. split; [constructor|]. by intros p q ?%elem_of_nil. Qed.

Lemma acx_process_file_unfold fs cwd m tgt output_root skip input_root
    decoded audio rel s :
  is_skipped skip m = false →
  fs (info_path m) = Some decoded →
  prepared fs m tgt = Some audio →
  OsPath.relpath cwd (info_path m) input_root = Some rel →
  acx_process_file fs cwd m tgt output_root skip input_root s
  = export_chunks cwd output_root (OsPath.splitext rel).1
      (acx_segments (apply_gain audio (gain_for (dBFS audio))))
      {| out_files := out_files s; out_dirs := out_dirs s;
         console := console s ++ conversion_events m tgt decoded
                    ++ [GainApplied (info_path m) (gain_for (dBFS audio))] |}.
Proof.
  intros Hskip Hfs Hprep Hrel. unfold acx_process_file. rewrite Hfs, Hskip.
  unfold prepared in Hprep. rewrite Hfs in Hprep. simpl in Hprep.
  unfold convert_channels, conversion_events.
  destruct (negb (channels decoded =? tgt)).
  - rewrite Hprep. unfold mbind, M_bind, bind, print, ret. simpl.
    rewrite Hrel. by rewrite <- !app_assoc.
  - injection Hprep as ->. unfold mbind, M_bind, bind, print, ret. simpl.
    rewrite Hrel. done.
Qed.

(** Where the two scripts differ.  [acx.py] decodes a file before it tests
    for a duplicate, so a duplicate that no longer decodes ends its run
    while [acx-fix-v1.py] skips it; and for an empty buffer
    [acx-fix-v1.py] saves nothing, while [acx.py] exports one file without
    suffix, which is saved where its path fits the disk. *)
Theorem acx_differs_from_acx_fix_v1 fs cwd m tgt output_root skip input_root s :
  (is_skipped skip m = true → fs (info_path m) = None →
   acx_process_file fs cwd m tgt output_root skip input_root s
   = (inl (DecodeError (info_path m)), s)
   ∧ process_file MAX_DURATION_MS fs cwd m tgt skip input_root output_root s
     = (inr (), {| out_files := out_files s; out_dirs := out_dirs s;
                   console := console s ++ [DuplicateSkipped (info_path m)] |}))
  ∧ (∀ audio rel,
       is_skipped skip m = false →
       prepared fs m tgt = Some audio →
       OsPath.relpath cwd (info_path m) input_root = Some rel →
       len audio = 0 →
       let name :=
         OsPath.join output_root ((OsPath.splitext rel).1 +:+ ".mp3") in
       ∃ s_v1,
         process_file MAX_DURATION_MS fs cwd m tgt skip input_root
                      output_root s = (inr (), s_v1)
         ∧ saved_paths (console s_v1) = saved_paths (console s)
         ∧ out_files s_v1 = out_files s
         ∧ (exports_fit cwd s [name] →
            ∃ s_acx,
              acx_process_file fs cwd m tgt output_root skip input_root s
              = (inr (), s_acx)
              ∧ saved_paths (console s_acx) = saved_paths (console s) ++ [name]
              ∧ out_files s_acx
                = <[resolve cwd name :=
                      {| chunk_audio := apply_gain audio (gain_for (dBFS audio));
                         chunk_start := 0; chunk_stop := 0 |}]>
                    (out_files s))).
Proof.
  split.
  - intros Hskip Hfs. split.
    + unfold acx_process_file. by rewrite Hfs.
    + by apply process_file_skipped.
  - intros audio rel Hskip Hprep Hrel Hempty name.
    assert (exports_of MAX_DURATION_MS output_root (OsPath.splitext rel).1
                       audio = []) as Hnone.
    { unfold exports_of, split_into_chunks. by rewrite len_apply_gain, Hempty. }
    destruct (process_file_run MAX_DURATION_MS fs cwd m tgt skip input_root
                output_root audio rel s Hskip Hprep Hrel)
      as (s_v1 & Hv1 & Hfiles & _ & Hsaved).
    { rewrite Hnone. apply exports_fit_nil. }
    rewrite Hnone in Hsaved, Hfiles. simpl in Hsaved, Hfiles.
    rewrite app_nil_r in Hsaved.
    exists s_v1. split_and!; [done..|]. intros Hfit.
    assert (is_Some (fs (info_path m))) as [decoded Hfs].
    { unfold prepared in Hprep. by destruct (fs (info_path m)). }
    assert (acx_segments (apply_gain audio (gain_for (dBFS audio)))
            = [{| chunk_audio := apply_gain audio (gain_for (dBFS audio));
                  chunk_start := 0; chunk_stop := 0 |}]) as Hsegs.
    { unfold acx_segments. by rewrite len_apply_gain, Hempty. }
    rewrite (acx_process_file_unfold _ _ _ _ _ _ _ decoded audio rel) by done.
    rewrite Hsegs.
    match goal with
    | |- context [export_chunks _ _ _ ?chunks ?s0] =>
        destruct (export_chunks_run cwd output_root (OsPath.splitext rel).1
                    chunks [] s0)
          as (s_acx & Hrun & Hf & Hcs & _)
    end.
    { by apply (exports_fit_ext cwd s). }
    exists s_acx. split_and!; [done| |done].
    rewrite Hcs. cbn [console]. rewrite !saved_paths_app.
    rewrite saved_paths_conversion. simpl. by rewrite app_nil_r.
Qed.

(** ** The Gradio scripts *)

Lemma lower_app a b : Str.lower (a +:+ b) = Str.lower a +:+ Str.lower b.
Proof.
  induction a as [|c a IH]; [done|]. rewrite app_cons. simpl.
  by rewrite IH, app_cons.
Qed.

(** An upload the Gradio scripts accept by its extension has a name the
    batch scan accepts too. *)
Theorem gradio_filter_within_scan_filter path :
  gradio_supported path = true →
  Str.endswith_any (Str.lower path) SUPPORTED_EXTS = true.
Proof.
  unfold gradio_supported, Str.endswith_any. cbv zeta.
  rewrite <- (splitext_join path) at 2. rewrite lower_app.
  intros (ext & Hext & Heq%String.eqb_eq)%existsb_exists.
  apply existsb_exists. exists ext. split; [done|].
  rewrite Heq. apply endswith_app.
Qed.

Lemma gradio_exports_state work_dir parts st :
  foldl (λ st nc, gradio_export work_dir nc.1 nc.2 st) st parts
  = {| work_files :=
         write_all (work_files st)
           (map (λ nc, (OsPath.join work_dir nc.1, nc.2)) parts);
       zip_entries := zip_entries st ++ parts |}.
Proof.
  revert st. induction parts as [|[name c] parts IH]; intros st; simpl.
  - destruct st. simpl. by rewrite app_nil_r.
  - rewrite IH. unfold gradio_export. simpl. by rewrite <- app_assoc.
Qed.

Lemma gradio_run_ok fs work_dir file_paths st :
  Forall (λ path, gradio_supported path = true → is_Some (fs path))
         file_paths →
  process_files fs work_dir file_paths st
  = (None,
     {| work_files :=
          write_all (work_files st)
            (map (λ nc, (OsPath.join work_dir nc.1, nc.2))
                 (gradio_all_parts fs file_paths));
        zip_entries := zip_entries st ++ gradio_all_parts fs file_paths |}).
Proof.
  intros Hall. revert st.
  induction Hall as [|path file_paths Hpath _ IH]; intros st.
  - simpl. unfold gradio_all_parts. simpl. destruct st. simpl.
    by rewrite app_nil_r.
  - simpl. unfold gradio_process_file, gradio_all_parts. simpl.
    fold (gradio_all_parts fs file_paths).
    destruct (gradio_supported path); simpl.
    + destruct (Hpath eq_refl) as [audio ->].
      rewrite gradio_exports_state, IH. simpl.
      by rewrite write_all_app, map_app, <- app_assoc.
    + apply IH.
Qed.

Lemma gradio_parts_length path audio :
  length (gradio_parts path audio)
  = Z.to_nat (Py.ceil_div (len audio) CHUNK_SIZE_MS).
Proof.
  unfold gradio_parts, Py.enumerate. cbv zeta.
  rewrite length_map, length_imap, split_into_chunks_length by done.
  by rewrite len_apply_gain.
Qed.

(** When every supported upload decodes, [process_files] ends normally; the
    archive gains the parts of every supported upload, in upload order
    ([ceil(len / CHUNK_MS)] parts for an upload), nothing for the other
    uploads, and every name of the work directory holds the last part
    written to it. *)
Theorem gradio_archive_holds_every_part fs work_dir file_paths st :
  Forall (λ path, gradio_supported path = true → is_Some (fs path))
         file_paths →
  ∃ st',
    process_files fs work_dir file_paths st = (None, st')
    ∧ zip_entries st' = zip_entries st ++ gradio_all_parts fs file_paths
    ∧ (∀ p, work_files st' !! p
            = match last_write p
                      (map (λ nc, (OsPath.join work_dir nc.1, nc.2))
                           (gradio_all_parts fs file_paths))
              with
              | Some c => Some c
              | None => work_files st !! p
              end)
    ∧ (∀ path audio, fs path = Some audio → gradio_supported path = true →
         length (gradio_parts path audio)
         = Z.to_nat (Py.ceil_div (len audio) CHUNK_SIZE_MS))
    ∧ (Forall (λ path, gradio_supported path = false) file_paths →
       zip_entries st' = zip_entries st).
Proof.
  intros Hall. eexists. split; [by apply gradio_run_ok|]. simpl.
  split_and!; [done|..].
  - intros p. apply write_all_lookup.
  - intros path audio _ _. apply gradio_parts_length.
  - intros Hnone.
    assert (gradio_all_parts fs file_paths = []) as ->; [|by rewrite app_nil_r].
    unfold gradio_all_parts. clear Hall.
    induction Hnone as [|path file_paths Hpath _ IH]; [done|].
    simpl. by rewrite Hpath, IH.
Qed.

Lemma process_files_app fs work_dir xs ys st :
  process_files fs work_dir (xs ++ ys) st
  = match process_files fs work_dir xs st with
    | (Some e, st') => (Some e, st')
    | (None, st') => process_files fs work_dir ys st'
    end.
Proof.
  revert st. induction xs as [|x xs IH]; intros st; simpl; [done|].
  destruct (gradio_process_file fs work_dir st x); [done|]. apply IH.
Qed.

(** [process_files] has no handler around the decode: the first supported
    upload that does not decode ends the loop with its exception, after the
    uploads before it were archived; no upload after it is read. *)
Theorem gradio_stops_at_first_decode_error fs work_dir pre path post st :
  Forall (λ path, gradio_supported path = true → is_Some (fs path)) pre →
  gradio_supported path = true → fs path = None →
  ∃ st',
    process_files fs work_dir (pre ++ path :: post) st
    = (Some (DecodeError path), st')
    ∧ process_files fs work_dir pre st = (None, st')
    ∧ zip_entries st' = zip_entries st ++ gradio_all_parts fs pre.
Proof.
  intros Hpre Hsupp Hfs.
  pose proof (gradio_run_ok fs work_dir pre st Hpre) as Hrun.
  eexists. split_and!; [|exact Hrun|done].
  rewrite process_files_app, Hrun. simpl.
  unfold gradio_process_file. by rewrite Hsupp, Hfs.
Qed.
End Run.

(** ** The example batches *)

#[local] Existing Instance Simple.lib.

(** The two recordings read by the example below. *)
Lemma clash_meta_scanned :
  (analyze_directory Simple.clash_fs Simple.clash_walk initial).1
  = inr Simple.clash_meta.
Proof. vm_compute. reflexivity. Qed.

Lemma colliding_exports_overwrite_witness :
  ∃ s',
    process_batch MAX_DURATION_MS Simple.clash_fs "/home/u" Simple.clash_meta
                  "in" "out" initial = (inr (), s')
    ∧ saved_paths (console s')
      = saved_paths (console initial)
        ++ map fst (batch_exports MAX_DURATION_MS Simple.clash_fs "/home/u"
                      Simple.clash_meta
                      (decide_target_channels Simple.clash_meta) ∅ "in" "out")
    ∧ ∀ k,
        out_files s' !! k
        = match last_write k
                  (resolved "/home/u"
                     (batch_exports MAX_DURATION_MS Simple.clash_fs
                        "/home/u" Simple.clash_meta
                        (decide_target_channels Simple.clash_meta) ∅
                        "in" "out"))
          with
          | Some c => Some c
          | None => out_files initial !! k
          end.
Proof.
  apply (colliding_exports_overwrite MAX_DURATION_MS Simple.clash_fs "/home/u"
           Simple.clash_meta ∅ "in" "out" initial).
  - vm_compute. reflexivity.
  - assert (survivors ∅ Simple.clash_meta = Simple.clash_meta) as ->
      by (vm_compute; reflexivity).
    unfold Simple.clash_meta.
    repeat constructor; apply is_Some_alt; vm_compute; exact I.
  - apply fits_empty_disk_spec; [vm_compute; reflexivity|done|done].
Defined.

(** C5, as stated, fails.  [in/book/ch1.mp3] and [in/book/ch1.wav] are two
    different recordings; both resolve to [out/book/ch1.mp3].  The run ends
    normally, both are saved to that path, and the disk holds one file,
    the second recording. *)
Lemma colliding_exports_raise_nothing :
  let r := acx_fix_v1 Simple.clash_walk Simple.clash_fs Simple.clash_fs
                      "/home/u" "in" "out" initial in
  map info_md5 Simple.clash_meta = ["PCM-mp3"; "PCM-wav"]
  ∧ r.1 = inr ()
  ∧ saved_paths (console r.2) = ["out/book/ch1.mp3"; "out/book/ch1.mp3"]
  ∧ resolve "/home/u" "out/book/ch1.mp3"
    = ["home"; "u"; "out"; "book"; "ch1.mp3"]
  ∧ size (out_files r.2) = 1%nat
  ∧ (chunk_audio <$> out_files r.2 !! ["home"; "u"; "out"; "book"; "ch1.mp3"])
    = Some (apply_gain (Simple.mono 2000 (-25)%float "PCM-wav") 5%float).
Proof. vm_compute. repeat split; reflexivity. Qed.

(** What the disk refuses does raise.  An output file that stands where a
    later output needs a directory: [in/a.wav] is saved as [out/a.mp3],
    then [os.makedirs("out/a.mp3")] for [in/a.mp3/b.wav] fails.  An empty
    output root: [os.makedirs("")] fails before anything is written.  A
    directory that stands where an output file goes: opening it fails. *)
Example exports_the_disk_refuses :
  (let r := acx_fix_v1 Simple.nested_walk Simple.nested_fs Simple.nested_fs
                       "/home/u" "in" "out" initial in
   r.1 = inl FileExistsError
   ∧ saved_paths (console r.2) = ["out/a.mp3"]
   ∧ size (out_files r.2) = 1%nat)
  ∧ (let r := acx_fix_v1 Simple.silent_walk Simple.silent_fs Simple.silent_fs
                         "/home/u" "in" "" initial in
     r.1 = inl FileNotFoundError
     ∧ saved_paths (console r.2) = []
     ∧ out_files r.2 = ∅)
  ∧ (let r := acx_fix_v1 Simple.silent_walk Simple.silent_fs Simple.silent_fs
                         "/home/u" "in" "out"
                         {| out_files := ∅;
                            out_dirs := {[ ["home"; "u"; "out"; "silence.mp3"] ]};
                            console := [] |} in
     r.1 = inl IsADirectoryError
     ∧ saved_paths (console r.2) = []
     ∧ out_files r.2 = ∅).
Proof. vm_compute. repeat split; reflexivity. Qed.

(** C4 at the failing input.  When [in/x.mp3] cannot be decoded during the
    scan, it is reported and [in/y.mp3] is processed.  When [in/x.mp3]
    decodes during the scan and fails to decode when [process_file] reads it
    again, the exception leaves the loop: the run ends with the error and
    [in/y.mp3] is never processed. *)
Theorem decode_failure_while_processing_aborts :
  (let r := acx_fix_v1 Simple.pair_walk Simple.pair_bad_scan_fs
                       Simple.pair_bad_scan_fs "/home/u" "in" "out" initial in
   r.1 = inr ()
   ∧ head (console r.2) = Some (CouldNotOpen "in/x.mp3")
   ∧ saved_paths (console r.2) = ["out/y.mp3"])
  ∧ (Simple.pair_scan_fs "in/x.mp3" ≠ None
     ∧ Simple.pair_proc_fs "in/x.mp3" = None
     ∧ Simple.pair_proc_fs "in/y.mp3" ≠ None
     ∧ acx_fix_v1 Simple.pair_walk Simple.pair_scan_fs Simple.pair_proc_fs
                  "/home/u" "in" "out" initial
       = (inl (DecodeError "in/x.mp3"),
          {| out_files := ∅; out_dirs := ∅; console := [] |})).
Proof. vm_compute. repeat split; congruence. Qed.




Lemma gain_is_target_minus_measured_witness :
  ∃ s',
    process_file MAX_DURATION_MS Simple.level_fs "/home/u" Simple.level_info
                 1 ∅ "in" "out" initial = (inr (), s')
    ∧ gains_applied (console s') = [("in/level.wav", 0%float)]
    ∧ apply_gain (Simple.mono 1000 (-20)%float "PCM-l") 0%float
      = Simple.mono 1000 (-20)%float "PCM-l".
Proof.
  destruct (gain_is_target_minus_measured MAX_DURATION_MS Simple.level_fs
              "/home/u" Simple.level_info 1 ∅ "in" "out"
              (Simple.mono 1000 (-20)%float "PCM-l") "level.wav" initial)
    as (_ & Hfit & _ & Hlevel); [reflexivity..|].
  destruct Hfit as (s' & Hrun & Hgain & _).
  { apply fits_empty_disk_spec; [vm_compute; reflexivity|done|done]. }
  exists s'. split_and!; [exact Hrun|exact Hgain|reflexivity].
Defined.

(** C7, as stated, fails.  The scan takes the file [in/.wav], whose name
    ends in a supported extension; [splitext] finds no extension in a name
    that starts with its only dot, so nothing is stripped and the file is
    saved as [out/.wav.mp3]. *)
Lemma extension_kept_in_dot_file_name :
  let r := acx_fix_v1 Simple.dot_walk Simple.dot_fs Simple.dot_fs
                      "/home/u" "in" "out" initial in
  map info_path (scanned Simple.dot_fs Simple.dot_walk) = ["in/.wav"]
  ∧ OsPath.relpath "/home/u" "in/.wav" "in" = Some ".wav"
  ∧ OsPath.splitext ".wav" = (".wav", "")
  ∧ r.1 = inr ()
  ∧ saved_paths (console r.2) = ["out/.wav.mp3"]
  ∧ size (out_files r.2) = 1%nat
  ∧ (chunk_bounds <$> out_files r.2 !! ["home"; "u"; "out"; ".wav.mp3"])
    = Some (0, 1000).
Proof. vm_compute. repeat split; reflexivity. Qed.

Lemma export_naming_witness :
  ∃ s',
    process_file CHUNK_SIZE_MS Simple.long_fs "/home/u" Simple.long_info
                 1 ∅ "in" "out" initial = (inr (), s')
    ∧ saved_paths (console s')
      = ["out/long_part1.mp3"; "out/long_part2.mp3"]
    ∧ (OsPath.splitext "long.wav").1 = "long".
Proof.
  destruct (export_naming CHUNK_SIZE_MS Simple.long_fs "/home/u"
              Simple.long_info 1 ∅ "in" "out"
              (Simple.mono (Simple.minutes 150) (-30)%float "PCM-150")
              "long.wav" initial)
    as (_ & Hfit & _ & _ & Hstrip & _); [reflexivity..|].
  destruct Hfit as (s' & Hrun & Hsaved).
  { apply fits_empty_disk_spec; [vm_compute; reflexivity|done|done]. }
  exists s'. split_and!; [exact Hrun| |].
  - rewrite Hsaved. vm_compute. reflexivity.
  - apply (Hstrip "" "l"%char "ong" "wav"); done.
Defined.

(** The run of [acx-fix-v1b.py] on a file of 150 minutes and a file of 30
    minutes. *)
Example long_and_short_run :
  let r := acx_fix_v1b Simple.long_walk Simple.long_fs Simple.long_fs
                       "/home/u" "in" "out" initial in
  r.1 = inr ()
  ∧ saved_paths (console r.2)
    = ["out/long_part1.mp3"; "out/long_part2.mp3"; "out/short.mp3"]
  ∧ (chunk_bounds <$> out_files r.2 !! ["home"; "u"; "out"; "long_part1.mp3"])
    = Some (0, 7198000)
  ∧ (chunk_bounds <$> out_files r.2 !! ["home"; "u"; "out"; "long_part2.mp3"])
    = Some (7198000, 9000000)
  ∧ (chunk_bounds <$> out_files r.2 !! ["home"; "u"; "out"; "short.mp3"])
    = Some (0, 1800000).
Proof. vm_compute. repeat split; reflexivity. Qed.

(** ** Further runs on the example data *)

Lemma part_names_distinct_witness :
  NoDup (map (out_path_of "out" "book/ch1" 3) (seq 1 3))
  ∧ Forall (λ p, Str.endswith p ".mp3" = true)
           (map (out_path_of "out" "book/ch1" 3) (seq 1 3)).
Proof. apply (part_names_distinct "out" "book/ch1" 3). Defined.


Lemma decode_error_keeps_earlier_exports_witness :
  ∃ s1,
    for_each [SimpleMore.pair_y_info; SimpleMore.pair_x_info]
      (λ info, process_file MAX_DURATION_MS Simple.pair_proc_fs "/home/u" info
                            1 ∅ "in" "out") initial
    = (inl (DecodeError "in/x.mp3"), s1)
    ∧ saved_paths (console s1) = ["out/y.mp3"].
Proof.
  eexists. split.
  - apply (decode_error_keeps_earlier_exports MAX_DURATION_MS
             Simple.pair_proc_fs "/home/u" [SimpleMore.pair_y_info]
             SimpleMore.pair_x_info [] 1 ∅ "in" "out" initial).
    + vm_compute. reflexivity.
    + vm_compute. reflexivity.
    + vm_compute. reflexivity.
  - vm_compute. reflexivity.
Defined.

Lemma stable_files_never_fail_to_decode_witness :
  main MAX_DURATION_MS SimpleMore.notes_walk Simple.pair_scan_fs
       Simple.pair_scan_fs "/home/u" "in" "out" initial
  = (inl (SystemExit 1), initial)
  ∧ ∀ p, SystemExit 1 ≠ DecodeError p.
Proof.
  assert (main MAX_DURATION_MS SimpleMore.notes_walk Simple.pair_scan_fs
               Simple.pair_scan_fs "/home/u" "in" "out" initial
          = (inl (SystemExit 1), initial)) as Hrun
    by (vm_compute; reflexivity).
  split; [exact Hrun|].
  exact (stable_files_never_fail_to_decode MAX_DURATION_MS
           SimpleMore.notes_walk Simple.pair_scan_fs "/home/u" "in" "out"
           initial (SystemExit 1) initial Hrun).
Defined.

Lemma every_part_is_written_witness :
  ∃ s',
    process_file CHUNK_SIZE_MS Simple.long_fs "/home/u" Simple.long_info
                 1 ∅ "in" "out" initial = (inr (), s')
    ∧ (chunk_bounds <$> out_files s' !! ["home"; "u"; "out"; "long_part1.mp3"])
      = Some (0, 7198000)
    ∧ (chunk_bounds <$> out_files s' !! ["home"; "u"; "out"; "long_part2.mp3"])
      = Some (7198000, 9000000)
    ∧ out_files s' !! ["home"; "u"; "out"; "long.mp3"] = None.
Proof.
  destruct (every_part_is_written CHUNK_SIZE_MS Simple.long_fs "/home/u"
              Simple.long_info 1 ∅ "in" "out"
              (Simple.mono (Simple.minutes 150) (-30)%float "PCM-150")
              "long.wav" initial)
    as (s' & Hrun & _ & _ & _ & _ & _);
    [reflexivity|reflexivity|reflexivity|reflexivity| |].
  { apply fits_empty_disk_spec; [vm_compute; reflexivity|done|done]. }
  exists s'. split; [exact Hrun|].
  vm_compute in Hrun. injection Hrun as <-.
  vm_compute. repeat split; reflexivity.
Defined.


Lemma acx_differs_from_acx_fix_v1_witness :
  ∃ s_acx s_v1,
    acx_process_file SimpleMore.empty_fs "/home/u" SimpleMore.empty_info 1
                     "out" ∅ "in" initial = (inr (), s_acx)
    ∧ process_file MAX_DURATION_MS SimpleMore.empty_fs "/home/u"
                   SimpleMore.empty_info 1 ∅ "in" "out" initial
      = (inr (), s_v1)
    ∧ saved_paths (console s_acx) = ["out/empty.mp3"]
    ∧ saved_paths (console s_v1) = [].
Proof.
  destruct (acx_differs_from_acx_fix_v1 SimpleMore.empty_fs "/home/u"
              SimpleMore.empty_info 1 "out" ∅ "in" initial) as [_ Hempty].
  destruct (Hempty (Simple.mono 0 neg_infinity "") "empty.wav")
    as (s_v1 & Hv1 & Hsaved_v1 & _ & Hfit); [reflexivity..|].
  destruct Hfit as (s_acx & Hacx & Hsaved_acx & _).
  { apply fits_empty_disk_spec; [vm_compute; reflexivity|done|done]. }
  exists s_acx, s_v1. split_and!; [exact Hacx|exact Hv1| |exact Hsaved_v1].
  rewrite Hsaved_acx. vm_compute. reflexivity.
Defined.

Lemma gradio_filter_within_scan_filter_witness :
  gradio_supported "a/Take.WAV" = true
  ∧ Str.endswith_any (Str.lower "a/Take.WAV") SUPPORTED_EXTS = true.
Proof.
  split; [reflexivity|].
  apply (gradio_filter_within_scan_filter "a/Take.WAV"). reflexivity.
Defined.

(** The converse fails: the scan takes a file named [.mp3], which has no
    extension for [splitext]. *)
Example scan_filter_not_within_gradio_filter :
  Str.endswith_any (Str.lower ".mp3") SUPPORTED_EXTS = true
  ∧ gradio_supported ".mp3" = false.
Proof. split; reflexivity. Qed.

Lemma gradio_archive_holds_every_part_witness :
  ∃ st',
    process_files SimpleMore.upload_fs "/tmp/acx_proc"
                  ["a/take.wav"; "notes.txt"; "b/take.wav"] gradio_initial
    = (None, st')
    ∧ map fst (zip_entries st') = ["take.mp3"; "take.mp3"]
    ∧ (chunk_bounds <$> work_files st' !! "/tmp/acx_proc/take.mp3")
      = Some (0, 2000).
Proof.
  destruct (gradio_archive_holds_every_part SimpleMore.upload_fs
              "/tmp/acx_proc" ["a/take.wav"; "notes.txt"; "b/take.wav"]
              gradio_initial)
    as (st' & Hrun & _).
  { repeat constructor; intros Hsupp;
      first [ by vm_compute in Hsupp
            | apply is_Some_alt; vm_compute; exact I ]. }
  exists st'. split; [exact Hrun|].
  vm_compute in Hrun. injection Hrun as <-.
  vm_compute. split; reflexivity.
Defined.

Lemma gradio_stops_at_first_decode_error_witness :
  ∃ st',
    process_files SimpleMore.upload_fs "/tmp/acx_proc"
                  ["a/take.wav"; "c/missing.mp3"; "b/take.wav"] gradio_initial
    = (Some (DecodeError "c/missing.mp3"), st')
    ∧ map fst (zip_entries st') = ["take.mp3"].
Proof.
  destruct (gradio_stops_at_first_decode_error SimpleMore.upload_fs
              "/tmp/acx_proc" ["a/take.wav"] "c/missing.mp3" ["b/take.wav"]
              gradio_initial)
    as (st' & Hrun & _ & Hzip); [|reflexivity..|].
  { repeat constructor; intros Hsupp;
      first [ by vm_compute in Hsupp
            | apply is_Some_alt; vm_compute; exact I ]. }
  exists st'. split; [exact Hrun|].
  rewrite Hzip. vm_compute. reflexivity.
Defined.

Lemma grouping_partitions_scan_witness :
  concat (map snd (group_by_md5 Simple.mixed_meta))
  ≡ₚ map info_path Simple.mixed_meta
  ∧ NoDup (map fst (group_by_md5 Simple.mixed_meta))
  ∧ ∀ k grp, (k, grp) ∈ group_by_md5 Simple.mixed_meta →
      grp = paths_with k Simple.mixed_meta ∧ grp ≠ []
      ∧ k ∈ map info_md5 Simple.mixed_meta.
Proof. apply (grouping_partitions_scan Simple.mixed_meta). Defined.

Lemma scan_records_decodable_files_witness :
  ∃ meta evs,
    analyze_directory Simple.pair_bad_scan_fs Simple.pair_walk initial
    = (inr meta, {| out_files := ∅; out_dirs := ∅; console := evs |})
    ∧ map info_path meta = ["in/y.mp3"]
    ∧ evs = [CouldNotOpen "in/x.mp3"].
Proof.
  destruct (scan_records_decodable_files Simple.pair_bad_scan_fs
              Simple.pair_walk initial) as (meta & evs & Hrun & _ & _).
  exists meta, evs. split; [exact Hrun|].
  vm_compute in Hrun. injection Hrun as <- <-. split; reflexivity.
Defined.
